(** * make-hardener: transitive freezing of a JavaScript object graph

    A shallow embedding of [src/dist/make-hardener.esm.js].  The JavaScript
    heap is a list of ordinary objects addressed by index; every function of
    the source ([enqueue], [freezeAndTraverse], [dequeue], [checkPrototypes],
    [commit], [freezeWithOverride], [harden], [makeHardener]) is a
    computation in a state-and-exception monad over that heap, the fringe
    set and the three per-call collections [toFreeze], [prototypes] and
    [paths]. *)

From stdpp Require Import gmap strings list.
From Stdlib Require Import ZArith Lia.

#[local] Set Warnings "-clear-no-such-hyp".

(** ** Values, property descriptors, objects *)

Abbreviation loc := nat (only parsing).

Inductive prim :=
| PUndefined
| PNull
| PBool (b : bool)
| PNum (n : Z)
| PStr (s : string).

Inductive value :=
| VPrim (p : prim)
| VRef (l : loc).

(** Property keys: strings (array indices included) and symbols.  A symbol
    is its identity plus its description. *)
Inductive key :=
| KStr (s : string)
| KSym (id : nat) (description : string).

(** The descriptor sum type: what [Object.getOwnPropertyDescriptors] yields
    for one key.  [get] and [set] are [undefined] or a function reference. *)
Inductive desc :=
| DataDesc (v : value) (writable enumerable configurable : bool)
| AccessorDesc (get set : value) (enumerable configurable : bool).

(** What a function object does when called, for the two closures that
    [freezeWithOverride] creates; every other object is [Foreign]. *)
Inductive code :=
| Foreign
| OverrideGet (captured : value)
| OverrideSet (obj : loc) (name : key).

Record object := Object {
  type_of : string;              (* the result of [typeof] *)
  proto : option loc;            (* [[Prototype]]; [None] is null *)
  extensible : bool;
  props : list (key * desc);     (* own properties, in [ownKeys] order *)
  body : code
}.

#[global] Instance prim_eq_dec : EqDecision prim.
Proof. solve_decision. Defined.
#[global] Instance value_eq_dec : EqDecision value.
Proof. solve_decision. Defined.
#[global] Instance key_eq_dec : EqDecision key.
Proof. solve_decision. Defined.
#[global] Instance desc_eq_dec : EqDecision desc.
Proof. solve_decision. Defined.

Definition configurable (d : desc) : bool :=
  match d with
  | DataDesc _ _ _ c => c
  | AccessorDesc _ _ _ c => c
  end.

Definition enumerable (d : desc) : bool :=
  match d with
  | DataDesc _ _ e _ => e
  | AccessorDesc _ _ e _ => e
  end.

(** The values a descriptor holds: the stored value of a data property, the
    two functions of an accessor. *)
Definition desc_values (d : desc) : list value :=
  match d with
  | DataDesc v _ _ _ => [v]
  | AccessorDesc g s _ _ => [g; s]
  end.

(** ** The heap and the host primitives captured from [Object] *)

Abbreviation heap := (list object) (only parsing).

(** A reference outside the heap does not arise in JavaScript; the
    accessors read it as an object without properties, whose [typeof] is
    neither ["object"] nor ["function"].  [props_at],
    [proto_at], [freeze_at] and [define_at] are the effect on the heap of
    [getOwnPropertyDescriptors], [getPrototypeOf], [freeze] and
    [defineProperty]. *)
Definition props_at (h : heap) (l : loc) : list (key * desc) :=
  match h !! l with
  | Some o => props o
  | None => []
  end.

Definition proto_at (h : heap) (l : loc) : option loc :=
  match h !! l with
  | Some o => proto o
  | None => None
  end.

Definition typeof (h : heap) (l : loc) : string :=
  match h !! l with
  | Some o => type_of o
  | None => "undefined"
  end.

Fixpoint lookup_prop (k : key) (ps : list (key * desc)) : option desc :=
  match ps with
  | [] => None
  | (k', d) :: ps' => if decide (k = k') then Some d else lookup_prop k ps'
  end.

Fixpoint replace_prop (k : key) (d : desc) (ps : list (key * desc)) : list (key * desc) :=
  match ps with
  | [] => []
  | (k', d') :: ps' =>
      if decide (k = k') then (k', d) :: ps' else (k', d') :: replace_prop k d ps'
  end.

Definition with_props (o : object) (ps : list (key * desc)) : object :=
  {| type_of := type_of o; proto := proto o; extensible := extensible o;
     props := ps; body := body o |}.

(** [Object.freeze] on one descriptor and on an ordinary object. *)
Definition freeze_desc (d : desc) : desc :=
  match d with
  | DataDesc v _ e _ => DataDesc v false e false
  | AccessorDesc g s e _ => AccessorDesc g s e false
  end.

Definition freeze_object (o : object) : object :=
  {| type_of := type_of o; proto := proto o; extensible := false;
     props := map (fun kd => (kd.1, freeze_desc kd.2)) (props o); body := body o |}.

Definition freeze_at (h : heap) (l : loc) : heap :=
  match h !! l with
  | Some o => <[l := freeze_object o]> h
  | None => h
  end.

(** ValidateAndApplyPropertyDescriptor for a complete descriptor [new]
    against a non-configurable current one. *)
Definition compatible (cur new : desc) : bool :=
  negb (configurable new) && bool_decide (enumerable new = enumerable cur) &&
  match cur, new with
  | DataDesc v w _ _, DataDesc v' w' _ _ =>
      w || (negb w' && bool_decide (v' = v))
  | AccessorDesc g s _ _, AccessorDesc g' s' _ _ =>
      bool_decide (g' = g) && bool_decide (s' = s)
  | _, _ => false
  end.

(** [Object.defineProperty] with a complete descriptor on an ordinary
    object; [None] is the TypeError of a rejected definition.  A new key
    goes to the end of [props]: this is the order of [ownKeys] among string
    keys that are not array indices, the only new key the hardener itself
    defines being [value] on a function it has just made.  Where the
    language would list a new array index or string before older symbols,
    [props] has it last; nothing below depends on the position of a new
    key. *)
Definition define_own (o : object) (k : key) (d : desc) : option object :=
  match lookup_prop k (props o) with
  | None =>
      if extensible o then Some (with_props o (props o ++ [(k, d)])) else None
  | Some cur =>
      if configurable cur || compatible cur d
      then Some (with_props o (replace_prop k d (props o)))
      else None
  end.

Definition define_at (h : heap) (l : loc) (k : key) (d : desc) : option heap :=
  match h !! l with
  | Some o =>
      match define_own o k d with
      | Some o' => Some (<[l := o']> h)
      | None => None
      end
  | None => None
  end.

Arguments freeze_at : simpl never.
Arguments define_at : simpl never.
Arguments props_at : simpl never.
Arguments proto_at : simpl never.
Arguments typeof : simpl never.

(** ** Errors

    Every error of the source is a JavaScript [TypeError]; the constructors
    tell the throw sites apart and carry the message. *)
Inductive error :=
| ConfigError (msg : string)
| TypeKindError (msg : string)
| ReadOnlyViolation (msg : string)
| UnreachablePrototype (msg : string)
| HostError (msg : string).

(** ** String conversions *)

(** [String(name)]: succeeds on symbols too. *)
Definition String_ (k : key) : string :=
  match k with
  | KStr s => s
  | KSym _ d => "Symbol(" +:+ d +:+ ")"
  end.

(** A key inside a template literal: a symbol throws. *)
Definition template_key (k : key) : option string :=
  match k with
  | KStr s => Some s
  | KSym _ _ => None
  end.

(** ** Events, state, and the monad *)

(** The calls into the host and the property assignments, in the order
    they are made. *)
Inductive event :=
| EvPrepare (l : loc)
| EvGetOwnPropertyDescriptors (l : loc)
| EvDefineProperty (l : loc) (k : key)
| EvAssign (l : loc) (k : key)
| EvFreeze (l : loc)
| EvGetPrototypeOf (l : loc).

#[global] Instance event_eq_dec : EqDecision event.
Proof. solve_decision. Defined.

Record state := State {
  st_heap : heap;
  fringeSet : gset loc;                 (* WeakSet of the hardener *)
  toFreeze : list loc;                  (* Set, in insertion order *)
  prototypes : list (loc * string);     (* Map, in insertion order *)
  paths : gmap loc (option string);     (* WeakMap; [None] is undefined *)
  st_log : list event
}.

Definition set_heap (h : heap) (st : state) : state :=
  State h (fringeSet st) (toFreeze st) (prototypes st) (paths st) (st_log st).
Definition set_fringeSet (f : gset loc) (st : state) : state :=
  State (st_heap st) f (toFreeze st) (prototypes st) (paths st) (st_log st).
Definition set_toFreeze (t : list loc) (st : state) : state :=
  State (st_heap st) (fringeSet st) t (prototypes st) (paths st) (st_log st).
Definition set_prototypes (p : list (loc * string)) (st : state) : state :=
  State (st_heap st) (fringeSet st) (toFreeze st) p (paths st) (st_log st).
Definition set_paths (p : gmap loc (option string)) (st : state) : state :=
  State (st_heap st) (fringeSet st) (toFreeze st) (prototypes st) p (st_log st).
Definition emit (e : event) (st : state) : state :=
  State (st_heap st) (fringeSet st) (toFreeze st) (prototypes st) (paths st)
        (st_log st ++ [e]).

(** A computation returns, throws, or runs out of fuel; the state it
    leaves behind is kept in all three cases, as heap effects are not
    undone by an exception. *)
Inductive result (A : Type) :=
| Ret (a : A)
| Raise (e : error)
| Diverge.
Arguments Ret {A} a.
Arguments Raise {A} e.
Arguments Diverge {A}.

Definition M (A : Type) : Type := state -> result A * state.

Definition ret {A} (a : A) : M A := fun st => (Ret a, st).
Definition raise {A} (e : error) : M A := fun st => (Raise e, st).
Definition bind {A B} (c : M A) (f : A -> M B) : M B := fun st =>
  match c st with
  | (Ret a, st') => f a st'
  | (Raise e, st') => (Raise e, st')
  | (Diverge, st') => (Diverge, st')
  end.
Definition gets {A} (f : state -> A) : M A := fun st => (Ret (f st), st).
Definition modify (f : state -> state) : M unit := fun st => (Ret tt, f st).

Declare Scope hardener_scope.
Delimit Scope hardener_scope with H.
Notation "x <- c ;; k" := (bind c (fun x => k))
  (at level 100, c at next level, right associativity) : hardener_scope.
Notation "c ;; k" := (bind c (fun _ => k))
  (at level 100, right associativity) : hardener_scope.
Open Scope hardener_scope.

(** [Array.prototype.forEach] over a list fixed before the loop starts. *)
Fixpoint forEach {A} (f : A -> M unit) (xs : list A) : M unit :=
  match xs with
  | [] => ret tt
  | x :: xs' => f x ;; forEach f xs'
  end.

(** ** The hardener *)

Section Hardener.

Set Default Proof Using "Type".

(** The realm's [%Function.prototype%]: the [[Prototype]] of every
    function the source creates. *)
Variable FunctionPrototype : loc.

(** An object inside a template literal; [None] when the conversion
    throws. *)
Variable toStr : loc -> option string.

(** [options.naivePrepareObject]: absent, or a callback that may change
    the heap and may throw. *)
Variable naivePrepareObject : option (loc -> heap -> option error * heap).

(** *** Host calls *)

Definition getOwnPropertyDescriptors (obj : loc) : M (list (key * desc)) :=
  fun st => (Ret (props_at (st_heap st) obj), emit (EvGetOwnPropertyDescriptors obj) st).

Definition getPrototypeOf (obj : loc) : M (option loc) :=
  fun st => (Ret (proto_at (st_heap st) obj), emit (EvGetPrototypeOf obj) st).

Definition freeze (obj : loc) : M unit :=
  modify (fun st => emit (EvFreeze obj) (set_heap (freeze_at (st_heap st) obj) st)).

Definition defineProperty (obj : loc) (name : key) (d : desc) : M unit :=
  fun st =>
    match define_at (st_heap st) obj name d with
    | Some h => (Ret tt, emit (EvDefineProperty obj name) (set_heap h st))
    | None => (Raise (HostError "Cannot redefine property"),
               emit (EvDefineProperty obj name) st)
    end.

(** [target.name = v] where neither [target] nor its prototype chain has
    the property: an own writable, enumerable, configurable data property
    is created. *)
Definition assign_new (target : loc) (name : key) (v : value) : M unit :=
  fun st =>
    match define_at (st_heap st) target name (DataDesc v true true true) with
    | Some h => (Ret tt, emit (EvAssign target name) (set_heap h st))
    | None => (Raise (HostError "Cannot add property"), emit (EvAssign target name) st)
    end.

(** A function written as a method of an object literal: [length] and
    [name] are its own properties, it has no [prototype] property. *)
Definition new_function (name : string) (len : Z) (c : code) : object :=
  {| type_of := "function"; proto := Some FunctionPrototype; extensible := true;
     props := [(KStr "length", DataDesc (VPrim (PNum len)) false false true);
               (KStr "name", DataDesc (VPrim (PStr name)) false false true)];
     body := c |}.

Definition alloc (o : object) : M loc :=
  fun st => (Ret (length (st_heap st)), set_heap (st_heap st ++ [o]) st).

Definition prepare (obj : loc) : M unit :=
  match naivePrepareObject with
  | Some hook => fun st =>
      match hook obj (st_heap st) with
      | (Some e, h) => (Raise e, emit (EvPrepare obj) (set_heap h st))
      | (None, h) => (Ret tt, emit (EvPrepare obj) (set_heap h st))
      end
  | None => ret tt
  end.

(** *** The per-call collections *)

(** [toFreeze.add(l)] *)
Definition toFreeze_add (l : loc) : M unit :=
  modify (fun st =>
    if decide (l ∈ toFreeze st) then st else set_toFreeze (toFreeze st ++ [l]) st).

(** [paths.set(l, path)] *)
Definition paths_set (l : loc) (path : option string) : M unit :=
  modify (fun st => set_paths (<[l := path]> (paths st)) st).

(** [paths.get(obj) || 'unknown'] *)
Definition path_or_unknown (p : option (option string)) : string :=
  match p with
  | Some (Some s) => if decide (s = "") then "unknown" else s
  | _ => "unknown"
  end.

Definition prototypes_has (p : loc) (ps : list (loc * string)) : bool :=
  bool_decide (p ∈ ps.*1).

(** *** [enqueue] *)

Definition enqueue (val : value) (path : option string) : M unit :=
  match val with
  | VPrim _ => ret tt
  | VRef l =>
      type <- gets (fun st => typeof (st_heap st) l);;
      if negb (bool_decide (type = "object")) && negb (bool_decide (type = "function"))
      then raise (TypeKindError ("Unexpected typeof: " +:+ type))
      else
        seen <- gets (fun st => bool_decide (l ∈ fringeSet st) || bool_decide (l ∈ toFreeze st));;
        if seen : bool then ret tt
        else toFreeze_add l;; paths_set l path
  end.

(** *** [freezeWithOverride] *)

(** The body of the [forEach] over the descriptors of [obj].  The
    assignment [newDesc.get.value = value] creates an own property: the
    chain of [%Function.prototype%] is taken to have no property named
    [value], as the expression ['value' in desc] takes descriptor objects
    to inherit none. *)
Definition override_property (obj : loc) (nd : key * desc) : M unit :=
  let (name, d) := nd in
  if negb (configurable d) then ret tt
  else match d with
       | DataDesc v _ e _ =>
           getter <- alloc (new_function "get" 0 (OverrideGet v));;
           setter <- alloc (new_function "set" 1 (OverrideSet obj name));;
           assign_new getter (KStr "value") v;;
           freeze getter;;
           freeze setter;;
           toFreeze_add getter;;
           toFreeze_add setter;;
           defineProperty obj name (AccessorDesc (VRef getter) (VRef setter) e false)
       | AccessorDesc g s e _ =>
           defineProperty obj name (AccessorDesc g s e false)
       end.

Definition freezeWithOverride (obj : loc) : M unit :=
  descs <- getOwnPropertyDescriptors obj;;
  forEach (override_property obj) descs;;
  freeze obj.

(** *** [freezeAndTraverse] *)

Definition record_prototype (pr : option loc) (path : string) : M unit :=
  match pr with
  | None => ret tt
  | Some p =>
      known <- gets (fun st => prototypes_has p (prototypes st));;
      if known : bool then ret tt
      else modify (fun st => set_prototypes (prototypes st ++ [(p, path)]) st);;
           paths_set p (Some (path +:+ ".__proto__"))
  end.

Definition traverse_property (path : string) (nd : key * desc) : M unit :=
  let (name, d) := nd in
  let pathname := path +:+ "." +:+ String_ name in
  match d with
  | DataDesc v _ _ _ => enqueue v (Some pathname)
  | AccessorDesc g s _ _ =>
      enqueue g (Some (pathname +:+ "(get)"));;
      enqueue s (Some (pathname +:+ "(set)"))
  end.

Definition freezeAndTraverse (obj : loc) : M unit :=
  prepare obj;;
  freezeWithOverride obj;;
  pr <- getPrototypeOf obj;;
  descs <- getOwnPropertyDescriptors obj;;
  path <- gets (fun st => path_or_unknown (paths st !! obj));;
  record_prototype pr path;;
  forEach (traverse_property path) descs.

(** *** [dequeue]

    [toFreeze.forEach(freezeAndTraverse)] also visits the members added
    while it runs; no member is ever removed, so the iteration is a walk
    along the insertion order that ends when the index passes the end. *)
Fixpoint dequeue_from (fuel : nat) (i : nat) : M unit :=
  fun st =>
    match toFreeze st !! i with
    | None => (Ret tt, st)
    | Some obj =>
        match fuel with
        | 0 => (Diverge, st)
        | S fuel' => (freezeAndTraverse obj;; dequeue_from fuel' (S i)) st
        end
    end.

Definition dequeue (fuel : nat) : M unit := dequeue_from fuel 0.

(** *** [checkPrototypes]

    The two [console.log] attempts of the fallback branch are guarded by
    their own [try] and leave no trace in the state. *)
Definition prototype_message (p : loc) (path : string) : string :=
  match toStr p with
  | Some s => "prototype " +:+ s +:+ " of " +:+ path +:+ " is not already in the fringeSet"
  | None => "a prototype of something is not already in the fringeset (and .toString failed)"
  end.

Definition check_prototype (pp : loc * string) : M unit :=
  let (p, path) := pp in
  ok <- gets (fun st => bool_decide (p ∈ toFreeze st) || bool_decide (p ∈ fringeSet st));;
  if ok : bool then ret tt
  else raise (UnreachablePrototype (prototype_message p path)).

Definition checkPrototypes : M unit :=
  ps <- gets prototypes;;
  forEach check_prototype ps.

(** *** [commit] *)

Definition fringeSet_add (l : loc) : M unit :=
  modify (fun st => set_fringeSet ({[l]} ∪ fringeSet st) st).

Definition commit : M unit :=
  t <- gets toFreeze;;
  forEach fringeSet_add t.

(** *** [harden] *)

(** [new Set()], [new Map()], [new WeakMap()] at the start of a call. *)
Definition fresh_collections (st : state) : state :=
  set_toFreeze [] (set_prototypes [] (set_paths ∅ st)).

Definition harden (fuel : nat) (root : value) : M value :=
  modify fresh_collections;;
  enqueue root None;;
  dequeue fuel;;
  checkPrototypes;;
  commit;;
  ret root.

(** *** The accessor pair at work

    What an assignment [target.p = v] and a read [target.p] do on
    ordinary objects (OrdinarySet and OrdinaryGet of the language), with
    the two closures of [freezeWithOverride] run on the code of the
    source.  Functions the hardener did not create are run by the host. *)
Variable call_foreign : loc -> value -> list value -> heap -> (error + value) * heap.

(** The body of [set (newValue)]; [receiver] is the [this] of the call. *)
Definition override_set (obj : loc) (name : key) (receiver newValue : value) : M value :=
  if decide (receiver = VRef obj)
  then match template_key name, toStr obj with
       | Some n, Some o =>
           raise (ReadOnlyViolation
                    ("Cannot assign to read only property '" +:+ n +:+
                     "' of object '" +:+ o +:+ "'"))
       | _, _ => raise (HostError "Cannot convert to string")
       end
  else match receiver with
       | VRef r =>
           defineProperty r name (DataDesc newValue true true true);;
           ret (VPrim PUndefined)
       | VPrim _ => raise (HostError "Object.defineProperty called on non-object")
       end.

Definition call (f : loc) (this : value) (args : list value) : M value :=
  fun st =>
    match body <$> st_heap st !! f with
    | Some (OverrideGet v) => (Ret v, st)
    | Some (OverrideSet obj name) =>
        override_set obj name this (hd (VPrim PUndefined) args) st
    | _ =>
        match call_foreign f this args (st_heap st) with
        | (inl e, h) => (Raise e, set_heap h st)
        | (inr v, h) => (Ret v, set_heap h st)
        end
    end.

(** The data-property branch of OrdinarySet: the write lands on the
    receiver. *)
Definition set_on_receiver (p : key) (v : value) (receiver : value) : M bool :=
  match receiver with
  | VPrim _ => ret false
  | VRef r => fun st =>
      match lookup_prop p (props_at (st_heap st) r) with
      | Some (AccessorDesc _ _ _ _) => (Ret false, st)
      | Some (DataDesc _ w e c) =>
          if w then
            match define_at (st_heap st) r p (DataDesc v w e c) with
            | Some h => (Ret true, set_heap h st)
            | None => (Ret false, st)
            end
          else (Ret false, st)
      | None =>
          match define_at (st_heap st) r p (DataDesc v true true true) with
          | Some h => (Ret true, set_heap h st)
          | None => (Ret false, st)
          end
      end
  end.

Fixpoint OrdinarySet (fuel : nat) (o : loc) (p : key) (v : value) (receiver : value)
  : M bool :=
  match fuel with
  | 0 => fun st => (Diverge, st)
  | S fuel' =>
      own <- gets (fun st => lookup_prop p (props_at (st_heap st) o));;
      match own with
      | None =>
          parent <- gets (fun st => proto_at (st_heap st) o);;
          match parent with
          | Some par => OrdinarySet fuel' par p v receiver
          | None => set_on_receiver p v receiver
          end
      | Some (DataDesc _ w _ _) =>
          if w then set_on_receiver p v receiver else ret false
      | Some (AccessorDesc _ s _ _) =>
          match s with
          | VRef f => call f receiver [v];; ret true
          | VPrim _ => ret false
          end
      end
  end.

Fixpoint OrdinaryGet (fuel : nat) (o : loc) (p : key) (receiver : value) : M value :=
  match fuel with
  | 0 => fun st => (Diverge, st)
  | S fuel' =>
      own <- gets (fun st => lookup_prop p (props_at (st_heap st) o));;
      match own with
      | None =>
          parent <- gets (fun st => proto_at (st_heap st) o);;
          match parent with
          | Some par => OrdinaryGet fuel' par p receiver
          | None => ret (VPrim PUndefined)
          end
      | Some (DataDesc v _ _ _) => ret v
      | Some (AccessorDesc g _ _ _) =>
          match g with
          | VRef f => call f receiver []
          | VPrim _ => ret (VPrim PUndefined)
          end
      end
  end.

(** [target.p = v] in strict code, and [target.p]. *)
Definition assign (fuel : nat) (target : loc) (p : key) (v : value) : M unit :=
  ok <- OrdinarySet fuel target p v (VRef target);;
  if ok : bool then ret tt
  else raise (HostError "Cannot assign to read only property").

Definition read (fuel : nat) (target : loc) (p : key) : M value :=
  OrdinaryGet fuel target p (VRef target).

(** ** [makeHardener]

    [options.fringeSet], when given, is an object that may or may not have
    the methods [add] and [has]; when it has them they are those of a set
    of objects.  [None] stands for an absent option, which the test
    [if (fringeSet)] does not tell apart from any other falsy value.  The
    members of [initialFringe] are objects. *)
Record fringe_option := FringeOption {
  has_add : bool;
  has_has : bool;
  members : gset loc
}.

(** Which set object the returned [harden] closes over. *)
Inductive fringe_origin := Private | Supplied.

Definition makeHardener (initialFringe : list loc) (fringeSetOpt : option fringe_option)
  : error + (fringe_origin * gset loc) :=
  match fringeSetOpt with
  | Some fs =>
      if negb (has_add fs) || negb (has_has fs)
      then inl (ConfigError "options.fringeSet must have add() and has() methods")
      else inr (Supplied, foldl (fun acc fringe => {[fringe]} ∪ acc) (members fs) initialFringe)
  | None => inr (Private, list_to_set initialFringe)
  end.

(** The state in which the first call of a fresh hardener runs. *)
Definition initial_state (h : heap) (fringe : gset loc) : state :=
  State h fringe [] [] ∅ [].

(** ** Specification vocabulary *)

(** [Object.isFrozen] on an ordinary object: not extensible, and freezing
    its properties once more changes nothing. *)
Definition isFrozen (o : object) : Prop :=
  extensible o = false ∧ Forall (fun kd => freeze_desc kd.2 = kd.2) (props o).

Definition hardened (h : heap) (l : loc) : Prop :=
  ∃ o, h !! l = Some o ∧ isFrozen o.

Definition refs (vs : list value) : list loc :=
  omap (fun v => match v with VRef l => Some l | VPrim _ => None end) vs.

(** The objects held by the own properties of [o]: stored values and
    accessor functions. *)
Definition value_links (o : object) : list loc :=
  refs (props o ≫= fun kd => desc_values kd.2).

(** All outbound links of [o]: the prototype link as well. *)
Definition out_links (o : object) : list loc :=
  option_list (proto o) ++ value_links o.

Definition link (h : heap) (a b : loc) : Prop :=
  ∃ o, h !! a = Some o ∧ b ∈ out_links o.

(** The nodes reached from [root] along links that leave no member of
    [stop]; with [stop] empty, all nodes reachable from [root]. *)
Inductive reachable (h : heap) (stop : gset loc) (root : loc) : loc -> Prop :=
| reach_root : reachable h stop root root
| reach_link a b :
    reachable h stop root a -> a ∉ stop -> link h a b -> reachable h stop root b.

(** No object has a key twice. *)
Definition wf_object (o : object) : Prop := NoDup (props o).*1.

Definition wf_heap (h : heap) : Prop := Forall wf_object h.

(** What any JavaScript code leaves true of the heap: objects stay, keep
    their [typeof] and their code, and a frozen one no longer changes. *)
Definition heap_le (h h' : heap) : Prop :=
  ∀ l o, h !! l = Some o ->
    ∃ o', h' !! l = Some o' ∧ type_of o' = type_of o ∧ body o' = body o ∧
          (isFrozen o -> o' = o).

(** The number of configurable data properties, over the whole heap; each
    becomes two functions when its owner is hardened. *)
Definition is_cfg_data (d : desc) : bool :=
  match d with
  | DataDesc _ _ _ c => c
  | AccessorDesc _ _ _ _ => false
  end.

Definition cfg_data (o : object) : nat :=
  length (filter (fun kd => is_cfg_data kd.2 = true) (props o)).

Definition weight (h : heap) : nat :=
  length h + 2 * sum_list_with cfg_data h.

(** The effect of the loop of [freezeWithOverride] on the descriptors
    [ps] of [obj], the next free location being [n]: the descriptors it
    leaves, the functions it allocates, and the calls it makes. *)
Definition getter_object (v : value) : object :=
  let f := new_function "get" 0 (OverrideGet v) in
  freeze_object (with_props f (props f ++ [(KStr "value", DataDesc v true true true)])).

Definition setter_object (obj : loc) (name : key) : object :=
  freeze_object (new_function "set" 1 (OverrideSet obj name)).

Fixpoint override_descs (n : nat) (ps : list (key * desc)) : list (key * desc) :=
  match ps with
  | [] => []
  | (k, DataDesc v _ e true) :: ps' =>
      (k, AccessorDesc (VRef n) (VRef (S n)) e false) :: override_descs (S (S n)) ps'
  | (k, AccessorDesc g s e true) :: ps' =>
      (k, AccessorDesc g s e false) :: override_descs n ps'
  | kd :: ps' => kd :: override_descs n ps'
  end.

Fixpoint override_allocs (obj : loc) (ps : list (key * desc)) : list object :=
  match ps with
  | [] => []
  | (k, DataDesc v _ e true) :: ps' =>
      getter_object v :: setter_object obj k :: override_allocs obj ps'
  | _ :: ps' => override_allocs obj ps'
  end.

Fixpoint override_events (obj : loc) (n : nat) (ps : list (key * desc)) : list event :=
  match ps with
  | [] => []
  | (k, DataDesc v _ e true) :: ps' =>
      [EvAssign n (KStr "value"); EvFreeze n; EvFreeze (S n); EvDefineProperty obj k]
      ++ override_events obj (S (S n)) ps'
  | (k, AccessorDesc g s e true) :: ps' =>
      EvDefineProperty obj k :: override_events obj n ps'
  | _ :: ps' => override_events obj n ps'
  end.

(** The conditions on the prepare hook under which the walk is bounded: it
    is JavaScript code, keeps the heap well formed, and does not grow the
    graph. *)
Definition hook_ok (hook : option (loc -> heap -> option error * heap)) : Prop :=
  ∀ f obj h r h', hook = Some f -> f obj h = (r, h') ->
    heap_le h h' ∧ (wf_heap h -> wf_heap h').

Definition hook_bounded (hook : option (loc -> heap -> option error * heap)) : Prop :=
  ∀ f obj h r h', hook = Some f -> f obj h = (r, h') -> weight h' ≤ weight h.

(** Up to the commit, a call leaves the fringe alone and only appends to
    its collections and to the log. *)
Definition ctl_le (st st' : state) : Prop :=
  fringeSet st' = fringeSet st ∧
  toFreeze st `prefix_of` toFreeze st' ∧
  prototypes st `prefix_of` prototypes st' ∧
  st_log st `prefix_of` st_log st'.

(** ** Generic facts about computations *)

Definition stable (R : state -> state -> Prop) {A} (c : M A) : Prop :=
  ∀ st, R st (c st).2.

Lemma stable_ret R `{!Reflexive R} {A} (a : A) : stable R (ret a).
Proof. intros st. reflexivity. Qed.

Lemma stable_raise R `{!Reflexive R} {A} e : stable R (raise (A := A) e).
Proof. intros st. reflexivity. Qed.

Lemma stable_gets R `{!Reflexive R} {A} (f : state -> A) : stable R (gets f).
Proof. intros st. reflexivity. Qed.

Lemma stable_bind R `{!Transitive R} {A B} (c : M A) (f : A -> M B) :
  stable R c -> (∀ a, stable R (f a)) -> stable R (bind c f).
Proof.
  intros Hc Hf st. unfold bind. specialize (Hc st).
  destruct (c st) as [[a|e|] st1]; simpl in *; try assumption.
  etransitivity; [exact Hc | apply Hf].
Qed.

Lemma stable_forEach R `{!PreOrder R} {A} (f : A -> M unit) xs :
  (∀ x, stable R (f x)) -> stable R (forEach f xs).
Proof.
  intros Hf. induction xs as [|x xs IH]; simpl.
  - apply stable_ret; apply _.
  - apply stable_bind; [apply _ | apply Hf | intros _; exact IH].
Qed.

#[global] Instance ctl_le_preorder : PreOrder ctl_le.
Proof.
  split.
  - intros st. repeat split; reflexivity.
  - intros a b c (F1 & T1 & P1 & L1) (F2 & T2 & P2 & L2).
    repeat split; [congruence | | |]; etransitivity; eassumption.
Qed.

#[global] Instance heap_le_preorder : PreOrder heap_le.
Proof.
  split.
  - intros h l o Hl. exists o. auto.
  - intros a b c Hab Hbc l o Hl.
    destruct (Hab l o Hl) as (o1 & H1 & Ht1 & Hb1 & Hf1).
    destruct (Hbc l o1 H1) as (o2 & H2 & Ht2 & Hb2 & Hf2).
    exists o2. repeat split; [assumption | congruence | congruence |].
    intros Hfr. specialize (Hf1 Hfr). subst o1. auto.
Qed.

(** ** Control state: what a call may touch before it commits *)

Create HintDb ctl.

Ltac ctl_step :=
  intros st; cbv [modify gets ret raise emit set_heap set_toFreeze set_paths
                  set_prototypes];
  repeat case_match; simpl; repeat split; simpl;
  try reflexivity; try (apply prefix_app_r; reflexivity).

Lemma ctl_toFreeze_add l : stable ctl_le (toFreeze_add l).
Proof. unfold toFreeze_add. ctl_step. Qed.

Lemma ctl_paths_set l p : stable ctl_le (paths_set l p).
Proof. unfold paths_set. ctl_step. Qed.

Lemma ctl_freeze l : stable ctl_le (freeze l).
Proof. unfold freeze. ctl_step. Qed.

Lemma ctl_defineProperty l k d : stable ctl_le (defineProperty l k d).
Proof. unfold defineProperty. ctl_step. Qed.

Lemma ctl_assign_new l k v : stable ctl_le (assign_new l k v).
Proof. unfold assign_new. ctl_step. Qed.

Lemma ctl_alloc o : stable ctl_le (alloc o).
Proof. unfold alloc. ctl_step. Qed.

Lemma ctl_getOwnPropertyDescriptors l : stable ctl_le (getOwnPropertyDescriptors l).
Proof. unfold getOwnPropertyDescriptors. ctl_step. Qed.

Lemma ctl_getPrototypeOf l : stable ctl_le (getPrototypeOf l).
Proof. unfold getPrototypeOf. ctl_step. Qed.

Lemma ctl_prepare l : stable ctl_le (prepare l).
Proof. unfold prepare. destruct naivePrepareObject; ctl_step. Qed.

#[local] Hint Resolve ctl_toFreeze_add ctl_paths_set ctl_freeze ctl_defineProperty
  ctl_assign_new ctl_alloc ctl_getOwnPropertyDescriptors ctl_getPrototypeOf
  ctl_prepare : ctl.

Ltac ctl_auto :=
  repeat first
    [ apply stable_ret; apply _
    | apply stable_raise; apply _
    | apply stable_gets; apply _
    | apply stable_bind; [apply _ | | intros ?]
    | apply stable_forEach; [apply _ | intros ?]
    | solve [auto with ctl]
    | match goal with |- stable _ (if ?b then _ else _) => destruct b end
    | match goal with |- stable _ (match ?x with _ => _ end) => destruct x end ].

Lemma ctl_enqueue v p : stable ctl_le (enqueue v p).
Proof. unfold enqueue. ctl_auto. Qed.
#[local] Hint Resolve ctl_enqueue : ctl.

Lemma ctl_override_property obj nd :
  stable ctl_le (override_property obj nd).
Proof. unfold override_property. ctl_auto. Qed.
#[local] Hint Resolve ctl_override_property : ctl.

Lemma ctl_freezeWithOverride obj : stable ctl_le (freezeWithOverride obj).
Proof. unfold freezeWithOverride. ctl_auto. Qed.
#[local] Hint Resolve ctl_freezeWithOverride : ctl.

Lemma ctl_record_prototype pr path : stable ctl_le (record_prototype pr path).
Proof.
  unfold record_prototype. destruct pr; ctl_auto.
  unfold modify. intros st. repeat split; simpl; try reflexivity.
  apply prefix_app_r. reflexivity.
Qed.
#[local] Hint Resolve ctl_record_prototype : ctl.

Lemma ctl_traverse_property path nd : stable ctl_le (traverse_property path nd).
Proof. unfold traverse_property. ctl_auto. Qed.
#[local] Hint Resolve ctl_traverse_property : ctl.

Lemma ctl_freezeAndTraverse obj : stable ctl_le (freezeAndTraverse obj).
Proof. unfold freezeAndTraverse. ctl_auto. Qed.
#[local] Hint Resolve ctl_freezeAndTraverse : ctl.

Lemma ctl_dequeue_from fuel : ∀ i, stable ctl_le (dequeue_from fuel i).
Proof.
  induction fuel as [|fuel IH]; intros i st; simpl;
    destruct (toFreeze st !! i); try reflexivity.
  apply (stable_bind ctl_le); [apply ctl_freezeAndTraverse | intros _; apply IH].
Qed.

Lemma ctl_checkPrototypes : stable ctl_le checkPrototypes.
Proof. unfold checkPrototypes, check_prototype. ctl_auto. Qed.

(** ** The consistency checker *)

Definition unprocessed (st : state) (pp : loc * string) : Prop :=
  (fst pp ∉ toFreeze st) ∧ (fst pp ∉ fringeSet st).

#[local] Instance unprocessed_dec st pp : Decision (unprocessed st pp).
Proof. unfold unprocessed. apply _. Defined.

Lemma check_prototype_ok st pp :
  ¬ unprocessed st pp -> check_prototype pp st = (Ret tt, st).
Proof.
  destruct pp as [p path]. unfold unprocessed, check_prototype, bind, gets; simpl.
  intros Hn.
  destruct (decide (p ∈ toFreeze st)) as [Ht|Ht].
  - rewrite (bool_decide_eq_true_2 _ Ht). reflexivity.
  - destruct (decide (p ∈ fringeSet st)) as [Hf|Hf].
    + rewrite (bool_decide_eq_true_2 _ Hf), orb_true_r. reflexivity.
    + exfalso. apply Hn. split; assumption.
Qed.

Lemma check_prototype_bad st p path :
  unprocessed st (p, path) ->
  check_prototype (p, path) st =
    (Raise (UnreachablePrototype (prototype_message p path)), st).
Proof.
  unfold unprocessed, check_prototype, bind, gets; simpl. intros [Ht Hf].
  rewrite (bool_decide_eq_false_2 _ Ht), (bool_decide_eq_false_2 _ Hf).
  reflexivity.
Qed.

Lemma forEach_check_prototype st ps :
  forEach check_prototype ps st =
    match filter (unprocessed st) ps with
    | [] => (Ret tt, st)
    | (p, path) :: _ => (Raise (UnreachablePrototype (prototype_message p path)), st)
    end.
Proof.
  induction ps as [|[p path] ps IH]; [reflexivity|].
  cbn [forEach]. unfold bind at 1. rewrite filter_cons.
  destruct (decide (unprocessed st (p, path))) as [Hb|Hb].
  - rewrite (check_prototype_bad _ _ _ Hb). reflexivity.
  - rewrite (check_prototype_ok _ _ Hb). exact IH.
Qed.

Lemma checkPrototypes_filter st :
  checkPrototypes st =
    match filter (unprocessed st) (prototypes st) with
    | [] => (Ret tt, st)
    | (p, path) :: _ => (Raise (UnreachablePrototype (prototype_message p path)), st)
    end.
Proof. apply (forEach_check_prototype st (prototypes st)). Qed.

Lemma checkPrototypes_state st : (checkPrototypes st).2 = st.
Proof.
  rewrite checkPrototypes_filter.
  destruct (filter (unprocessed st) (prototypes st)) as [|[p path] rest]; reflexivity.
Qed.

Lemma checkPrototypes_Ret_known st p path :
  (checkPrototypes st).1 = Ret tt -> (p, path) ∈ prototypes st ->
  p ∈ fringeSet st ∨ p ∈ toFreeze st.
Proof.
  rewrite checkPrototypes_filter. intros Hret Hin.
  destruct (decide (p ∈ fringeSet st)) as [|Hnf]; [left; assumption|].
  destruct (decide (p ∈ toFreeze st)) as [|Hnt]; [right; assumption|].
  exfalso.
  assert (Hf : (p, path) ∈ filter (unprocessed st) (prototypes st)).
  { apply list_elem_of_filter. split; [split; assumption | exact Hin]. }
  destruct (filter (unprocessed st) (prototypes st)) as [|[p' path'] rest];
    [inversion Hf | discriminate].
Qed.

Lemma checkPrototypes_unprocessed st p path :
  (p, path) ∈ prototypes st -> p ∉ toFreeze st -> p ∉ fringeSet st ->
  ∃ msg, checkPrototypes st = (Raise (UnreachablePrototype msg), st).
Proof.
  intros Hin Ht Hf. rewrite checkPrototypes_filter.
  assert (Hb : (p, path) ∈ filter (unprocessed st) (prototypes st)).
  { apply list_elem_of_filter. split; [split; assumption | exact Hin]. }
  destruct (filter (unprocessed st) (prototypes st)) as [|[p' path'] rest];
    [inversion Hb | eauto].
Qed.

(** C4. [checkPrototypes] throws exactly when some prototype of the
    registry is in neither [toFreeze] nor the fringe set; what it throws is
    an UnreachablePrototype error for the first such prototype, whose
    message holds the prototype's string form and the path recorded with
    it, or is the fixed fallback text when the prototype has no string
    form; it changes nothing and otherwise returns. *)
Theorem checkPrototypes_throws_iff_unprocessed st :
  ((∃ e, (checkPrototypes st).1 = Raise e) ↔
   (∃ p path, (p, path) ∈ prototypes st ∧ (p ∉ toFreeze st) ∧ (p ∉ fringeSet st))) ∧
  (∀ e, (checkPrototypes st).1 = Raise e ->
     ∃ p path, (p, path) ∈ prototypes st ∧ (p ∉ toFreeze st) ∧ (p ∉ fringeSet st) ∧
       e = UnreachablePrototype (prototype_message p path) ∧
       (∀ s, toStr p = Some s ->
          prototype_message p path =
            "prototype " +:+ s +:+ " of " +:+ path +:+ " is not already in the fringeSet") ∧
       (toStr p = None ->
          prototype_message p path =
            "a prototype of something is not already in the fringeset (and .toString failed)")) ∧
  (checkPrototypes st).2 = st ∧
  (checkPrototypes st).1 ≠ Diverge ∧
  ((checkPrototypes st).1 = Ret tt ∨ ∃ e, (checkPrototypes st).1 = Raise e).
Proof.
  rewrite checkPrototypes_filter.
  destruct (filter (unprocessed st) (prototypes st)) as [|[p path] rest] eqn:Hbad; simpl.
  - assert (Hnone : ∀ p path, (p, path) ∈ prototypes st ->
                      ¬ ((p ∉ toFreeze st) ∧ (p ∉ fringeSet st))).
    { intros p path Hin Hun.
      assert (Hf : (p, path) ∈ filter (unprocessed st) (prototypes st))
        by (apply list_elem_of_filter; split; [exact Hun | exact Hin]).
      rewrite Hbad in Hf. inversion Hf. }
    repeat split; try discriminate; auto.
    + intros [e He]. discriminate.
    + intros (p & path & Hin & Ht & Hf). exfalso. eapply Hnone; eauto.
  - assert (Hin : (p, path) ∈ filter (unprocessed st) (prototypes st))
      by (rewrite Hbad; left).
    apply list_elem_of_filter in Hin as [[Ht Hf] Hin]. simpl in Ht, Hf.
    repeat split; try discriminate; eauto 10.
    intros e [= <-]. exists p, path. repeat split; auto.
    + intros s Hs. unfold prototype_message. rewrite Hs. reflexivity.
    + intros Hs. unfold prototype_message. rewrite Hs. reflexivity.
Qed.


(** ** Construction *)

Lemma merge_initialFringe (init : list loc) (s : gset loc) :
  foldl (fun acc fringe => {[fringe]} ∪ acc) s init = s ∪ list_to_set init.
Proof.
  revert s. induction init as [|x init IH]; intros s; simpl.
  - symmetry. apply (right_id_L ∅ (∪)).
  - rewrite IH, (comm_L (∪) {[x]} s), <- (assoc_L (∪)). reflexivity.
Qed.

(** C5. [makeHardener] throws the ConfigError when the supplied fringe set
    lacks [add], [has] or both; given a set with both, it adds every member
    of [initialFringe] to that very set and uses it, and creates no set of
    its own. *)
Theorem makeHardener_supplied_fringeSet (initialFringe : list loc) (fs : fringe_option) :
  (has_add fs = false ∨ has_has fs = false ->
   makeHardener initialFringe (Some fs) =
     inl (ConfigError "options.fringeSet must have add() and has() methods")) ∧
  (has_add fs = true ∧ has_has fs = true ->
   makeHardener initialFringe (Some fs) =
     inr (Supplied, members fs ∪ list_to_set initialFringe)).
Proof.
  unfold makeHardener. split.
  - intros [-> | ->]; [reflexivity | rewrite orb_true_r; reflexivity].
  - intros [-> ->]. simpl. rewrite merge_initialFringe. reflexivity.
Qed.

(** ** Heap evolution *)

Definition heap_step (st st' : state) : Prop := heap_le (st_heap st) (st_heap st').

#[local] Instance heap_step_preorder : PreOrder heap_step.
Proof.
  split.
  - intros st. unfold heap_step. reflexivity.
  - intros a b c. unfold heap_step. apply transitivity.
Qed.

Lemma isFrozen_freeze_object o : isFrozen (freeze_object o).
Proof.
  split; [reflexivity|]. simpl. apply Forall_fmap, Forall_forall.
  intros [k d] _. simpl. destruct d; reflexivity.
Qed.

Lemma freeze_object_frozen o : isFrozen o -> freeze_object o = o.
Proof.
  destruct o as [ty pr ext ps b]. intros [Hext Hps]. simpl in *. subst ext.
  unfold freeze_object; simpl. f_equal.
  induction Hps as [|[k d] ps Hd _ IH]; [reflexivity|].
  simpl in *. rewrite Hd, IH. reflexivity.
Qed.

Lemma heap_le_insert h l o o' :
  h !! l = Some o -> type_of o' = type_of o -> body o' = body o ->
  (isFrozen o -> o' = o) -> heap_le h (<[l := o']> h).
Proof.
  intros Hl Ht Hb Hf l1 o1 Hl1. destruct (decide (l1 = l)) as [->|Hne].
  - rewrite Hl in Hl1. injection Hl1 as <-. exists o'.
    rewrite list_lookup_insert_eq by (eapply lookup_lt_Some; eauto). auto.
  - exists o1. rewrite list_lookup_insert_ne by auto. auto.
Qed.

Lemma heap_le_app h h' : heap_le h (h ++ h').
Proof.
  intros l o Hl. exists o. rewrite lookup_app_l by (eapply lookup_lt_Some; eauto).
  auto.
Qed.

Lemma heap_le_freeze_at h l : heap_le h (freeze_at h l).
Proof.
  unfold freeze_at. destruct (h !! l) as [o|] eqn:Hl; [|reflexivity].
  eapply heap_le_insert; eauto. apply freeze_object_frozen.
Qed.

Lemma lookup_prop_elem k d ps : lookup_prop k ps = Some d -> (k, d) ∈ ps.
Proof.
  induction ps as [|[k' d'] ps IH]; simpl; [discriminate|].
  destruct (decide (k = k')) as [->|Hne].
  - intros [= ->]. left.
  - intros H. right. auto.
Qed.

Lemma lookup_prop_None k ps : lookup_prop k ps = None ↔ k ∉ ps.*1.
Proof.
  clear toStr call_foreign FunctionPrototype.
  induction ps as [|[k' d'] ps IH]; simpl.
  - split; [intros _ H; inversion H | reflexivity].
  - destruct (decide (k = k')) as [->|Hne].
    + split; [discriminate | intros H; exfalso; apply H; left].
    + rewrite IH. rewrite not_elem_of_cons. tauto.
Qed.

Lemma replace_prop_same k d ps : lookup_prop k ps = Some d -> replace_prop k d ps = ps.
Proof.
  induction ps as [|[k' d'] ps IH]; simpl; [reflexivity|].
  destruct (decide (k = k')) as [->|Hne].
  - intros [= ->]. reflexivity.
  - intros H. rewrite IH by exact H. reflexivity.
Qed.

Lemma compatible_frozen cur d :
  freeze_desc cur = cur -> compatible cur d = true -> d = cur.
Proof.
  unfold compatible.
  destruct cur as [v w e c|g s e c], d as [v' w' e' c'|g' s' e' c']; simpl;
    intros Hfz H; inversion Hfz; subst; simpl in H;
    rewrite ?andb_true_iff, ?negb_true_iff, ?bool_decide_eq_true in H;
    destruct_and?; simplify_eq/=; reflexivity.
Qed.

Lemma define_own_frozen o k d o' :
  isFrozen o -> define_own o k d = Some o' -> o' = o.
Proof.
  intros [Hext Hps]. unfold define_own.
  destruct (lookup_prop k (props o)) as [cur|] eqn:Hk.
  - assert (Hcur : freeze_desc cur = cur).
    { apply lookup_prop_elem in Hk. rewrite Forall_forall in Hps.
      apply (Hps _ Hk). }
    assert (Hc : configurable cur = false)
      by (rewrite <- Hcur; destruct cur; reflexivity).
    rewrite Hc. simpl. destruct (compatible cur d) eqn:Hcomp; [|discriminate].
    intros [= <-]. rewrite (compatible_frozen _ _ Hcur Hcomp).
    rewrite (replace_prop_same _ _ _ Hk). destruct o; reflexivity.
  - rewrite Hext. discriminate.
Qed.

Lemma define_own_same o k d o' :
  define_own o k d = Some o' ->
  type_of o' = type_of o ∧ body o' = body o ∧ proto o' = proto o ∧
  extensible o' = extensible o.
Proof.
  unfold define_own. repeat case_match; intros [= <-]; auto.
Qed.

Lemma heap_le_define_at h l k d h' : define_at h l k d = Some h' -> heap_le h h'.
Proof.
  unfold define_at. destruct (h !! l) as [o|] eqn:Hl; [|discriminate].
  destruct (define_own o k d) as [o'|] eqn:Hd; [|discriminate].
  intros [= <-]. destruct (define_own_same _ _ _ _ Hd) as (Ht & Hb & _).
  eapply heap_le_insert; eauto. intros Hf. eapply define_own_frozen; eauto.
Qed.

(** From here on the prepare hook is JavaScript code. *)
Hypothesis hook_js : hook_ok naivePrepareObject.

Create HintDb hp.

Ltac heap_same := intros st; unfold heap_step; simpl; reflexivity.

Lemma hp_toFreeze_add l : stable heap_step (toFreeze_add l).
Proof. intros st. unfold toFreeze_add, modify, heap_step. simpl. case_match; reflexivity. Qed.

Lemma hp_paths_set l p : stable heap_step (paths_set l p).
Proof. heap_same. Qed.

Lemma hp_getOwnPropertyDescriptors l : stable heap_step (getOwnPropertyDescriptors l).
Proof. heap_same. Qed.

Lemma hp_getPrototypeOf l : stable heap_step (getPrototypeOf l).
Proof. heap_same. Qed.

Lemma hp_freeze l : stable heap_step (freeze l).
Proof. intros st. unfold heap_step. simpl. apply heap_le_freeze_at. Qed.

Lemma hp_defineProperty l k d : stable heap_step (defineProperty l k d).
Proof.
  intros st. unfold heap_step, defineProperty.
  destruct (define_at (st_heap st) l k d) eqn:Hd; simpl; [|reflexivity].
  eapply heap_le_define_at; eauto.
Qed.

Lemma hp_assign_new l k v : stable heap_step (assign_new l k v).
Proof.
  intros st. unfold heap_step, assign_new.
  destruct (define_at (st_heap st) l k _) eqn:Hd; simpl; [|reflexivity].
  eapply heap_le_define_at; eauto.
Qed.

Lemma hp_alloc o : stable heap_step (alloc o).
Proof. intros st. unfold heap_step. simpl. apply heap_le_app. Qed.

Lemma hp_prepare l : stable heap_step (prepare l).
Proof using hook_js.
  intros st. unfold heap_step, prepare.
  destruct naivePrepareObject as [f|] eqn:Hf; [|reflexivity].
  destruct (f l (st_heap st)) as [[e|] h] eqn:Hrun; simpl;
    eapply hook_js; eauto.
Qed.

#[local] Hint Resolve hp_toFreeze_add hp_paths_set hp_getOwnPropertyDescriptors
  hp_getPrototypeOf hp_freeze hp_defineProperty hp_assign_new hp_alloc hp_prepare : hp.

Ltac stable_auto tac :=
  repeat first
    [ solve [tac]
    | apply stable_ret; apply _
    | apply stable_raise; apply _
    | apply stable_gets; apply _
    | apply stable_bind; [apply _ | | intros ?]
    | apply stable_forEach; [apply _ | intros ?]
    | match goal with |- stable _ (if ?b then _ else _) => destruct b end
    | match goal with |- stable _ (match ?x with _ => _ end) => destruct x end ].

Lemma hp_enqueue v p : stable heap_step (enqueue v p).
Proof. unfold enqueue. stable_auto ltac:(auto with hp). Qed.
#[local] Hint Resolve hp_enqueue : hp.

Lemma hp_override_property obj nd : stable heap_step (override_property obj nd).
Proof. unfold override_property. stable_auto ltac:(auto with hp). Qed.
#[local] Hint Resolve hp_override_property : hp.

Lemma hp_freezeWithOverride obj : stable heap_step (freezeWithOverride obj).
Proof. unfold freezeWithOverride. stable_auto ltac:(auto with hp). Qed.
#[local] Hint Resolve hp_freezeWithOverride : hp.

Lemma hp_record_prototype pr path : stable heap_step (record_prototype pr path).
Proof. unfold record_prototype. destruct pr; stable_auto ltac:(auto with hp). heap_same. Qed.
#[local] Hint Resolve hp_record_prototype : hp.

Lemma hp_traverse_property path nd : stable heap_step (traverse_property path nd).
Proof. unfold traverse_property. stable_auto ltac:(auto with hp). Qed.
#[local] Hint Resolve hp_traverse_property : hp.

Lemma hp_freezeAndTraverse obj : stable heap_step (freezeAndTraverse obj).
Proof using hook_js. unfold freezeAndTraverse. stable_auto ltac:(auto with hp). Qed.

Lemma hp_dequeue_from fuel : ∀ i, stable heap_step (dequeue_from fuel i).
Proof using hook_js.
  induction fuel as [|fuel IH]; intros i st; simpl;
    destruct (toFreeze st !! i); try reflexivity.
  apply (stable_bind heap_step); [apply hp_freezeAndTraverse | intros _; apply IH].
Qed.

Lemma hp_checkPrototypes : stable heap_step checkPrototypes.
Proof. unfold checkPrototypes, check_prototype. stable_auto ltac:(auto with hp). Qed.

Lemma hp_commit : stable heap_step commit.
Proof.
  unfold commit. stable_auto ltac:(auto with hp). unfold fringeSet_add. heap_same.
Qed.

#[local] Hint Resolve hp_freezeAndTraverse hp_dequeue_from hp_checkPrototypes
  hp_commit : hp.

Lemma hp_harden fuel root : stable heap_step (harden fuel root).
Proof using hook_js.
  unfold harden, dequeue. stable_auto ltac:(auto with hp). heap_same.
Qed.

(** ** Running a call step by step *)

Lemma bind_Ret {A B} (c : M A) (f : A -> M B) st b st' :
  bind c f st = (Ret b, st') ->
  ∃ a st1, c st = (Ret a, st1) ∧ f a st1 = (Ret b, st').
Proof.
  unfold bind. destruct (c st) as [[a|e|] st1]; try discriminate. eauto.
Qed.

Lemma bind_run {A B} (c : M A) (f : A -> M B) st a st1 :
  c st = (Ret a, st1) -> bind c f st = f a st1.
Proof. unfold bind. intros ->. reflexivity. Qed.

Lemma forEach_fringeSet_add t st :
  forEach fringeSet_add t st =
    (Ret tt, match t with
             | [] => st
             | _ => set_fringeSet (list_to_set t ∪ fringeSet st) st
             end).
Proof.
  try clear hook_fixed; try clear hook_js; clear toStr naivePrepareObject call_foreign.
  revert st. induction t as [|l t IH]; intros st; [reflexivity|].
  cbn [forEach]. unfold bind. simpl. rewrite IH.
  destruct t as [|l' t]; f_equal; simpl.
  - unfold set_fringeSet; simpl. f_equal. set_solver.
  - unfold set_fringeSet; simpl. f_equal. set_solver.
Qed.

Lemma commit_run st :
  commit st =
    (Ret tt, match toFreeze st with
             | [] => st
             | t => set_fringeSet (list_to_set t ∪ fringeSet st) st
             end).
Proof.
  unfold commit, bind, gets. simpl. rewrite forEach_fringeSet_add.
  destruct (toFreeze st); reflexivity.
Qed.

Lemma commit_fringeSet st :
  fringeSet (commit st).2 = list_to_set (toFreeze st) ∪ fringeSet st.
Proof.
  try clear hook_fixed; try clear hook_js; clear toStr naivePrepareObject call_foreign.
  rewrite commit_run. simpl. destruct (toFreeze st); simpl; [set_solver | reflexivity].
Qed.

Lemma dequeue_from_done fuel i st :
  toFreeze st !! i = None -> dequeue_from fuel i st = (Ret tt, st).
Proof. intros H. destruct fuel; simpl; rewrite H; reflexivity. Qed.

(** A successful call, cut at its five steps. *)
Lemma harden_Ret fuel root st r st' :
  harden fuel root st = (Ret r, st') ->
  ∃ st1 st2,
    enqueue root None (fresh_collections st) = (Ret tt, st1) ∧
    dequeue fuel st1 = (Ret tt, st2) ∧
    checkPrototypes st2 = (Ret tt, st2) ∧
    st' = (commit st2).2 ∧ r = root.
Proof.
  unfold harden. intros H.
  apply bind_Ret in H as ([] & s0 & H0 & H). injection H0 as <-.
  apply bind_Ret in H as ([] & st1 & H1 & H).
  apply bind_Ret in H as ([] & st2 & H2 & H).
  apply bind_Ret in H as ([] & st3 & H3 & H).
  apply bind_Ret in H as ([] & st4 & H4 & H).
  injection H as <- <-.
  assert (st3 = st2) as ->.
  { pose proof (checkPrototypes_state st2) as Hs.
    rewrite H3 in Hs. exact Hs. }
  exists st1, st2. rewrite H4. auto.
Qed.

(** What [enqueue] leaves behind when it returns. *)
Lemma enqueue_ref_Ret l path st st' :
  enqueue (VRef l) path st = (Ret tt, st') ->
  (typeof (st_heap st) l = "object" ∨ typeof (st_heap st) l = "function") ∧
  (l ∈ fringeSet st' ∨ l ∈ toFreeze st') ∧
  st_heap st' = st_heap st ∧ prototypes st' = prototypes st.
Proof.
  try clear hook_fixed; try clear hook_js; clear toStr naivePrepareObject call_foreign.
  unfold enqueue, bind, gets, raise, ret. simpl.
  destruct (decide (typeof (st_heap st) l = "object")) as [Ho|Ho];
    [rewrite (bool_decide_eq_true_2 _ Ho) | rewrite (bool_decide_eq_false_2 _ Ho)];
    (destruct (decide (typeof (st_heap st) l = "function")) as [Hf|Hf];
     [rewrite (bool_decide_eq_true_2 _ Hf) | rewrite (bool_decide_eq_false_2 _ Hf)]);
    simpl; try discriminate.
  all: destruct (decide (l ∈ fringeSet st)) as [Hfr|Hfr];
    [rewrite (bool_decide_eq_true_2 _ Hfr) | rewrite (bool_decide_eq_false_2 _ Hfr)];
    simpl; [intros [= <-]; auto |].
  all: destruct (decide (l ∈ toFreeze st)) as [Ht|Ht];
    [rewrite (bool_decide_eq_true_2 _ Ht) | rewrite (bool_decide_eq_false_2 _ Ht)];
    simpl; [intros [= <-]; auto |].
  all: unfold toFreeze_add, paths_set, modify; simpl;
    rewrite (decide_False (P := l ∈ toFreeze st)) by assumption; simpl;
    intros [= <-]; simpl; repeat split; auto; right; set_solver.
Qed.

Lemma enqueue_seen l path st :
  (typeof (st_heap st) l = "object" ∨ typeof (st_heap st) l = "function") ->
  l ∈ fringeSet st -> enqueue (VRef l) path st = (Ret tt, st).
Proof.
  intros Hty Hfr. unfold enqueue, bind, gets, ret. simpl.
  destruct Hty as [-> | ->]; simpl;
    rewrite (bool_decide_eq_true_2 _ Hfr); reflexivity.
Qed.

Lemma typeof_heap_le h h' l :
  heap_le h h' ->
  typeof h l = "object" ∨ typeof h l = "function" ->
  typeof h' l = typeof h l.
Proof.
  unfold typeof. intros Hle Hty. destruct (h !! l) as [o|] eqn:Hl.
  - destruct (Hle l o Hl) as (o' & -> & Ht & _). exact Ht.
  - destruct Hty; discriminate.
Qed.

(** A call that returns has put its root, when it is an object, into the
    fringe set. *)
Lemma harden_Ret_root fuel l st r st' :
  harden fuel (VRef l) st = (Ret r, st') ->
  l ∈ fringeSet st' ∧
  (typeof (st_heap st') l = "object" ∨ typeof (st_heap st') l = "function").
Proof using hook_js.
  clear call_foreign.
  intros Hrun.
  pose proof (hp_harden fuel (VRef l) st) as Hle. rewrite Hrun in Hle.
  unfold heap_step in Hle. simpl in Hle.
  apply harden_Ret in Hrun as (st1 & st2 & He & Hd & _ & -> & _).
  apply enqueue_ref_Ret in He as (Hty & Hin & _).
  pose proof (ctl_dequeue_from fuel 0 st1) as (Hf & Ht & _).
  unfold dequeue in Hd. rewrite Hd in Hf, Ht. simpl in Hf, Ht.
  split.
  - rewrite commit_fringeSet. destruct Hin as [Hin|Hin].
    + rewrite Hf. set_solver.
    + apply elem_of_union_l, elem_of_list_to_set.
      destruct Ht as [k ->]. set_solver.
  - simpl in Hty. rewrite (typeof_heap_le _ _ _ Hle Hty). exact Hty.
Qed.

(** C6. After a call of [harden] on [root] has returned, every further
    call on [root] returns [root], for any fuel, and leaves the heap, the
    fringe set and the log of host calls as they were: its [toFreeze] stays
    empty, no node is visited. *)
Theorem harden_again_is_noop fuel root st r st1 :
  harden fuel root st = (Ret r, st1) ->
  r = root ∧
  ∀ fuel', ∃ st2,
    harden fuel' root st1 = (Ret root, st2) ∧
    st_heap st2 = st_heap st1 ∧ fringeSet st2 = fringeSet st1 ∧
    st_log st2 = st_log st1 ∧ toFreeze st2 = [].
Proof using hook_js.
  intros Hrun. split.
  { apply harden_Ret in Hrun as (_ & _ & _ & _ & _ & _ & ->). reflexivity. }
  intros fuel'. exists (fresh_collections st1).
  split; [|auto].
  assert (He : enqueue root None (fresh_collections st1) = (Ret tt, fresh_collections st1)).
  { destruct root as [p|l]; [reflexivity|].
    apply harden_Ret_root in Hrun as [Hin Hty].
    apply enqueue_seen; assumption. }
  unfold harden, modify, bind at 1. rewrite (bind_run _ _ _ _ _ He).
  unfold dequeue.
  rewrite (bind_run _ _ _ _ _
             (dequeue_from_done fuel' 0 (fresh_collections st1) eq_refl)).
  reflexivity.
Qed.

(** ** Atomicity with respect to the fringe set *)

Lemma bind_inv {A B} (c : M A) (f : A -> M B) st r st' :
  bind c f st = (r, st') ->
  (∃ a st1, c st = (Ret a, st1) ∧ f a st1 = (r, st')) ∨
  (∃ e, c st = (Raise e, st') ∧ r = Raise e) ∨
  (c st = (Diverge, st') ∧ r = Diverge).
Proof.
  unfold bind. destruct (c st) as [[a|e|] st1]; intros H.
  - left. eauto.
  - injection H as <- <-. right. left. eauto.
  - injection H as <- <-. right. right. eauto.
Qed.

Lemma harden_keeps_fringeSet_unless_Ret fuel root st r st' :
  harden fuel root st = (r, st') ->
  (∀ v, r ≠ Ret v) ->
  fringeSet st' = fringeSet st.
Proof.
  unfold harden. intros H Hr.
  apply bind_inv in H as [([] & s0 & H0 & H) | [(e & H & _) | [H _]]];
    try discriminate.
  injection H0 as <-.
  pose proof (ctl_enqueue root None (fresh_collections st)) as (F1 & _).
  apply bind_inv in H as [([] & st1 & H1 & H) | [(e & H & _) | [H _]]];
    try (rewrite H in F1; exact F1).
  rewrite H1 in F1. simpl in F1.
  pose proof (ctl_dequeue_from fuel 0 st1) as (F2 & _). fold (dequeue fuel) in F2.
  apply bind_inv in H as [([] & st2 & H2 & H) | [(e & H & _) | [H _]]];
    try (rewrite H in F2; simpl in F2; congruence).
  rewrite H2 in F2. simpl in F2.
  pose proof (ctl_checkPrototypes st2) as (F3 & _).
  apply bind_inv in H as [([] & st3 & H3 & H) | [(e & H & _) | [H _]]];
    try (rewrite H in F3; simpl in F3; congruence).
  apply bind_inv in H as [([] & st4 & H4 & H) | [(e & H & _) | [H _]]].
  - injection H as <- _. exfalso. eapply Hr. reflexivity.
  - rewrite commit_run in H. discriminate.
  - rewrite commit_run in H. discriminate.
Qed.

(** ** What [freezeWithOverride] computes *)

Lemma lookup_prop_app_notin k done ps :
  k ∉ done.*1 -> lookup_prop k (done ++ ps) = lookup_prop k ps.
Proof.
  induction done as [|[k' d'] done IH]; simpl; [reflexivity|].
  rewrite not_elem_of_cons. intros [Hne Hnin].
  rewrite decide_False by exact Hne. auto.
Qed.

Lemma replace_prop_app_notin k d done ps :
  k ∉ done.*1 -> replace_prop k d (done ++ ps) = done ++ replace_prop k d ps.
Proof.
  induction done as [|[k' d'] done IH]; simpl; [reflexivity|].
  rewrite not_elem_of_cons. intros [Hne Hnin].
  rewrite decide_False by exact Hne. rewrite IH by exact Hnin. reflexivity.
Qed.

Ltac st_simpl :=
  cbv beta iota delta [emit set_heap set_toFreeze set_paths set_prototypes
                       set_fringeSet st_heap toFreeze fringeSet prototypes
                       paths st_log].

Lemma with_props_id o : with_props o (props o) = o.
Proof. destruct o; reflexivity. Qed.

Lemma freeze_at_middle (h : heap) o rest :
  freeze_at (h ++ o :: rest) (length h) = h ++ freeze_object o :: rest.
Proof.
  unfold freeze_at. rewrite list_lookup_middle by reflexivity.
  replace (length h) with (length h + 0) at 1 by lia.
  rewrite insert_app_r. reflexivity.
Qed.

Lemma define_at_middle (h : heap) o rest k d o' :
  define_own o k d = Some o' ->
  define_at (h ++ o :: rest) (length h) k d = Some (h ++ o' :: rest).
Proof.
  intros Hd. unfold define_at. rewrite list_lookup_middle by reflexivity.
  rewrite Hd. replace (length h) with (length h + 0) at 1 by lia.
  rewrite insert_app_r. reflexivity.
Qed.

Lemma alloc_run o st :
  alloc o st = (Ret (length (st_heap st)), set_heap (st_heap st ++ [o]) st).
Proof. reflexivity. Qed.

Lemma freeze_run l st :
  freeze l st = (Ret tt, emit (EvFreeze l) (set_heap (freeze_at (st_heap st) l) st)).
Proof. reflexivity. Qed.

Lemma assign_new_run l k v st h :
  define_at (st_heap st) l k (DataDesc v true true true) = Some h ->
  assign_new l k v st = (Ret tt, emit (EvAssign l k) (set_heap h st)).
Proof. unfold assign_new. intros ->. reflexivity. Qed.

Lemma defineProperty_run l k d st h :
  define_at (st_heap st) l k d = Some h ->
  defineProperty l k d st = (Ret tt, emit (EvDefineProperty l k) (set_heap h st)).
Proof. unfold defineProperty. intros ->. reflexivity. Qed.

Lemma toFreeze_add_new l st :
  l ∉ toFreeze st ->
  toFreeze_add l st = (Ret tt, set_toFreeze (toFreeze st ++ [l]) st).
Proof.
  intros Hn. unfold toFreeze_add, modify. rewrite decide_False by exact Hn.
  reflexivity.
Qed.

(** The two allocations of the data-property branch, up to the point
    where the accessor is defined. *)
Lemma alloc_accessor_pair_run {A} (K : loc -> loc -> M A) obj name v st :
  (∀ l, l ∈ toFreeze st -> l < length (st_heap st)) ->
  let n := length (st_heap st) in
  (getter <- alloc (new_function "get" 0 (OverrideGet v));;
   setter <- alloc (new_function "set" 1 (OverrideSet obj name));;
   assign_new getter (KStr "value") v;;
   freeze getter;;
   freeze setter;;
   toFreeze_add getter;;
   toFreeze_add setter;;
   K getter setter) st =
  K n (S n)
    (State (st_heap st ++ [getter_object v; setter_object obj name])
           (fringeSet st) (toFreeze st ++ [n; S n]) (prototypes st) (paths st)
           (st_log st ++ [EvAssign n (KStr "value"); EvFreeze n; EvFreeze (S n)])).
Proof.
  intros Hb n. destruct st as [H F T P W L]. simpl in *.
  rewrite (bind_run _ _ _ _ _ (alloc_run _ _)). st_simpl.
  rewrite (bind_run _ _ _ _ _ (alloc_run _ _)). st_simpl.
  rewrite <- app_assoc. simpl app. rewrite length_app. simpl length.
  replace (length H + 1) with (S n) by (unfold n; lia). fold n.
  erewrite (bind_run (assign_new n _ v)).
  2:{ apply assign_new_run. st_simpl. apply define_at_middle. reflexivity. }
  st_simpl.
  rewrite (bind_run _ _ _ _ _ (freeze_run _ _)). st_simpl.
  rewrite freeze_at_middle. fold (getter_object v).
  rewrite (bind_run _ _ _ _ _ (freeze_run _ _)). st_simpl.
  assert (Hfs : freeze_at (H ++ [getter_object v; new_function "set" 1 (OverrideSet obj name)])
                  (S n) = H ++ [getter_object v; setter_object obj name]).
  { change (H ++ [getter_object v; ?b]) with (H ++ [getter_object v] ++ [b]).
    rewrite app_assoc.
    replace (S n) with (length (H ++ [getter_object v]))
      by (rewrite length_app; simpl; unfold n; lia).
    rewrite freeze_at_middle, <- app_assoc. reflexivity. }
  rewrite Hfs.
  erewrite (bind_run (toFreeze_add n)).
  2:{ apply toFreeze_add_new. st_simpl. intros Hin. apply Hb in Hin. lia. }
  st_simpl.
  erewrite (bind_run (toFreeze_add (S n))).
  2:{ apply toFreeze_add_new. st_simpl. rewrite elem_of_app, list_elem_of_singleton.
      intros [Hin|Hin]; [apply Hb in Hin|]; lia. }
  st_simpl. rewrite <- !app_assoc. reflexivity.
Qed.

Lemma define_at_app_l (h : heap) rest l k d o o' :
  h !! l = Some o -> define_own o k d = Some o' ->
  define_at (h ++ rest) l k d = Some (<[l := o']> h ++ rest).
Proof.
  intros Hl Hd. unfold define_at.
  rewrite lookup_app_l by (eapply lookup_lt_Some; eauto).
  rewrite Hl, Hd. rewrite insert_app_l by (eapply lookup_lt_Some; eauto).
  reflexivity.
Qed.

Lemma define_own_configurable o k d done cur ps :
  props o = done ++ (k, cur) :: ps -> k ∉ done.*1 -> configurable cur = true ->
  define_own o k d = Some (with_props o (done ++ (k, d) :: ps)).
Proof.
  intros Hp Hk Hc. unfold define_own.
  rewrite Hp, lookup_prop_app_notin by exact Hk. simpl.
  rewrite decide_True by reflexivity. rewrite Hc. simpl.
  rewrite replace_prop_app_notin by exact Hk. simpl.
  rewrite decide_True by reflexivity. reflexivity.
Qed.

Lemma NoDup_keys_middle (done : list (key * desc)) k d ps :
  NoDup (done ++ (k, d) :: ps).*1 -> k ∉ done.*1.
Proof.
  rewrite fmap_app. simpl. intros Hnd Hin.
  apply NoDup_app in Hnd as (_ & Hdis & _). apply (Hdis k Hin). left.
Qed.

Lemma forEach_override_property_run obj ps :
  ∀ done st o,
    st_heap st !! obj = Some o -> props o = done ++ ps ->
    NoDup (done ++ ps).*1 ->
    (∀ l, l ∈ toFreeze st -> l < length (st_heap st)) ->
    forEach (override_property obj) ps st =
      (Ret tt,
       State (<[obj := with_props o (done ++ override_descs (length (st_heap st)) ps)]>
                (st_heap st) ++ override_allocs obj ps)
             (fringeSet st)
             (toFreeze st ++ seq (length (st_heap st)) (length (override_allocs obj ps)))
             (prototypes st) (paths st)
             (st_log st ++ override_events obj (length (st_heap st)) ps)).
Proof.
  induction ps as [|[k d] ps IH]; intros done st o Hobj Hprops Hnd Hb;
    destruct st as [H F T P W L]; simpl in Hobj, Hb; st_simpl.
  { simpl. rewrite app_nil_r in Hprops.
    rewrite !app_nil_r, <- Hprops, with_props_id, list_insert_id by exact Hobj.
    reflexivity. }
  assert (Hk : k ∉ done.*1) by (eapply NoDup_keys_middle; eauto).
  assert (Hassoc : ∀ d', (done ++ [(k, d')]) ++ ps = done ++ (k, d') :: ps)
    by (intros; rewrite <- app_assoc; reflexivity).
  assert (Hlen : obj < length H) by (eapply lookup_lt_Some; eauto).
  assert (Hwp : ∀ qs qs', with_props (with_props o qs) qs' = with_props o qs')
    by reflexivity.
  destruct (configurable d) eqn:Hc.
  2:{ (* left untouched *)
    cbn [forEach]. unfold bind at 1.
    replace (override_property obj (k, d) (State H F T P W L))
      with (Ret tt, State H F T P W L)
      by (unfold override_property; rewrite Hc; reflexivity).
    rewrite (IH (done ++ [(k, d)]) (State H F T P W L) o Hobj)
      by (rewrite ?Hassoc; auto).
    st_simpl. rewrite <- (app_assoc done). cbn [app].
    destruct d as [v w e c|g s e c]; simpl in Hc; subst c; reflexivity. }
  destruct d as [v w e c|g s e c]; simpl in Hc; subst c.
  - (* a configurable data property *)
    cbn [forEach]. unfold bind at 1. unfold override_property. cbn [configurable negb].
    rewrite alloc_accessor_pair_run by exact Hb. st_simpl.
    set (d' := AccessorDesc (VRef (length H)) (VRef (S (length H))) e false).
    set (o1 := with_props o (done ++ (k, d') :: ps)).
    erewrite defineProperty_run.
    2:{ st_simpl. eapply define_at_app_l; [exact Hobj|].
        eapply define_own_configurable; eauto. }
    st_simpl. fold o1.
    rewrite (IH (done ++ [(k, d')]) _ o1); st_simpl.
    + rewrite <- (app_assoc done). cbn [app].
      rewrite !length_app, length_insert. simpl length.
      replace (length H + 2) with (S (S (length H))) by lia.
      unfold o1. rewrite Hwp.
      rewrite insert_app_l by (rewrite length_insert; exact Hlen).
      rewrite list_insert_insert_eq, <- !app_assoc. reflexivity.
    + rewrite lookup_app_l by (rewrite length_insert; exact Hlen).
      apply list_lookup_insert_eq. exact Hlen.
    + rewrite Hassoc. reflexivity.
    + rewrite Hassoc. rewrite fmap_app in *. exact Hnd.
    + intros l. rewrite length_app, length_insert. simpl length.
      rewrite elem_of_app. intros [Hin|Hin]; [apply Hb in Hin; lia|].
      apply elem_of_cons in Hin as [->|Hin]; [lia|].
      apply list_elem_of_singleton in Hin as ->. lia.
  - (* a configurable accessor *)
    cbn [forEach]. unfold bind at 1. unfold override_property. cbn [configurable negb].
    set (d' := AccessorDesc g s e false).
    set (o1 := with_props o (done ++ (k, d') :: ps)).
    erewrite defineProperty_run.
    2:{ st_simpl. unfold define_at. rewrite Hobj.
        erewrite define_own_configurable; eauto. }
    st_simpl. fold o1.
    rewrite (IH (done ++ [(k, d')]) _ o1); st_simpl.
    + rewrite <- (app_assoc done). cbn [app].
      rewrite length_insert, list_insert_insert_eq. unfold o1. rewrite Hwp.
      rewrite <- app_assoc. reflexivity.
    + apply list_lookup_insert_eq. exact Hlen.
    + rewrite Hassoc. reflexivity.
    + rewrite Hassoc. rewrite fmap_app in *. exact Hnd.
    + intros l. rewrite length_insert. apply Hb.
Qed.

Lemma freeze_at_insert (h : heap) l o rest :
  l < length h ->
  freeze_at (<[l := o]> h ++ rest) l = <[l := freeze_object o]> h ++ rest.
Proof.
  intros Hl. unfold freeze_at.
  rewrite lookup_app_l by (rewrite length_insert; exact Hl).
  rewrite list_lookup_insert_eq by exact Hl.
  rewrite insert_app_l by (rewrite length_insert; exact Hl).
  rewrite list_insert_insert_eq. reflexivity.
Qed.

(** The object that [freezeWithOverride] leaves in place of [o], when the
    next free location is [n]. *)
Definition overridden (n : nat) (o : object) : object :=
  freeze_object (with_props o (override_descs n (props o))).

Lemma freezeWithOverride_run obj st o :
  st_heap st !! obj = Some o -> wf_object o ->
  (∀ l, l ∈ toFreeze st -> l < length (st_heap st)) ->
  freezeWithOverride obj st =
    (Ret tt,
     State (<[obj := overridden (length (st_heap st)) o]> (st_heap st)
              ++ override_allocs obj (props o))
           (fringeSet st)
           (toFreeze st ++ seq (length (st_heap st)) (length (override_allocs obj (props o))))
           (prototypes st) (paths st)
           (st_log st ++ [EvGetOwnPropertyDescriptors obj]
              ++ override_events obj (length (st_heap st)) (props o)
              ++ [EvFreeze obj])).
Proof.
  intros Hobj Hwf Hb. destruct st as [H F T P W L]. simpl in Hobj, Hb.
  unfold freezeWithOverride, bind at 1, getOwnPropertyDescriptors. st_simpl.
  assert (Hdescs : props_at H obj = props o) by (unfold props_at; rewrite Hobj; reflexivity).
  rewrite Hdescs.
  erewrite bind_run.
  2:{ apply (forEach_override_property_run obj (props o) [] _ o); st_simpl; auto. }
  st_simpl. rewrite freeze_run. st_simpl. cbn [app].
  rewrite freeze_at_insert by (eapply lookup_lt_Some; eauto).
  unfold overridden. rewrite <- !app_assoc. reflexivity.
Qed.

(** ** Invariants of the walk *)

Definition keeps (I : state -> Prop) (st st' : state) : Prop := I st -> I st'.

#[local] Instance keeps_preorder I : PreOrder (keeps I).
Proof. split; [intros st H; exact H | intros a b c Hab Hbc H; auto]. Qed.

(** Every member of [toFreeze] is an object of the heap, none is there
    twice, and the heap is well formed. *)
Definition inv (st : state) : Prop :=
  (∀ l, l ∈ toFreeze st -> l < length (st_heap st)) ∧
  NoDup (toFreeze st) ∧
  wf_heap (st_heap st).

Lemma heap_le_length h h' : heap_le h h' -> length h ≤ length h'.
Proof.
  intros Hle. destruct (decide (length h = 0)) as [->|Hne]; [lia|].
  destruct (lookup_lt_is_Some_2 h (length h - 1)) as [o Ho]; [lia|].
  destruct (Hle _ _ Ho) as (o' & Ho' & _). apply lookup_lt_Some in Ho'. lia.
Qed.

Lemma keys_override_descs n ps : (override_descs n ps).*1 = ps.*1.
Proof.
  revert n. induction ps as [|[k d] ps IH]; intros n; [reflexivity|].
  destruct d as [v w e [|]|g s e [|]]; simpl; rewrite IH; reflexivity.
Qed.

Lemma wf_freeze_object o : wf_object o -> wf_object (freeze_object o).
Proof.
  unfold wf_object. simpl. rewrite <- list_fmap_compose.
  intros H. erewrite list_fmap_ext; [exact H|]. intros i [k d] _. reflexivity.
Qed.

Lemma wf_overridden n o : wf_object o -> wf_object (overridden n o).
Proof.
  intros H. apply wf_freeze_object. unfold wf_object. simpl.
  rewrite keys_override_descs. exact H.
Qed.

Lemma wf_getter_object v : wf_object (getter_object v).
Proof.
  try clear hook_fixed; try clear hook_js; clear toStr naivePrepareObject call_foreign.
  unfold wf_object. simpl. repeat constructor; set_solver.
Qed.

Lemma wf_setter_object obj k : wf_object (setter_object obj k).
Proof.
  try clear hook_fixed; try clear hook_js; clear toStr naivePrepareObject call_foreign.
  unfold wf_object. simpl. repeat constructor; set_solver.
Qed.

Lemma wf_override_allocs obj ps : Forall wf_object (override_allocs obj ps).
Proof.
  induction ps as [|[k d] ps IH]; [constructor|].
  destruct d as [v w e [|]|g s e c]; simpl; [|exact IH|exact IH].
  constructor; [apply wf_getter_object|].
  constructor; [apply wf_setter_object | exact IH].
Qed.

Lemma wf_define_own o k d o' : wf_object o -> define_own o k d = Some o' -> wf_object o'.
Proof.
  unfold define_own, wf_object.
  destruct (lookup_prop k (props o)) as [cur|] eqn:Hk.
  - destruct (configurable cur || compatible cur d); [|discriminate].
    intros H [= <-]. simpl.
    assert (Hkeys : ∀ ps, (replace_prop k d ps).*1 = ps.*1).
    { induction ps as [|[k' d'] ps IH]; simpl; [reflexivity|].
      destruct (decide (k = k')); simpl; [reflexivity | f_equal; exact IH]. }
    rewrite Hkeys. exact H.
  - destruct (extensible o); [|discriminate]. intros H [= <-]. simpl.
    rewrite fmap_app. apply NoDup_app. repeat split; auto.
    + intros x Hx Hin. simpl in Hin. apply list_elem_of_singleton in Hin as ->.
      apply lookup_prop_None in Hk. contradiction.
    + simpl. apply NoDup_singleton.
Qed.

Lemma wf_define_at h l k d h' : wf_heap h -> define_at h l k d = Some h' -> wf_heap h'.
Proof.
  unfold define_at, wf_heap. intros Hwf.
  destruct (h !! l) as [o|] eqn:Hl; [|discriminate].
  destruct (define_own o k d) as [o'|] eqn:Hd; [|discriminate].
  intros [= <-]. apply Forall_insert; [exact Hwf|].
  eapply wf_define_own; eauto. rewrite Forall_forall in Hwf.
  apply Hwf. eapply list_elem_of_lookup_2; eauto.
Qed.

Lemma wf_freeze_at h l : wf_heap h -> wf_heap (freeze_at h l).
Proof.
  unfold freeze_at, wf_heap. intros Hwf.
  destruct (h !! l) as [o|] eqn:Hl; [|exact Hwf].
  apply Forall_insert; [exact Hwf|]. apply wf_freeze_object.
  rewrite Forall_forall in Hwf. apply Hwf. eapply list_elem_of_lookup_2; eauto.
Qed.

Create HintDb inv.

Lemma typeof_in_heap h l :
  typeof h l = "object" ∨ typeof h l = "function" -> l < length h.
Proof.
  unfold typeof. destruct (h !! l) as [o|] eqn:Hl.
  - intros _. eapply lookup_lt_Some; eauto.
  - intros [H|H]; discriminate.
Qed.

Lemma inv_enqueue v p : stable (keeps inv) (enqueue v p).
Proof.
  intros st Hinv. destruct v as [pr|l]; [exact Hinv|].
  destruct (enqueue (VRef l) p st) as [r st'] eqn:Hrun.
  unfold enqueue, bind, gets, raise, ret in Hrun. simpl in Hrun.
  destruct (negb (bool_decide (typeof (st_heap st) l = "object")) &&
            negb (bool_decide (typeof (st_heap st) l = "function"))) eqn:Hty;
    [injection Hrun as <- <-; exact Hinv|].
  destruct (bool_decide (l ∈ fringeSet st) || bool_decide (l ∈ toFreeze st)) eqn:Hseen;
    [injection Hrun as <- <-; exact Hinv|].
  apply orb_false_iff in Hseen as [_ Ht]. apply bool_decide_eq_false_1 in Ht.
  unfold toFreeze_add, paths_set, modify in Hrun.
  rewrite decide_False in Hrun by exact Ht. injection Hrun as <- <-. simpl.
  destruct Hinv as (Hb & Hnd & Hwf). repeat split; simpl; auto.
  - intros l'. rewrite elem_of_app, list_elem_of_singleton. intros [Hin| ->]; auto.
    apply typeof_in_heap. apply andb_false_iff in Hty.
    rewrite !negb_false_iff, !bool_decide_eq_true in Hty. exact Hty.
  - apply NoDup_app. repeat split; auto using NoDup_singleton.
    intros x Hx Hx'. apply list_elem_of_singleton in Hx' as ->. contradiction.
Qed.

Lemma inv_log_only (f : state -> state) :
  (∀ st, st_heap (f st) = st_heap st ∧ toFreeze (f st) = toFreeze st) ->
  stable (keeps inv) (modify f).
Proof.
  intros Hf st (Hb & Hnd & Hwf). unfold modify. simpl.
  destruct (Hf st) as [Hh Ht]. unfold inv. rewrite Hh, Ht. auto.
Qed.

Lemma inv_paths_set l p : stable (keeps inv) (paths_set l p).
Proof. apply inv_log_only. intros st. auto. Qed.

Lemma inv_getOwnPropertyDescriptors l : stable (keeps inv) (getOwnPropertyDescriptors l).
Proof. intros st H. exact H. Qed.

Lemma inv_getPrototypeOf l : stable (keeps inv) (getPrototypeOf l).
Proof. intros st H. exact H. Qed.

Lemma inv_prepare l : stable (keeps inv) (prepare l).
Proof using hook_js.
  intros st (Hb & Hnd & Hwf). unfold prepare.
  destruct naivePrepareObject as [f|] eqn:Hf; [|repeat split; auto].
  destruct (f l (st_heap st)) as [r h] eqn:Hrun.
  destruct (hook_js f l _ _ _ eq_refl Hrun) as [Hle Hwf'].
  apply heap_le_length in Hle.
  destruct r; simpl; repeat split; simpl; auto;
    intros l' Hin; apply Hb in Hin; lia.
Qed.

Lemma inv_freezeWithOverride obj : stable (keeps inv) (freezeWithOverride obj).
Proof.
  intros st (Hb & Hnd & Hwf).
  destruct (st_heap st !! obj) as [o|] eqn:Hobj.
  - assert (Ho : wf_object o).
    { unfold wf_heap in Hwf. rewrite Forall_forall in Hwf. apply Hwf.
      eapply list_elem_of_lookup_2; eauto. }
    rewrite (freezeWithOverride_run _ _ _ Hobj Ho Hb). simpl.
    repeat split; simpl.
    + intros l. rewrite length_app, length_insert, elem_of_app, elem_of_seq.
      intros [Hin|Hin]; [apply Hb in Hin|]; lia.
    + apply NoDup_app. repeat split; auto using NoDup_seq.
      intros x Hx. rewrite elem_of_seq. apply Hb in Hx. lia.
    + apply Forall_app. split.
      * apply Forall_insert; [exact Hwf | apply wf_overridden; exact Ho].
      * apply wf_override_allocs.
  - unfold freezeWithOverride, bind, getOwnPropertyDescriptors, props_at.
    simpl. rewrite Hobj. simpl. unfold freeze_at. simpl. rewrite Hobj.
    repeat split; auto.
Qed.

Lemma inv_record_prototype pr path : stable (keeps inv) (record_prototype pr path).
Proof.
  unfold record_prototype. destruct pr as [p|]; [|apply stable_ret; apply _].
  apply stable_bind; [apply _ | apply stable_gets; apply _ |].
  intros [|]; [apply stable_ret; apply _|].
  apply stable_bind; [apply _ | | intros _; apply inv_paths_set].
  apply inv_log_only. intros st. auto.
Qed.

#[local] Hint Resolve inv_enqueue inv_paths_set inv_getOwnPropertyDescriptors
  inv_getPrototypeOf inv_prepare inv_freezeWithOverride inv_record_prototype : inv.

Lemma inv_traverse_property path nd : stable (keeps inv) (traverse_property path nd).
Proof. unfold traverse_property. stable_auto ltac:(auto with inv).
Qed.
#[local] Hint Resolve inv_traverse_property : inv.

Lemma inv_freezeAndTraverse obj : stable (keeps inv) (freezeAndTraverse obj).
Proof using hook_js. unfold freezeAndTraverse. stable_auto ltac:(auto with inv). Qed.

Lemma inv_dequeue_from fuel : ∀ i, stable (keeps inv) (dequeue_from fuel i).
Proof using hook_js.
  induction fuel as [|fuel IH]; intros i st; simpl;
    destruct (toFreeze st !! i); try reflexivity.
  apply (stable_bind (keeps inv)); [apply inv_freezeAndTraverse | intros _; apply IH].
Qed.

(** ** Termination of the walk *)

Hypothesis hook_fixed : hook_bounded naivePrepareObject.

Lemma cfg_data_freeze_object o : cfg_data (freeze_object o) = 0.
Proof.
  unfold cfg_data. simpl. induction (props o) as [|[k d] ps IH]; [reflexivity|].
  rewrite fmap_cons, filter_cons_False; [exact IH|].
  simpl. destruct d; simpl; discriminate.
Qed.

Lemma length_override_allocs obj o :
  length (override_allocs obj (props o)) = 2 * cfg_data o.
Proof.
  unfold cfg_data. induction (props o) as [|[k d] ps IH]; [reflexivity|].
  destruct d as [v w e [|]|g s e c]; cbn [override_allocs length].
  - rewrite filter_cons_True by reflexivity. cbn [length]. rewrite IH. lia.
  - rewrite filter_cons_False by (simpl; discriminate). exact IH.
  - rewrite filter_cons_False by (simpl; discriminate). exact IH.
Qed.

Lemma sum_cfg_data_override_allocs obj ps :
  sum_list_with cfg_data (override_allocs obj ps) = 0.
Proof.
  induction ps as [|[k d] ps IH]; [reflexivity|].
  destruct d as [v w e [|]|g s e c]; simpl; auto.
Qed.

Lemma sum_list_with_insert {A} (f : A -> nat) (l : list A) i x y :
  l !! i = Some x ->
  sum_list_with f (<[i := y]> l) + f x = sum_list_with f l + f y.
Proof.
  intros Hi. rewrite <- (take_drop_middle l i x Hi) at 2.
  rewrite insert_take_drop by (eapply lookup_lt_Some; eauto).
  rewrite !sum_list_with_app. simpl. lia.
Qed.

Lemma weight_freezeWithOverride (h : heap) obj o :
  h !! obj = Some o ->
  weight (<[obj := overridden (length h) o]> h ++ override_allocs obj (props o)) = weight h.
Proof.
  intros Hobj. unfold weight.
  rewrite length_app, length_insert, sum_list_with_app, length_override_allocs,
    sum_cfg_data_override_allocs.
  pose proof (sum_list_with_insert cfg_data h obj o (overridden (length h) o) Hobj) as Hs.
  unfold overridden in Hs at 2. rewrite cfg_data_freeze_object in Hs. lia.
Qed.

(** The walk keeps its invariant and never adds weight to the heap. *)
Definition settles (st st' : state) : Prop :=
  inv st -> inv st' ∧ weight (st_heap st') ≤ weight (st_heap st).

#[local] Instance settles_preorder : PreOrder settles.
Proof.
  split.
  - intros st H. auto.
  - intros a b c Hab Hbc H. destruct (Hab H) as [Hb Hw].
    destruct (Hbc Hb) as [Hc Hw']. split; [exact Hc | lia].
Qed.

Lemma settles_same_heap {A} (c : M A) :
  stable (keeps inv) c -> (∀ st, st_heap (c st).2 = st_heap st) -> stable settles c.
Proof.
  intros Hk Hh st Hinv. split; [apply Hk; exact Hinv | rewrite Hh; lia].
Qed.

Lemma enqueue_heap v p st : st_heap (enqueue v p st).2 = st_heap st.
Proof.
  destruct v as [pr|l]; [reflexivity|].
  unfold enqueue, bind, gets, raise, ret, toFreeze_add, paths_set, modify. simpl.
  repeat case_match; reflexivity.
Qed.

Lemma record_prototype_heap pr path st :
  st_heap (record_prototype pr path st).2 = st_heap st.
Proof.
  unfold record_prototype, bind, gets, ret, paths_set, modify.
  destruct pr; simpl; repeat case_match; reflexivity.
Qed.

Lemma settles_prepare l : stable settles (prepare l).
Proof using hook_fixed hook_js.
  intros st Hinv. split; [apply inv_prepare; exact Hinv|].
  unfold prepare. destruct naivePrepareObject as [f|] eqn:Hf; [|simpl; lia].
  destruct (f l (st_heap st)) as [r h] eqn:Hrun.
  pose proof (hook_fixed f l _ _ _ eq_refl Hrun).
  destruct r; simpl; assumption.
Qed.

Lemma settles_freezeWithOverride obj : stable settles (freezeWithOverride obj).
Proof.
  intros st Hinv. split; [apply inv_freezeWithOverride; exact Hinv|].
  destruct Hinv as (Hb & Hnd & Hwf).
  destruct (st_heap st !! obj) as [o|] eqn:Hobj.
  - assert (Ho : wf_object o).
    { unfold wf_heap in Hwf. rewrite Forall_forall in Hwf. apply Hwf.
      eapply list_elem_of_lookup_2; eauto. }
    rewrite (freezeWithOverride_run _ _ _ Hobj Ho Hb). simpl.
    rewrite weight_freezeWithOverride by exact Hobj. lia.
  - unfold freezeWithOverride, bind, getOwnPropertyDescriptors, props_at.
    simpl. rewrite Hobj. simpl. unfold freeze_at. simpl. rewrite Hobj. lia.
Qed.

Create HintDb settles.

Lemma settles_enqueue v p : stable settles (enqueue v p).
Proof. apply settles_same_heap; [apply inv_enqueue | apply enqueue_heap]. Qed.

Lemma settles_record_prototype pr path : stable settles (record_prototype pr path).
Proof.
  apply settles_same_heap; [apply inv_record_prototype | apply record_prototype_heap].
Qed.

Lemma settles_getPrototypeOf l : stable settles (getPrototypeOf l).
Proof. apply settles_same_heap; [apply inv_getPrototypeOf | reflexivity]. Qed.

Lemma settles_getOwnPropertyDescriptors l : stable settles (getOwnPropertyDescriptors l).
Proof. apply settles_same_heap; [apply inv_getOwnPropertyDescriptors | reflexivity]. Qed.

#[local] Hint Resolve settles_prepare settles_freezeWithOverride settles_enqueue
  settles_record_prototype settles_getPrototypeOf settles_getOwnPropertyDescriptors
  : settles.

Lemma settles_freezeAndTraverse obj : stable settles (freezeAndTraverse obj).
Proof using hook_fixed hook_js.
  unfold freezeAndTraverse, traverse_property.
  stable_auto ltac:(auto with settles).
Qed.

(** Only the loop of [dequeue] can run out of fuel. *)
Definition total {A} (c : M A) : Prop := ∀ st, (c st).1 ≠ Diverge.

Lemma total_bind {A B} (c : M A) (f : A -> M B) :
  total c -> (∀ a, total (f a)) -> total (bind c f).
Proof.
  intros Hc Hf st. unfold bind. specialize (Hc st).
  destruct (c st) as [[a|e|] st1]; simpl in *; [apply Hf | discriminate | contradiction].
Qed.

Lemma total_forEach {A} (f : A -> M unit) xs : (∀ x, total (f x)) -> total (forEach f xs).
Proof.
  intros Hf. induction xs as [|x xs IH]; simpl; [intros st; discriminate|].
  apply total_bind; auto.
Qed.

Ltac total_prim := intros ?; cbv [modify gets ret raise]; repeat case_match;
                   simpl; discriminate.

Ltac total_auto :=
  repeat first
    [ apply total_bind; [| intros ?]
    | apply total_forEach; intros ?
    | match goal with |- total (if ?b then _ else _) => destruct b end
    | match goal with |- total (match ?x with _ => _ end) => destruct x end
    | total_prim ].

Lemma total_enqueue v p : total (enqueue v p).
Proof. unfold enqueue, toFreeze_add, paths_set. total_auto. Qed.

Lemma total_freezeWithOverride obj : total (freezeWithOverride obj).
Proof.
  unfold freezeWithOverride, override_property. total_auto;
    unfold alloc, assign_new, freeze, toFreeze_add, defineProperty,
      getOwnPropertyDescriptors; total_prim.
Qed.

Lemma total_freezeAndTraverse obj : total (freezeAndTraverse obj).
Proof.
  clear hook_fixed hook_js.
  unfold freezeAndTraverse. apply total_bind.
  { unfold prepare. destruct naivePrepareObject; total_prim. }
  intros _. apply total_bind; [apply total_freezeWithOverride|]. intros _.
  apply total_bind; [unfold getPrototypeOf; total_prim|]. intros pr.
  apply total_bind; [unfold getOwnPropertyDescriptors; total_prim|]. intros descs.
  apply total_bind; [total_prim|]. intros path.
  apply total_bind.
  { unfold record_prototype, paths_set. total_auto. }
  intros _. apply total_forEach. intros [k d]. unfold traverse_property.
  destruct d; [apply total_enqueue|].
  apply total_bind; [apply total_enqueue | intros _; apply total_enqueue].
Qed.

Lemma total_checkPrototypes : total checkPrototypes.
Proof.
  intros st. rewrite checkPrototypes_filter.
  destruct (filter (unprocessed st) (prototypes st)) as [|[p path] rest]; discriminate.
Qed.

Lemma total_commit : total commit.
Proof. intros st. rewrite commit_run. discriminate. Qed.

Lemma NoDup_bounded_length (l : list nat) n :
  NoDup l -> (∀ x, x ∈ l -> x < n) -> length l ≤ n.
Proof.
  intros Hnd Hb. rewrite <- (length_seq n 0). apply submseteq_length.
  apply NoDup_submseteq; [exact Hnd|]. intros x Hx. apply elem_of_seq.
  apply Hb in Hx. lia.
Qed.

Lemma dequeue_from_terminates fuel :
  ∀ i st, inv st -> weight (st_heap st) ≤ fuel + i -> (dequeue_from fuel i st).1 ≠ Diverge.
Proof using hook_fixed hook_js.
  induction fuel as [|fuel IH]; intros i st Hinv Hw; simpl;
    destruct (toFreeze st !! i) as [obj|] eqn:Hi; try discriminate.
  - exfalso. apply lookup_lt_Some in Hi. destruct Hinv as (Hb & Hnd & _).
    pose proof (NoDup_bounded_length _ _ Hnd Hb). unfold weight in Hw. lia.
  - unfold bind.
    pose proof (settles_freezeAndTraverse obj st Hinv) as [Hinv' Hw'].
    pose proof (total_freezeAndTraverse obj st) as Htot.
    destruct (freezeAndTraverse obj st) as [[[]|e|] st1]; simpl in *;
      [|discriminate|contradiction].
    apply IH; [exact Hinv' | lia].
Qed.

(** The nodes visited, in order: one [getPrototypeOf] per visit. *)
Definition visits (log : list event) : list loc :=
  omap (fun e => match e with EvGetPrototypeOf l => Some l | _ => None end) log.

Definition same_visits (st st' : state) : Prop :=
  visits (st_log st') = visits (st_log st).

#[local] Instance same_visits_preorder : PreOrder same_visits.
Proof.
  split; [intros st; reflexivity|].
  intros a b c. unfold same_visits. congruence.
Qed.

Lemma visits_app l1 l2 : visits (l1 ++ l2) = visits l1 ++ visits l2.
Proof. apply omap_app. Qed.

Ltac visits_prim :=
  intros ?; unfold same_visits;
  cbv [modify gets ret raise emit set_heap set_toFreeze set_paths set_prototypes];
  repeat case_match; simpl; rewrite ?visits_app, ?app_nil_r; reflexivity.

Ltac visits_auto :=
  repeat first
    [ apply stable_bind; [apply _ | | intros ?]
    | apply stable_forEach; [apply _ | intros ?]
    | match goal with |- stable _ (if ?b then _ else _) => destruct b end
    | match goal with |- stable _ (match ?x with _ => _ end) => destruct x end
    | visits_prim ].

Lemma visits_enqueue v p : stable same_visits (enqueue v p).
Proof. unfold enqueue, toFreeze_add, paths_set. visits_auto. Qed.

Lemma visits_freezeWithOverride obj : stable same_visits (freezeWithOverride obj).
Proof.
  unfold freezeWithOverride, override_property. visits_auto;
    unfold alloc, assign_new, freeze, toFreeze_add, defineProperty,
      getOwnPropertyDescriptors; visits_prim.
Qed.

Lemma visits_prepare obj : stable same_visits (prepare obj).
Proof.
  clear hook_fixed hook_js. unfold prepare. destruct naivePrepareObject; visits_prim. Qed.

Lemma visits_traversal pr path descs :
  stable same_visits (record_prototype pr path;; forEach (traverse_property path) descs).
Proof.
  unfold record_prototype, traverse_property, paths_set.
  apply stable_bind; [apply _ | visits_auto |]. intros _.
  apply stable_forEach; [apply _|]. intros [k d].
  destruct d; [apply visits_enqueue|].
  apply stable_bind; [apply _ | apply visits_enqueue | intros _; apply visits_enqueue].
Qed.

(** ** One visit *)

(** A visit that returns, cut at its steps: the hook, the hardening, the
    two reads, the traversal. *)
Lemma freezeAndTraverse_Ret obj st st' :
  freezeAndTraverse obj st = (Ret tt, st') ->
  ∃ sp sf,
    prepare obj st = (Ret tt, sp) ∧
    freezeWithOverride obj sp = (Ret tt, sf) ∧
    (record_prototype (proto_at (st_heap sf) obj) (path_or_unknown (paths sf !! obj));;
     forEach (traverse_property (path_or_unknown (paths sf !! obj)))
             (props_at (st_heap sf) obj))
      (emit (EvGetOwnPropertyDescriptors obj) (emit (EvGetPrototypeOf obj) sf))
    = (Ret tt, st').
Proof.
  unfold freezeAndTraverse. intros H.
  apply bind_Ret in H as ([] & sp & Hp & H).
  apply bind_Ret in H as ([] & sf & Hf & H).
  apply bind_Ret in H as (pr & s1 & H1 & H). injection H1 as <- <-.
  apply bind_Ret in H as (descs & s2 & H2 & H). injection H2 as <- <-.
  apply bind_Ret in H as (path & s3 & H3 & H). injection H3 as <- <-.
  exists sp, sf. auto.
Qed.

Lemma freezeWithOverride_Ret_hardened obj st st' :
  freezeWithOverride obj st = (Ret tt, st') ->
  obj < length (st_heap st) ->
  hardened (st_heap st') obj.
Proof.
  unfold freezeWithOverride. intros H Hlen.
  apply bind_Ret in H as (descs & s1 & H1 & H). injection H1 as <- <-.
  apply bind_Ret in H as ([] & s2 & H2 & H).
  rewrite freeze_run in H. injection H as <-. simpl.
  assert (Hle : heap_step (emit (EvGetOwnPropertyDescriptors obj) st) s2).
  { pose proof (stable_forEach heap_step (override_property obj)
                  (props_at (st_heap st) obj) (hp_override_property obj)
                  (emit (EvGetOwnPropertyDescriptors obj) st)) as Hs.
    rewrite H2 in Hs. exact Hs. }
  apply heap_le_length in Hle. simpl in Hle.
  destruct (lookup_lt_is_Some_2 (st_heap s2) obj) as [o Ho]; [lia|].
  exists (freeze_object o). split; [|apply isFrozen_freeze_object].
  unfold freeze_at. rewrite Ho. apply list_lookup_insert_eq. lia.
Qed.

Lemma elem_of_value_links o l :
  l ∈ value_links o ↔ ∃ k d, (k, d) ∈ props o ∧ VRef l ∈ desc_values d.
Proof.
  unfold value_links, refs. rewrite list_elem_of_omap. split.
  - intros (v & Hv & Hl). destruct v as [p|l']; [discriminate|]. injection Hl as ->.
    apply list_elem_of_bind in Hv as ([k d] & Hd & Hkd). eauto.
  - intros (k & d & Hkd & Hd). exists (VRef l). split; [|reflexivity].
    apply list_elem_of_bind. exists (k, d). auto.
Qed.

Definition known (st : state) (l : loc) : Prop :=
  l ∈ fringeSet st ∨ l ∈ toFreeze st.

Lemma known_mono st st' l : ctl_le st st' -> known st l -> known st' l.
Proof.
  try clear hook_fixed; try clear hook_js; clear toStr naivePrepareObject call_foreign.
  intros (Hf & Ht & _) [H|H]; [left; congruence|].
  right. destruct Ht as [k ->]. set_solver.
Qed.

Lemma enqueue_Ret_known v path st st' l :
  enqueue v path st = (Ret tt, st') -> v = VRef l -> known st' l.
Proof.
  intros H ->. apply enqueue_ref_Ret in H as (_ & H & _). exact H.
Qed.

Lemma traverse_property_Ret path k d st st' l :
  traverse_property path (k, d) st = (Ret tt, st') ->
  VRef l ∈ desc_values d -> known st' l.
Proof.
  unfold traverse_property. destruct d as [v w e c|g s e c]; simpl.
  - intros H Hin. apply list_elem_of_singleton in Hin.
    eapply enqueue_Ret_known; eauto.
  - intros H Hin. apply bind_Ret in H as ([] & s1 & H1 & H2).
    apply elem_of_cons in Hin as [Hin|Hin].
    + eapply known_mono.
      * pose proof (ctl_enqueue s (Some ((path +:+ "." +:+ String_ k) +:+ "(set)")) s1) as Hc.
        rewrite H2 in Hc. exact Hc.
      * eapply enqueue_Ret_known; eauto.
    + apply list_elem_of_singleton in Hin. eapply enqueue_Ret_known; eauto.
Qed.

Lemma traversal_Ret path descs :
  ∀ st st', forEach (traverse_property path) descs st = (Ret tt, st') ->
    ∀ k d l, (k, d) ∈ descs -> VRef l ∈ desc_values d -> known st' l.
Proof.
  induction descs as [|[k0 d0] descs IH]; intros st st' H k d l Hin Hl.
  { inversion Hin. }
  cbn [forEach] in H. apply bind_Ret in H as ([] & s1 & H1 & H2).
  apply elem_of_cons in Hin as [Heq|Hin].
  - injection Heq as -> ->. eapply known_mono.
    + pose proof (stable_forEach ctl_le (traverse_property path) descs
                    (ctl_traverse_property path) s1) as Hc.
      rewrite H2 in Hc. exact Hc.
    + eapply traverse_property_Ret; eauto.
  - eapply IH; eauto.
Qed.

Lemma record_prototype_Ret pr path st st' p :
  record_prototype pr path st = (Ret tt, st') -> pr = Some p ->
  p ∈ (prototypes st').*1.
Proof.
  try clear hook_fixed; try clear hook_js; clear toStr naivePrepareObject call_foreign.
  intros H ->. unfold record_prototype, bind, gets, ret, modify, paths_set,
    prototypes_has in H. simpl in H.
  destruct (decide (p ∈ (prototypes st).*1)) as [Hin|Hin].
  - rewrite (bool_decide_eq_true_2 _ Hin) in H. injection H as <-. exact Hin.
  - rewrite (bool_decide_eq_false_2 _ Hin) in H. injection H as <-. simpl.
    rewrite fmap_app. set_solver.
Qed.

(** A node is processed when it is frozen, the objects its properties
    hold are in the fringe set or in [toFreeze], and its prototype is
    registered. *)
Definition processed (st : state) (l : loc) : Prop :=
  ∃ o, st_heap st !! l = Some o ∧ isFrozen o ∧
       (∀ l', l' ∈ value_links o -> known st l') ∧
       (∀ p, proto o = Some p -> p ∈ (prototypes st).*1).

Lemma processed_mono st st' l :
  ctl_le st st' -> heap_step st st' -> processed st l -> processed st' l.
Proof.
  try clear hook_fixed; try clear hook_js; clear toStr naivePrepareObject call_foreign.
  intros Hc Hh (o & Hl & Hfr & Hlinks & Hproto).
  destruct (Hh l o Hl) as (o' & Hl' & _ & _ & Hsame). rewrite (Hsame Hfr) in Hl'.
  exists o. split; [exact Hl'|]. split; [exact Hfr|]. split.
  - intros l' Hin. eapply known_mono; eauto.
  - intros p Hp. destruct Hc as (_ & _ & [k ->] & _). rewrite fmap_app.
    specialize (Hproto p Hp). set_solver.
Qed.

Definition heap_same (st st' : state) : Prop := st_heap st' = st_heap st.

#[local] Instance heap_same_preorder : PreOrder heap_same.
Proof.
  split; [intros st; reflexivity|]. intros a b c. unfold heap_same. congruence.
Qed.

Lemma traversal_heap pr path descs :
  stable heap_same (record_prototype pr path;; forEach (traverse_property path) descs).
Proof.
  apply stable_bind; [apply _ | intros st; apply record_prototype_heap |]. intros _.
  apply stable_forEach; [apply _|]. intros [k d]. unfold traverse_property.
  destruct d; [intros st; apply enqueue_heap|].
  apply stable_bind; [apply _ | intros st; apply enqueue_heap |].
  intros _ st. apply enqueue_heap.
Qed.

Lemma freezeAndTraverse_Ret_processed obj st st' :
  freezeAndTraverse obj st = (Ret tt, st') ->
  obj < length (st_heap st) ->
  processed st' obj.
Proof using hook_js.
  clear hook_fixed. clear toStr call_foreign.
  intros H Hlen.
  apply freezeAndTraverse_Ret in H as (sp & sf & Hp & Hf & Ht).
  assert (Hlen' : obj < length (st_heap sp)).
  { pose proof (hp_prepare obj st) as Hle. rewrite Hp in Hle.
    apply heap_le_length in Hle. simpl in Hle. lia. }
  destruct (freezeWithOverride_Ret_hardened _ _ _ Hf Hlen') as (o & Ho & Hfr).
  pose proof (traversal_heap (proto_at (st_heap sf) obj)
                (path_or_unknown (paths sf !! obj)) (props_at (st_heap sf) obj)
                (emit (EvGetOwnPropertyDescriptors obj) (emit (EvGetPrototypeOf obj) sf)))
    as Hheap.
  rewrite Ht in Hheap. unfold heap_same in Hheap. simpl in Hheap.
  apply bind_Ret in Ht as ([] & s2 & Hrec & Htrav).
  exists o. split; [rewrite Hheap; exact Ho|]. split; [exact Hfr|]. split.
  - intros l' Hin. apply elem_of_value_links in Hin as (k & d & Hkd & Hd).
    eapply traversal_Ret; [exact Htrav | | exact Hd].
    unfold props_at. rewrite Ho. exact Hkd.
  - intros p Hp'.
    assert (Hin : p ∈ (prototypes s2).*1).
    { eapply record_prototype_Ret; [exact Hrec|]. unfold proto_at. rewrite Ho. exact Hp'. }
    pose proof (stable_forEach ctl_le _ (props_at (st_heap sf) obj)
                  (ctl_traverse_property (path_or_unknown (paths sf !! obj))) s2)
      as Hc.
    rewrite Htrav in Hc. destruct Hc as (_ & _ & [k Hk] & _). simpl in Hk.
    rewrite Hk, fmap_app. set_solver.
Qed.

(** When the walk returns, every member of [toFreeze] has been
    processed. *)
Lemma dequeue_from_Ret_processed fuel :
  ∀ i st st',
    dequeue_from fuel i st = (Ret tt, st') -> inv st ->
    (∀ j l, j < i -> toFreeze st !! j = Some l -> processed st l) ->
    ∀ l, l ∈ toFreeze st' -> processed st' l.
Proof using hook_js.
  clear hook_fixed.
  induction fuel as [|fuel IH]; intros i st st' H Hinv Hdone; simpl in H;
    destruct (toFreeze st !! i) as [obj|] eqn:Hi; try discriminate.
  1,3: injection H as <-; intros l Hl;
    apply list_elem_of_lookup in Hl as [j Hj];
    apply (Hdone j l); [|exact Hj];
    apply lookup_lt_Some in Hj; apply lookup_ge_None in Hi; lia.
  apply bind_Ret in H as ([] & s1 & H1 & H2).
  pose proof (ctl_freezeAndTraverse obj st) as Hc. rewrite H1 in Hc. simpl in Hc.
  pose proof (hp_freezeAndTraverse obj st) as Hh. rewrite H1 in Hh. simpl in Hh.
  pose proof (inv_freezeAndTraverse obj st Hinv) as Hinv1. rewrite H1 in Hinv1.
  apply (IH (S i) s1 st' H2 Hinv1).
  intros j l Hj Hl. destruct (decide (j = i)) as [->|Hne].
  - assert (l = obj) as ->.
    { destruct Hc as (_ & [k Hk] & _). rewrite Hk in Hl.
      rewrite lookup_app_l in Hl by (eapply lookup_lt_Some; eauto). congruence. }
    eapply freezeAndTraverse_Ret_processed; [exact H1|].
    destruct Hinv as (Hb & _). apply Hb. eapply list_elem_of_lookup_2; eauto.
  - eapply processed_mono; [exact Hc | exact Hh |].
    apply (Hdone j l); [lia|].
    destruct Hc as (_ & [k Hk] & _). rewrite Hk in Hl.
    destruct (decide (j < length (toFreeze st))) as [Hlt|Hge].
    + rewrite lookup_app_l in Hl by exact Hlt. exact Hl.
    + apply lookup_lt_Some in Hi. lia.
Qed.

(** ** Closure *)

Lemma inv_fresh_collections st : wf_heap (st_heap st) -> inv (fresh_collections st).
Proof.
  intros Hwf. repeat split; simpl; [intros l Hl; inversion Hl | constructor | exact Hwf].
Qed.

(** What a call that returns has established, before it commits. *)
Lemma harden_Ret_walk fuel root st r st' :
  wf_heap (st_heap st) ->
  harden fuel root st = (Ret r, st') ->
  ∃ st2,
    st' = (commit st2).2 ∧ fringeSet st2 = fringeSet st ∧ inv st2 ∧
    (∀ l, root = VRef l -> known st2 l) ∧
    (∀ l, l ∈ toFreeze st2 -> processed st2 l) ∧
    (∀ p, p ∈ (prototypes st2).*1 -> known st2 p).
Proof using hook_js.
  clear hook_fixed.
  intros Hwf H. apply harden_Ret in H as (st1 & st2 & He & Hd & Hc & -> & ->).
  pose proof (ctl_enqueue root None (fresh_collections st)) as Hc1.
  rewrite He in Hc1. simpl in Hc1.
  pose proof (ctl_dequeue_from fuel 0 st1) as Hc2. fold (dequeue fuel) in Hc2.
  rewrite Hd in Hc2. simpl in Hc2.
  assert (Hinv1 : inv st1).
  { pose proof (inv_enqueue root None _ (inv_fresh_collections st Hwf)) as Hi.
    rewrite He in Hi. exact Hi. }
  exists st2. split; [reflexivity|]. split.
  { destruct Hc1 as (F1 & _), Hc2 as (F2 & _). simpl in F1. congruence. }
  split.
  { pose proof (inv_dequeue_from fuel 0 st1 Hinv1) as Hi. fold (dequeue fuel) in Hi.
    rewrite Hd in Hi. exact Hi. }
  split.
  { intros l ->. eapply known_mono; [exact Hc2|]. eapply enqueue_Ret_known; eauto. }
  split.
  { eapply dequeue_from_Ret_processed; [exact Hd | exact Hinv1 |]. intros j l Hj. lia. }
  intros p Hp. apply list_elem_of_fmap in Hp as ([p' path] & -> & Hin). simpl.
  eapply checkPrototypes_Ret_known; [rewrite Hc; reflexivity | exact Hin].
Qed.

(** Every node reached from the root of a returning call, by a path that
    leaves no member the fringe set had at the start, was in the fringe
    set at the start or is a member of [toFreeze], frozen, and now in the
    fringe set. *)
Lemma harden_reaches fuel l0 st r st' :
  wf_heap (st_heap st) ->
  harden fuel (VRef l0) st = (Ret r, st') ->
  ∀ l, reachable (st_heap st') (fringeSet st) l0 l ->
    l ∈ fringeSet st ∨
    (l ∈ toFreeze st' ∧ hardened (st_heap st') l ∧ l ∈ fringeSet st').
Proof using hook_js.
  clear hook_fixed. clear call_foreign.
  intros Hwf Hrun.
  destruct (harden_Ret_walk _ _ _ _ _ Hwf Hrun)
    as (st2 & -> & Hfr & Hinv & Hroot & Hproc & Hprotos).
  assert (Hheap : st_heap (commit st2).2 = st_heap st2).
  { rewrite commit_run. destruct (toFreeze st2); reflexivity. }
  assert (Hwork : toFreeze (commit st2).2 = toFreeze st2).
  { rewrite commit_run. destruct (toFreeze st2) eqn:E; simpl; congruence. }
  rewrite Hheap, Hwork.
  assert (Hreach : ∀ l, reachable (st_heap st2) (fringeSet st) l0 l -> known st2 l).
  { intros l Hl. induction Hl as [|a b Ha IH Hstop (o & Hoa & Hlink)]; [auto|].
    destruct IH as [IH|IH]; [rewrite Hfr in IH; contradiction|].
    destruct (Hproc a IH) as (o' & Ho' & _ & Hvals & Hproto).
    rewrite Hoa in Ho'. injection Ho' as <-.
    unfold out_links in Hlink. apply elem_of_app in Hlink as [Hp|Hv].
    - apply Hprotos, Hproto. destruct (proto o); simpl in Hp; set_solver.
    - apply Hvals. exact Hv. }
  intros l Hl. destruct (Hreach l Hl) as [Hk|Hk]; [left; congruence|].
  right. split; [exact Hk|]. split.
  - destruct (Hproc l Hk) as (o & Ho & Hfrz & _). exists o. auto.
  - rewrite commit_fringeSet. set_solver.
Qed.

(** ** Termination *)

Lemma dequeue_from_Ret_visits fuel :
  ∀ i st st',
    dequeue_from fuel i st = (Ret tt, st') ->
    visits (st_log st') = visits (st_log st) ++ drop i (toFreeze st').
Proof.
  clear hook_fixed hook_js.
  induction fuel as [|fuel IH]; intros i st st' H; simpl in H;
    destruct (toFreeze st !! i) as [obj|] eqn:Hi; try discriminate.
  1,3: injection H as <-; apply lookup_ge_None in Hi;
    rewrite drop_ge, app_nil_r by exact Hi; reflexivity.
  apply bind_Ret in H as ([] & s1 & H1 & H2).
  rewrite (IH _ _ _ H2).
  assert (Hobj : toFreeze st' !! i = Some obj).
  { pose proof (ctl_freezeAndTraverse obj st) as (_ & Hp1 & _).
    pose proof (ctl_dequeue_from fuel (S i) s1) as (_ & Hp2 & _).
    rewrite H1 in Hp1. rewrite H2 in Hp2. simpl in *.
    destruct Hp1 as [k1 Hk1]. destruct Hp2 as [k2 Hk2]. rewrite Hk2, Hk1.
    rewrite <- app_assoc. apply lookup_app_l_Some. exact Hi. }
  rewrite (drop_S _ _ _ Hobj).
  apply freezeAndTraverse_Ret in H1 as (sp & sf & Hp & Hf & Ht).
  pose proof (visits_prepare obj st) as V1. rewrite Hp in V1.
  pose proof (visits_freezeWithOverride obj sp) as V2. rewrite Hf in V2.
  pose proof (visits_traversal (proto_at (st_heap sf) obj)
                (path_or_unknown (paths sf !! obj)) (props_at (st_heap sf) obj)
                (emit (EvGetOwnPropertyDescriptors obj) (emit (EvGetPrototypeOf obj) sf)))
    as V3.
  rewrite Ht in V3. unfold same_visits in *. simpl in *.
  rewrite V3, !visits_app, V2, V1. simpl. rewrite app_nil_r, <- app_assoc. reflexivity.
Qed.

Lemma harden_total fuel root st :
  wf_heap (st_heap st) ->
  weight (st_heap st) ≤ fuel ->
  (harden fuel root st).1 ≠ Diverge.
Proof using hook_fixed hook_js.
  intros Hwf Hfuel.
  destruct (harden fuel root st) as [r st'] eqn:H. simpl. intros ->.
  unfold harden in H.
  apply bind_inv in H as [([] & s0 & H0 & H) | [(e & _ & He) | [H _]]];
    try discriminate.
  injection H0 as <-.
  pose proof (settles_enqueue root None _ (inv_fresh_collections st Hwf)) as [Hinv Hw].
  apply bind_inv in H as [([] & st1 & H1 & H) | [(e & _ & He) | [H _]]];
    try discriminate.
  2:{ eapply total_enqueue. rewrite H. reflexivity. }
  rewrite H1 in Hinv, Hw. simpl in Hinv, Hw.
  apply bind_inv in H as [([] & st2 & H2 & H) | [(e & _ & He) | [H _]]];
    try discriminate.
  2:{ eapply (dequeue_from_terminates fuel 0 st1 Hinv); [lia|].
      fold (dequeue fuel). rewrite H. reflexivity. }
  apply bind_inv in H as [([] & st3 & H3 & H) | [(e & _ & He) | [H _]]];
    try discriminate.
  2:{ eapply total_checkPrototypes. rewrite H. reflexivity. }
  apply bind_inv in H as [([] & st4 & H4 & H) | [(e & _ & He) | [H _]]];
    try discriminate.
  eapply total_commit. rewrite H. reflexivity.
Qed.

(** C7, as the code has it.  On a well-formed heap, with a hook that is
    JavaScript code and does not grow the graph, [harden] does not run out
    of fuel once the fuel covers the weight of the heap; a cyclic graph is
    no exception.  When it returns, the nodes visited by the call are the
    members of [toFreeze], in insertion order, none of them twice; and
    every node reached from the root, by a path that leaves no member the
    fringe set had at the start, is one of them unless it was in the
    fringe set: it is visited exactly once. *)
Theorem harden_terminates fuel root st :
  wf_heap (st_heap st) ->
  weight (st_heap st) ≤ fuel ->
  (harden fuel root st).1 ≠ Diverge ∧
  ∀ r st', harden fuel root st = (Ret r, st') ->
    NoDup (toFreeze st') ∧
    visits (st_log st') = visits (st_log st) ++ toFreeze st' ∧
    ∀ l0 l, root = VRef l0 ->
      reachable (st_heap st') (fringeSet st) l0 l ->
      l ∉ fringeSet st -> l ∈ toFreeze st'.
Proof using hook_fixed hook_js.
  intros Hwf Hfuel. split.
  - apply harden_total; assumption.
  - intros r st' Hrun.
    assert (Hreach : ∀ l0 l, root = VRef l0 ->
              reachable (st_heap st') (fringeSet st) l0 l ->
              l ∉ fringeSet st -> l ∈ toFreeze st').
    { intros l0 l -> Hl Hnf.
      destruct (harden_reaches _ _ _ _ _ Hwf Hrun l Hl) as [Hin | (Hin & _)];
        [contradiction | exact Hin]. }
    apply harden_Ret in Hrun as (st1 & st2 & He & Hd & _ & -> & _).
    assert (Hinv : inv st2).
    { pose proof (inv_enqueue root None _ (inv_fresh_collections st Hwf)) as Hi.
      rewrite He in Hi.
      pose proof (inv_dequeue_from fuel 0 st1 Hi) as Hi2. fold (dequeue fuel) in Hi2.
      rewrite Hd in Hi2. exact Hi2. }
    assert (Ht : toFreeze (commit st2).2 = toFreeze st2)
      by (rewrite commit_run; simpl; destruct (toFreeze st2) eqn:E; simpl; congruence).
    assert (Hl : st_log (commit st2).2 = st_log st2)
      by (rewrite commit_run; simpl; destruct (toFreeze st2); reflexivity).
    split; [rewrite Ht; apply Hinv|]. split; [|exact Hreach].
    rewrite Ht, Hl.
    rewrite (dequeue_from_Ret_visits _ _ _ _ Hd). rewrite drop_0.
    pose proof (visits_enqueue root None (fresh_collections st)) as V.
    rewrite He in V. unfold same_visits in V. simpl in V. rewrite V. reflexivity.
Qed.

(** ** Order of the steps of one visit *)

(** The traversal writes nothing to the log and leaves the heap alone. *)
Definition quiet (st st' : state) : Prop :=
  st_log st' = st_log st ∧ st_heap st' = st_heap st.

#[local] Instance quiet_preorder : PreOrder quiet.
Proof.
  split; [intros st; split; reflexivity|].
  intros a b c (L1 & H1) (L2 & H2). split; congruence.
Qed.

Lemma quiet_enqueue v p : stable quiet (enqueue v p).
Proof.
  destruct v as [pr|l]; [intros st; split; reflexivity|].
  intros st. unfold enqueue, bind, gets, raise, ret, toFreeze_add, paths_set, modify.
  simpl. repeat case_match; split; reflexivity.
Qed.

Lemma quiet_traversal pr path descs :
  stable quiet (record_prototype pr path;; forEach (traverse_property path) descs).
Proof.
  apply stable_bind; [apply _ | |].
  { intros st. unfold record_prototype, bind, gets, ret, modify, paths_set.
    destruct pr; simpl; repeat case_match; split; reflexivity. }
  intros _. apply stable_forEach; [apply _|]. intros [k d]. unfold traverse_property.
  destruct d; [apply quiet_enqueue|].
  apply stable_bind; [apply _ | apply quiet_enqueue | intros _; apply quiet_enqueue].
Qed.

Lemma freezeAndTraverse_run obj st sp sf :
  prepare obj st = (Ret tt, sp) ->
  freezeWithOverride obj sp = (Ret tt, sf) ->
  freezeAndTraverse obj st =
    (record_prototype (proto_at (st_heap sf) obj) (path_or_unknown (paths sf !! obj));;
     forEach (traverse_property (path_or_unknown (paths sf !! obj)))
             (props_at (st_heap sf) obj))
      (emit (EvGetOwnPropertyDescriptors obj) (emit (EvGetPrototypeOf obj) sf)).
Proof.
  intros Hp Hf. unfold freezeAndTraverse.
  rewrite (bind_run _ _ _ _ _ Hp), (bind_run _ _ _ _ _ Hf). reflexivity.
Qed.

Definition hook_events (obj : loc) : list event :=
  match naivePrepareObject with
  | Some _ => [EvPrepare obj]
  | None => []
  end.

Lemma prepare_log obj st :
  st_log (prepare obj st).2 = st_log st ++ hook_events obj ∧
  toFreeze (prepare obj st).2 = toFreeze st ∧
  prototypes (prepare obj st).2 = prototypes st ∧
  (prepare obj st).1 ≠ Diverge.
Proof.
  clear hook_fixed hook_js. unfold prepare, hook_events. destruct naivePrepareObject as [f|].
  - destruct (f obj (st_heap st)) as [[e|] h]; simpl; repeat split; discriminate.
  - simpl. rewrite app_nil_r. repeat split; discriminate.
Qed.

(** The events of the override loop never read a link, and the
    properties they define are those of [obj]. *)
Definition hardening_event (obj : loc) (n : nat) (e : event) : Prop :=
  match e with
  | EvAssign g _ => n ≤ g
  | EvFreeze g => n ≤ g
  | EvDefineProperty l _ => l = obj
  | _ => False
  end.

Lemma override_events_hardening obj ps :
  ∀ n, Forall (hardening_event obj n) (override_events obj n ps).
Proof.
  induction ps as [|[k d] ps IH]; intros n; [constructor|].
  destruct d as [v w e [|]|g s e [|]]; simpl; auto.
  - repeat (constructor; [simpl; lia || reflexivity|]).
    eapply Forall_impl; [apply (IH (S (S n)))|].
    intros [] H; simpl in *; auto; lia.
  - constructor; [reflexivity | apply IH].
Qed.

(** C8. A visit of a member [obj] of [toFreeze] begins with the prepare
    hook, when there is one.  If the hook returns, the log of the visit is
    then: the descriptor read and the rewriting of [freezeWithOverride],
    which only touch fresh functions and define properties of [obj];
    [freeze(obj)]; and only after that [getPrototypeOf(obj)] and the
    descriptor read whose values are enqueued.  The object these two read
    is the frozen one, and the traversal changes neither heap nor log. *)
Theorem freezeAndTraverse_freezes_before_reading obj st r st' :
  inv st -> obj ∈ toFreeze st ->
  freezeAndTraverse obj st = (r, st') ->
  (∃ e, prepare obj st = (Raise e, st') ∧ r = Raise e ∧
        st_log st' = st_log st ++ hook_events obj) ∨
  (∃ sp o,
     prepare obj st = (Ret tt, sp) ∧ st_heap sp !! obj = Some o ∧
     st_log st' =
       st_log st ++ hook_events obj
         ++ [EvGetOwnPropertyDescriptors obj]
         ++ override_events obj (length (st_heap sp)) (props o)
         ++ [EvFreeze obj]
         ++ [EvGetPrototypeOf obj; EvGetOwnPropertyDescriptors obj] ∧
     Forall (hardening_event obj (length (st_heap sp)))
            (override_events obj (length (st_heap sp)) (props o)) ∧
     st_heap st' !! obj = Some (overridden (length (st_heap sp)) o) ∧
     isFrozen (overridden (length (st_heap sp)) o)).
Proof using hook_js.
  clear hook_fixed. intros Hinv Hobj Hrun.
  pose proof (inv_prepare obj st Hinv) as Hinvp.
  pose proof (prepare_log obj st) as (Hlog & Htf & _ & Htot).
  destruct (prepare obj st) as [[[]|e|] sp] eqn:Hp; simpl in *; [| |contradiction].
  2:{ left. unfold freezeAndTraverse, bind in Hrun. rewrite Hp in Hrun.
      injection Hrun as <- <-. eauto. }
  right. destruct Hinvp as (Hb & Hnd & Hwf). rewrite <- Htf in Hobj.
  destruct (lookup_lt_is_Some_2 (st_heap sp) obj (Hb obj Hobj)) as [o Ho].
  assert (Hwo : wf_object o).
  { unfold wf_heap in Hwf. rewrite Forall_forall in Hwf. apply Hwf.
    eapply list_elem_of_lookup_2; eauto. }
  pose proof (freezeWithOverride_run obj sp o Ho Hwo Hb) as Hfwo.
  match type of Hfwo with _ = (_, ?s) => set (sf := s) in * end.
  rewrite (freezeAndTraverse_run _ _ _ sf Hp Hfwo) in Hrun.
  pose proof (quiet_traversal (proto_at (st_heap sf) obj)
                (path_or_unknown (paths sf !! obj)) (props_at (st_heap sf) obj)
                (emit (EvGetOwnPropertyDescriptors obj) (emit (EvGetPrototypeOf obj) sf)))
    as Hq.
  rewrite Hrun in Hq. destruct Hq as [Hql Hqh]. simpl in Hql, Hqh.
  exists sp, o. split; [reflexivity|]. split; [exact Ho|]. split.
  { rewrite Hql, Hlog. simpl. rewrite <- !app_assoc. simpl.
    rewrite <- !app_assoc. reflexivity. }
  split; [apply override_events_hardening|]. split.
  - rewrite Hqh. rewrite lookup_app_l by (rewrite length_insert; eapply lookup_lt_Some; eauto).
    apply list_lookup_insert_eq. eapply lookup_lt_Some; eauto.
  - apply isFrozen_freeze_object.
Qed.

(** ** The accessor pair of a rewritten property *)

Lemma lookup_prop_freeze k ps :
  lookup_prop k (map (fun kd => (kd.1, freeze_desc kd.2)) ps) =
    freeze_desc <$> lookup_prop k ps.
Proof.
  induction ps as [|[k' d'] ps IH]; [reflexivity|]. simpl.
  destruct (decide (k = k')); [reflexivity | exact IH].
Qed.

Definition override_calls (obj g s : loc) (k : key) : list event :=
  [EvAssign g (KStr "value"); EvFreeze g; EvFreeze s; EvDefineProperty obj k].

Lemma override_at_key obj ps :
  ∀ n k v w e,
    NoDup ps.*1 -> (k, DataDesc v w e true) ∈ ps ->
    ∃ j,
      lookup_prop k (override_descs n ps) =
        Some (AccessorDesc (VRef (n + j)) (VRef (S (n + j))) e false) ∧
      override_allocs obj ps !! j = Some (getter_object v) ∧
      override_allocs obj ps !! (S j) = Some (setter_object obj k) ∧
      ∃ e1 e3, override_events obj n ps =
                 e1 ++ override_calls obj (n + j) (S (n + j)) k ++ e3.
Proof.
  induction ps as [|[k0 d0] ps IH]; intros n k v w e Hnd Hin; [inversion Hin|].
  rewrite fmap_cons in Hnd. apply NoDup_cons in Hnd as [Hk0 Hnd].
  apply elem_of_cons in Hin as [Heq|Hin].
  - injection Heq as <- <-. exists 0. simpl.
    rewrite decide_True by reflexivity. replace (n + 0) with n by lia.
    repeat split. exists [], (override_events obj (S (S n)) ps). reflexivity.
  - assert (Hne : k ≠ k0).
    { intros ->. apply Hk0. apply (list_elem_of_fmap_2 fst) in Hin. exact Hin. }
    destruct d0 as [v0 w0 e0 [|]|g0 s0 e0 [|]]; simpl;
      rewrite decide_False by exact Hne.
    + destruct (IH (S (S n)) k v w e Hnd Hin) as (j & H1 & H2 & H3 & e1 & e3 & H4).
      exists (S (S j)). replace (n + S (S j)) with (S (S n) + j) by lia.
      repeat split; auto.
      exists (override_calls obj n (S n) k0 ++ e1), e3. rewrite H4.
      rewrite <- app_assoc. reflexivity.
    + destruct (IH n k v w e Hnd Hin) as (j & H1 & H2 & H3 & e1 & e3 & H4).
      exists j. repeat split; auto. exists e1, e3. exact H4.
    + destruct (IH n k v w e Hnd Hin) as (j & H1 & H2 & H3 & e1 & e3 & H4).
      exists j. repeat split; auto.
      exists (EvDefineProperty obj k0 :: e1), e3. rewrite H4. reflexivity.
    + destruct (IH n k v w e Hnd Hin) as (j & H1 & H2 & H3 & e1 & e3 & H4).
      exists j. repeat split; auto. exists e1, e3. exact H4.
Qed.

(** C10. When [freezeWithOverride] rewrites a configurable data property
    [k] of [obj] holding [v], it returns, and [k] is then an accessor
    whose getter [g] and setter [s] are fresh functions.  The getter has an
    own property [value] holding [v], read-only and enumerable; it is
    frozen; the assignment of [value] comes before its freeze in the log;
    [g] and [s] were put into [toFreeze] directly.  Whenever [g] is later
    visited and the visit returns, [v] is in the fringe set or in
    [toFreeze]. *)
Theorem freezeWithOverride_getter_carries_value obj st o k v w e :
  inv st ->
  st_heap st !! obj = Some o ->
  (k, DataDesc v w e true) ∈ props o ->
  ∃ st' g s,
    freezeWithOverride obj st = (Ret tt, st') ∧
    lookup_prop k (props_at (st_heap st') obj) =
      Some (AccessorDesc (VRef g) (VRef s) e false) ∧
    st_heap st' !! g = Some (getter_object v) ∧
    lookup_prop (KStr "value") (props (getter_object v)) =
      Some (DataDesc v false true false) ∧
    isFrozen (getter_object v) ∧
    (g ∉ toFreeze st) ∧ (s ∉ toFreeze st) ∧ g ∈ toFreeze st' ∧ s ∈ toFreeze st' ∧
    (∃ l1 l3, st_log st' = l1 ++ override_calls obj g s k ++ l3) ∧
    (∀ s2 s3 l,
       heap_le (st_heap st') (st_heap s2) ->
       freezeAndTraverse g s2 = (Ret tt, s3) ->
       v = VRef l -> known s3 l).
Proof using hook_js.
  clear toStr call_foreign.
  clear hook_fixed. intros (Hb & Hnd & Hwf) Hobj Hin.
  assert (Hwo : wf_object o).
  { unfold wf_heap in Hwf. rewrite Forall_forall in Hwf. apply Hwf.
    eapply list_elem_of_lookup_2; eauto. }
  assert (Hlen : obj < length (st_heap st)) by (eapply lookup_lt_Some; eauto).
  destruct (override_at_key obj (props o) (length (st_heap st)) k v w e Hwo Hin)
    as (j & Hd & Hg & Hs & e1 & e3 & Hev).
  set (n := length (st_heap st)) in *.
  eexists _, (n + j), (S (n + j)).
  split; [apply (freezeWithOverride_run obj st o Hobj Hwo Hb)|]. simpl. fold n.
  assert (Hgl : j < length (override_allocs obj (props o)))
    by (eapply lookup_lt_Some; eauto).
  assert (Hsl : S (j) < length (override_allocs obj (props o)))
    by (eapply lookup_lt_Some; eauto).
  assert (Hheap_g : (<[obj:=overridden n o]> (st_heap st) ++ override_allocs obj (props o))
                      !! (n + j) = Some (getter_object v)).
  { rewrite lookup_app_r by (rewrite length_insert; unfold n; lia).
    rewrite length_insert. replace (n + j - length (st_heap st)) with (j)
      by (unfold n; lia). exact Hg. }
  split.
  { unfold props_at. rewrite lookup_app_l by (rewrite length_insert; exact Hlen).
    rewrite list_lookup_insert_eq by exact Hlen. unfold overridden. simpl.
    rewrite lookup_prop_freeze, Hd. reflexivity. }
  split; [exact Hheap_g|].
  split; [reflexivity|].
  split; [apply isFrozen_freeze_object|].
  split; [intros Hc; apply Hb in Hc; fold n in Hc; lia|].
  split; [intros Hc; apply Hb in Hc; fold n in Hc; lia|].
  split; [apply elem_of_app; right; apply elem_of_seq; lia|].
  split; [apply elem_of_app; right; apply elem_of_seq; lia|].
  split.
  { exists (st_log st ++ EvGetOwnPropertyDescriptors obj :: e1), (e3 ++ [EvFreeze obj]).
    rewrite Hev. simpl. rewrite <- ?app_assoc. simpl. rewrite <- ?app_assoc.
    reflexivity. }
  intros s2 s3 l Hle Hvisit ->.
  destruct (Hle _ _ Hheap_g) as (o2 & Ho2 & _ & _ & Hsame2).
  rewrite (Hsame2 (isFrozen_freeze_object _)) in Ho2.
  assert (Hg2 : n + j < length (st_heap s2)) by (eapply lookup_lt_Some; eauto).
  destruct (freezeAndTraverse_Ret_processed _ _ _ Hvisit Hg2) as (o3 & Ho3 & _ & Hlinks & _).
  pose proof (hp_freezeAndTraverse (n + j) s2) as Hle3. rewrite Hvisit in Hle3.
  unfold heap_step in Hle3. simpl in Hle3.
  destruct (Hle3 _ _ Ho2) as (o3' & Ho3' & _ & _ & Hsame3).
  rewrite (Hsame3 (isFrozen_freeze_object _)) in Ho3'. rewrite Ho3 in Ho3'.
  injection Ho3' as ->. apply Hlinks. apply elem_of_value_links.
  exists (KStr "value"), (DataDesc (VRef l) false true false). split; simpl; set_solver.
Qed.

(** ** Null prototypes *)

Definition protos_same (st st' : state) : Prop := prototypes st' = prototypes st.

#[local] Instance protos_same_preorder : PreOrder protos_same.
Proof.
  split; [intros st; reflexivity|]. intros a b c. unfold protos_same. congruence.
Qed.

Lemma protos_enqueue v p : stable protos_same (enqueue v p).
Proof.
  destruct v as [pr|l]; [intros st; reflexivity|].
  intros st. unfold enqueue, bind, gets, raise, ret, toFreeze_add, paths_set, modify.
  simpl. repeat case_match; reflexivity.
Qed.

Lemma protos_traverse path descs :
  stable protos_same (forEach (traverse_property path) descs).
Proof.
  apply stable_forEach; [apply _|]. intros [k d]. unfold traverse_property.
  destruct d; [apply protos_enqueue|].
  apply stable_bind; [apply _ | apply protos_enqueue | intros _; apply protos_enqueue].
Qed.

(** Visiting a node whose prototype link is null registers nothing. *)
Lemma freezeAndTraverse_null_prototype obj st r st' :
  inv st -> obj ∈ toFreeze st ->
  freezeAndTraverse obj st = (r, st') ->
  proto_at (st_heap st') obj = None ->
  prototypes st' = prototypes st.
Proof using hook_js.
  clear hook_fixed. intros Hinv Hobj Hrun Hnull.
  pose proof (inv_prepare obj st Hinv) as Hinvp.
  pose proof (prepare_log obj st) as (_ & Htf & Hpr & Htot).
  destruct (prepare obj st) as [[[]|e|] sp] eqn:Hp; simpl in *; [| |contradiction].
  2:{ unfold freezeAndTraverse, bind in Hrun. rewrite Hp in Hrun.
      injection Hrun as <- <-. exact Hpr. }
  destruct Hinvp as (Hb & Hnd & Hwf). rewrite <- Htf in Hobj.
  destruct (lookup_lt_is_Some_2 (st_heap sp) obj (Hb obj Hobj)) as [o Ho].
  assert (Hwo : wf_object o).
  { unfold wf_heap in Hwf. rewrite Forall_forall in Hwf. apply Hwf.
    eapply list_elem_of_lookup_2; eauto. }
  pose proof (freezeWithOverride_run obj sp o Ho Hwo Hb) as Hfwo.
  match type of Hfwo with _ = (_, ?s) => set (sf := s) in * end.
  rewrite (freezeAndTraverse_run _ _ _ sf Hp Hfwo) in Hrun.
  pose proof (quiet_traversal (proto_at (st_heap sf) obj)
                (path_or_unknown (paths sf !! obj)) (props_at (st_heap sf) obj)
                (emit (EvGetOwnPropertyDescriptors obj) (emit (EvGetPrototypeOf obj) sf)))
    as Hq.
  rewrite Hrun in Hq. destruct Hq as [_ Hqh]. simpl in Hqh.
  assert (Hproto : proto_at (st_heap sf) obj = None).
  { rewrite <- Hnull, Hqh. reflexivity. }
  rewrite Hproto in Hrun. cbn [record_prototype] in Hrun.
  rewrite (bind_run _ _ _ tt _ eq_refl) in Hrun.
  pose proof (protos_traverse (path_or_unknown (paths sf !! obj))
                (props_at (st_heap sf) obj)
                (emit (EvGetOwnPropertyDescriptors obj) (emit (EvGetPrototypeOf obj) sf)))
    as Hps.
  rewrite Hrun in Hps. unfold protos_same in Hps. simpl in Hps.
  rewrite Hps. exact Hpr.
Qed.

(** ** Assigning to a rewritten property *)

(** [c] finds the property [k] of [obj] by going up [n] prototype links;
    no object below [obj] on the way has an own [k]. *)
Inductive inherits (h : heap) (k : key) (obj : loc) : loc -> nat -> Prop :=
| inherits_here : inherits h k obj obj 0
| inherits_up c o p n :
    h !! c = Some o -> lookup_prop k (props o) = None -> proto o = Some p ->
    inherits h k obj p n -> inherits h k obj c (S n).

Definition read_only_message (obj : loc) (k : key) : option string :=
  match template_key k, toStr obj with
  | Some n, Some o =>
      Some ("Cannot assign to read only property '" +:+ n +:+ "' of object '" +:+ o +:+ "'")
  | _, _ => None
  end.

Lemma OrdinarySet_inherits h k obj c n :
  inherits h k obj c n ->
  ∀ fuel nv recv st g s e cf,
    st_heap st = h ->
    lookup_prop k (props_at h obj) = Some (AccessorDesc g (VRef s) e cf) ->
    n < fuel ->
    OrdinarySet fuel c k nv recv st = (call s recv [nv];; ret true) st.
Proof.
  induction 1 as [|c o p n Hc Hk Hp Hin IH]; intros fuel nv recv st g s e cf Hh Hacc Hfuel;
    (destruct fuel as [|fuel]; [lia|]); cbn [OrdinarySet]; unfold bind at 1, gets; simpl.
  - rewrite Hh, Hacc. reflexivity.
  - rewrite Hh. unfold props_at at 1. rewrite Hc, Hk. unfold bind at 1, gets. simpl.
    rewrite Hh. unfold proto_at. rewrite Hc, Hp.
    eapply IH; eauto. lia.
Qed.

Lemma OrdinaryGet_inherits h k obj c n :
  inherits h k obj c n ->
  ∀ fuel recv st g s e cf,
    st_heap st = h ->
    lookup_prop k (props_at h obj) = Some (AccessorDesc (VRef g) s e cf) ->
    n < fuel ->
    OrdinaryGet fuel c k recv st = call g recv [] st.
Proof.
  induction 1 as [|c o p n Hc Hk Hp Hin IH]; intros fuel recv st g s e cf Hh Hacc Hfuel;
    (destruct fuel as [|fuel]; [lia|]); cbn [OrdinaryGet]; unfold bind at 1, gets; simpl.
  - rewrite Hh, Hacc. reflexivity.
  - rewrite Hh. unfold props_at at 1. rewrite Hc, Hk. unfold bind at 1, gets. simpl.
    rewrite Hh. unfold proto_at. rewrite Hc, Hp.
    eapply IH; eauto. lia.
Qed.

Lemma call_override_set_self s obj k nv st :
  body <$> st_heap st !! s = Some (OverrideSet obj k) ->
  call s (VRef obj) [nv] st =
    (Raise (match read_only_message obj k with
            | Some msg => ReadOnlyViolation msg
            | None => HostError "Cannot convert to string"
            end), st).
Proof.
  intros Hs. unfold call. rewrite Hs. unfold override_set, read_only_message. simpl.
  rewrite decide_True by reflexivity.
  destruct (template_key k), (toStr obj); reflexivity.
Qed.

Lemma call_override_set_other s obj k c nv st h' :
  body <$> st_heap st !! s = Some (OverrideSet obj k) ->
  c ≠ obj ->
  define_at (st_heap st) c k (DataDesc nv true true true) = Some h' ->
  call s (VRef c) [nv] st =
    (Ret (VPrim PUndefined), emit (EvDefineProperty c k) (set_heap h' st)).
Proof.
  intros Hs Hne Hd. unfold call. rewrite Hs. unfold override_set. simpl.
  rewrite decide_False by congruence.
  rewrite (bind_run _ _ _ _ _ (defineProperty_run _ _ _ _ _ Hd)). reflexivity.
Qed.

Lemma call_override_get g v this st :
  body <$> st_heap st !! g = Some (OverrideGet v) ->
  call g this [] st = (Ret v, st).
Proof. intros Hg. unfold call. rewrite Hg. reflexivity. Qed.

Lemma inherits_ne h k obj c n d :
  inherits h k obj c (S n) -> lookup_prop k (props_at h obj) = Some d -> c ≠ obj.
Proof.
  intros Hin Hd ->. inversion Hin as [|c o p n' Hc Hk Hp Hrest]; subst.
  unfold props_at in Hd. rewrite Hc in Hd. congruence.
Qed.

(** The accessor pair that [freezeWithOverride] leaves for a configurable
    data property, in any later heap. *)
Definition rewritten (h : heap) (obj : loc) (k : key) (v : value) (g s : loc) : Prop :=
  (∃ e, lookup_prop k (props_at h obj) = Some (AccessorDesc (VRef g) (VRef s) e false)) ∧
  body <$> h !! g = Some (OverrideGet v) ∧
  body <$> h !! s = Some (OverrideSet obj k).

Lemma freezeWithOverride_rewritten obj st0 o k v w e st1 h :
  inv st0 ->
  st_heap st0 !! obj = Some o ->
  (k, DataDesc v w e true) ∈ props o ->
  freezeWithOverride obj st0 = (Ret tt, st1) ->
  heap_le (st_heap st1) h ->
  ∃ g s, rewritten h obj k v g s.
Proof.
  intros (Hb & Hnd & Hwf) Hobj Hin Hrun Hle.
  assert (Hwo : wf_object o).
  { unfold wf_heap in Hwf. rewrite Forall_forall in Hwf. apply Hwf.
    eapply list_elem_of_lookup_2; eauto. }
  assert (Hlen : obj < length (st_heap st0)) by (eapply lookup_lt_Some; eauto).
  destruct (override_at_key obj (props o) (length (st_heap st0)) k v w e Hwo Hin)
    as (j & Hd & Hg & Hs & _).
  rewrite (freezeWithOverride_run obj st0 o Hobj Hwo Hb) in Hrun.
  injection Hrun as <-. simpl in Hle.
  set (n := length (st_heap st0)) in *.
  set (h1 := <[obj:=overridden n o]> (st_heap st0) ++ override_allocs obj (props o)) in *.
  assert (H1obj : h1 !! obj = Some (overridden n o)).
  { unfold h1. rewrite lookup_app_l by (rewrite length_insert; exact Hlen).
    apply list_lookup_insert_eq. exact Hlen. }
  assert (H1g : h1 !! (n + j) = Some (getter_object v)).
  { unfold h1. rewrite lookup_app_r by (rewrite length_insert; unfold n; lia).
    rewrite length_insert. replace (n + j - length (st_heap st0)) with j by (unfold n; lia).
    exact Hg. }
  assert (H1s : h1 !! (S (n + j)) = Some (setter_object obj k)).
  { unfold h1. rewrite lookup_app_r by (rewrite length_insert; unfold n; lia).
    rewrite length_insert.
    replace (S (n + j) - length (st_heap st0)) with (S j) by (unfold n; lia).
    exact Hs. }
  destruct (Hle _ _ H1obj) as (o2 & Ho2 & _ & _ & Hsame).
  rewrite (Hsame (isFrozen_freeze_object _)) in Ho2.
  destruct (Hle _ _ H1g) as (g2 & Hg2 & _ & Hbg & _).
  destruct (Hle _ _ H1s) as (s2 & Hs2 & _ & Hbs & _).
  exists (n + j), (S (n + j)). split; [|split].
  - exists e. unfold props_at. rewrite Ho2. unfold overridden. simpl.
    rewrite lookup_prop_freeze, Hd. reflexivity.
  - rewrite Hg2. simpl. rewrite Hbg. reflexivity.
  - rewrite Hs2. simpl. rewrite Hbs. reflexivity.
Qed.

Lemma lookup_prop_app_new k d ps :
  lookup_prop k ps = None -> lookup_prop k (ps ++ [(k, d)]) = Some d.
Proof.
  intros Hk. apply lookup_prop_None in Hk.
  rewrite lookup_prop_app_notin by exact Hk. simpl.
  rewrite decide_True by reflexivity. reflexivity.
Qed.

(** C2, as the code has it.  Let [freezeWithOverride] have rewritten the
    configurable data property [k] of [obj], which held [v]; take any later
    heap.  Assigning to [k] on [obj] itself throws the ReadOnlyViolation
    error, when the key is a string and [obj] has a string form, and
    changes nothing.  Reading [k] on [obj] gives [v].  Assigning to [k] on
    an extensible object that inherits [k] from [obj] returns, gives that
    object an own writable, enumerable, configurable data property holding
    the new value, and leaves [obj] as it was: reading [k] there still
    gives [v]. *)
Theorem override_setter_shadows_on_receiver obj st0 o k v w e st1 st :
  inv st0 ->
  st_heap st0 !! obj = Some o ->
  (k, DataDesc v w e true) ∈ props o ->
  freezeWithOverride obj st0 = (Ret tt, st1) ->
  heap_le (st_heap st1) (st_heap st) ->
  (∀ fuel nv msg,
     0 < fuel -> read_only_message obj k = Some msg ->
     assign fuel obj k nv st = (Raise (ReadOnlyViolation msg), st)) ∧
  (∀ fuel, 0 < fuel -> read fuel obj k st = (Ret v, st)) ∧
  (∀ c oc n fuel nv,
     inherits (st_heap st) k obj c (S n) ->
     st_heap st !! c = Some oc -> extensible oc = true ->
     S n < fuel ->
     ∃ st',
       assign fuel c k nv st = (Ret tt, st') ∧
       st_heap st' =
         <[c := with_props oc (props oc ++ [(k, DataDesc nv true true true)])]> (st_heap st) ∧
       lookup_prop k (props_at (st_heap st') c) = Some (DataDesc nv true true true) ∧
       st_heap st' !! obj = st_heap st !! obj ∧
       read fuel c k st' = (Ret nv, st') ∧
       read fuel obj k st' = (Ret v, st')).
Proof.
  intros Hinv Hobj Hin Hrun Hle.
  destruct (freezeWithOverride_rewritten _ _ _ _ _ _ _ _ _ Hinv Hobj Hin Hrun Hle)
    as (g & s & (e' & Hacc) & Hg & Hs).
  split; [|split].
  - intros fuel nv msg Hfuel Hmsg. unfold assign.
    unfold bind at 1.
    rewrite (OrdinarySet_inherits _ k obj obj 0 (inherits_here _ _ _) fuel nv (VRef obj) st
               _ _ _ _ eq_refl Hacc Hfuel).
    unfold bind at 1. rewrite (call_override_set_self _ _ _ _ _ Hs), Hmsg. reflexivity.
  - intros fuel Hfuel. unfold read.
    rewrite (OrdinaryGet_inherits _ k obj obj 0 (inherits_here _ _ _) fuel (VRef obj) st
               _ _ _ _ eq_refl Hacc Hfuel).
    apply call_override_get. exact Hg.
  - intros c oc n fuel nv Hinh Hc Hext Hfuel.
    assert (Hne : c ≠ obj) by (eapply inherits_ne; eauto).
    assert (Hnk : lookup_prop k (props oc) = None).
    { inversion Hinh as [|c' o' p n' Hc' Hk' Hp' Hrest]; subst. congruence. }
    set (oc' := with_props oc (props oc ++ [(k, DataDesc nv true true true)])).
    assert (Hd : define_at (st_heap st) c k (DataDesc nv true true true) =
                 Some (<[c := oc']> (st_heap st))).
    { unfold define_at, define_own. rewrite Hc, Hnk, Hext. reflexivity. }
    assert (Hclen : c < length (st_heap st)) by (eapply lookup_lt_Some; eauto).
    eexists. split.
    { unfold assign. unfold bind at 1.
      rewrite (OrdinarySet_inherits _ k obj c (S n) Hinh fuel nv (VRef c) st
                 _ _ _ _ eq_refl Hacc Hfuel).
      unfold bind at 1. rewrite (call_override_set_other _ _ _ _ _ _ _ Hs Hne Hd).
      reflexivity. }
    simpl. split; [reflexivity|].
    assert (Hown : lookup_prop k (props_at (<[c:=oc']> (st_heap st)) c) =
                   Some (DataDesc nv true true true)).
    { unfold props_at. rewrite list_lookup_insert_eq by exact Hclen.
      apply lookup_prop_app_new. exact Hnk. }
    split; [exact Hown|].
    split; [apply list_lookup_insert_ne; exact Hne|].
    split.
    + unfold read. destruct fuel as [|fuel]; [lia|]. cbn [OrdinaryGet].
      unfold bind, gets. simpl. rewrite Hown. reflexivity.
    + unfold read.
      assert (Hacc' : lookup_prop k (props_at (<[c:=oc']> (st_heap st)) obj) =
                      Some (AccessorDesc (VRef g) (VRef s) e' false)).
      { unfold props_at in *. rewrite list_lookup_insert_ne by exact Hne. exact Hacc. }
      erewrite (OrdinaryGet_inherits (<[c:=oc']> (st_heap st)) k obj obj 0);
        [|apply inherits_here | reflexivity | exact Hacc' | lia].
      apply call_override_get. simpl.
      destruct (decide (g = c)) as [->|Hgc].
      * rewrite list_lookup_insert_eq by exact Hclen. rewrite Hc in Hg. exact Hg.
      * rewrite list_lookup_insert_ne by auto. exact Hg.
Qed.

End Hardener.

(** ** Graphs without prototypes

    A hardener without a prepare hook, on a graph none of whose nodes has
    a prototype or a configurable data property. *)

Lemma hook_ok_None : hook_ok None.
Proof. intros f obj h r h' Hf. discriminate. Qed.

Lemma hook_bounded_None : hook_bounded None.
Proof. intros f obj h r h' Hf. discriminate. Qed.

Definition bare_node (h : heap) (l : loc) : Prop :=
  ∃ o, h !! l = Some o ∧ proto o = None ∧ cfg_data o = 0 ∧
       (type_of o = "object" ∨ type_of o = "function").

Section Bare.

Variable FunctionPrototype : loc.
Variable toStr : loc -> option string.
Variable nodes : loc -> Prop.

Definition bare (h : heap) : Prop :=
  ∀ l, nodes l -> ∃ o, h !! l = Some o ∧ proto o = None ∧ cfg_data o = 0 ∧
                   (type_of o = "object" ∨ type_of o = "function") ∧
                   ∀ l', l' ∈ value_links o -> nodes l'.

Definition bare_walk (st : state) : Prop :=
  inv st ∧ bare (st_heap st) ∧ (∀ l, l ∈ toFreeze st -> nodes l) ∧ prototypes st = [].

Lemma enqueue_toFreeze l p st x :
  x ∈ toFreeze (enqueue (VRef l) p st).2 -> x ∈ toFreeze st ∨ x = l.
Proof.
  unfold enqueue, bind, gets, raise, ret, toFreeze_add, paths_set, modify. simpl.
  repeat case_match; simpl; auto.
  rewrite elem_of_app, list_elem_of_singleton. auto.
Qed.

Lemma enqueue_bare v p st :
  bare_walk st -> (∀ l, v = VRef l -> nodes l) ->
  ∃ st', enqueue v p st = (Ret tt, st') ∧ bare_walk st' ∧ st_heap st' = st_heap st.
Proof.
  intros Hq Hv.
  destruct v as [pr|l]; [exists st; split; [reflexivity | split; [exact Hq | reflexivity]]|].
  destruct Hq as (Hinv & Hbare & Hsub & Hpr).
  destruct (Hbare l (Hv l eq_refl)) as (o & Ho & _ & _ & Hty & _).
  exists (enqueue (VRef l) p st).2.
  assert (Hret : (enqueue (VRef l) p st).1 = Ret tt).
  { unfold enqueue, bind, gets, ret, toFreeze_add, paths_set, modify. simpl.
    unfold typeof. rewrite Ho.
    destruct Hty as [-> | ->]; simpl; repeat case_match; reflexivity. }
  split; [rewrite <- Hret; apply surjective_pairing|].
  split; [|apply enqueue_heap].
  split; [apply inv_enqueue; exact Hinv|].
  split; [rewrite enqueue_heap; exact Hbare|].
  split.
  - intros x Hx. apply enqueue_toFreeze in Hx as [Hx | ->]; auto.
  - rewrite (protos_enqueue (VRef l) p st). exact Hpr.
Qed.

Lemma traverse_bare path descs :
  ∀ st, bare_walk st ->
    (∀ k d l, (k, d) ∈ descs -> VRef l ∈ desc_values d -> nodes l) ->
    ∃ st', forEach (traverse_property path) descs st = (Ret tt, st') ∧
           bare_walk st' ∧ st_heap st' = st_heap st.
Proof.
  clear toStr.
  induction descs as [|[k d] descs IH]; intros st Hq Hd.
  { exists st. split; [reflexivity | split; [exact Hq | reflexivity]]. }
  assert (Hhead : ∃ s1, traverse_property path (k, d) st = (Ret tt, s1) ∧
                        bare_walk s1 ∧ st_heap s1 = st_heap st).
  { unfold traverse_property. destruct d as [v w e c|g s e c].
    - apply enqueue_bare; [exact Hq|]. intros l ->.
      apply (Hd k (DataDesc (VRef l) w e c) l); [left | simpl; set_solver].
    - destruct (enqueue_bare g (Some ((path +:+ "." +:+ String_ k) +:+ "(get)")) st Hq)
        as (s1 & H1 & Hq1 & Hh1).
      { intros l ->. apply (Hd k (AccessorDesc (VRef l) s e c) l);
          [left | simpl; set_solver]. }
      destruct (enqueue_bare s (Some ((path +:+ "." +:+ String_ k) +:+ "(set)")) s1 Hq1)
        as (s2 & H2 & Hq2 & Hh2).
      { intros l ->. apply (Hd k (AccessorDesc g (VRef l) e c) l);
          [left | simpl; set_solver]. }
      exists s2. rewrite (bind_run _ _ _ _ _ H1). split; [exact H2|].
      split; [exact Hq2 | congruence]. }
  destruct Hhead as (s1 & H1 & Hq1 & Hh1).
  destruct (IH s1 Hq1) as (s2 & H2 & Hq2 & Hh2).
  { intros k' d' l Hin. apply (Hd k' d' l). right. exact Hin. }
  exists s2. cbn [forEach]. rewrite (bind_run _ _ _ _ _ H1).
  split; [exact H2|]. split; [exact Hq2 | congruence].
Qed.

Lemma override_allocs_no_cfg obj ps :
  length (filter (fun kd => is_cfg_data kd.2 = true) ps) = 0 ->
  override_allocs FunctionPrototype obj ps = [].
Proof.
  induction ps as [|[k d] ps IH]; [auto|]. intros H.
  destruct d as [v w e [|]|g s e [|]]; cbn [override_allocs].
  - rewrite filter_cons_True in H by reflexivity. simpl in H. discriminate.
  - rewrite filter_cons_False in H by (simpl; discriminate). auto.
  - rewrite filter_cons_False in H by (simpl; discriminate). auto.
  - rewrite filter_cons_False in H by (simpl; discriminate). auto.
Qed.

Lemma override_descs_no_cfg n ps :
  length (filter (fun kd => is_cfg_data kd.2 = true) ps) = 0 ->
  (override_descs n ps ≫= fun kd => desc_values kd.2) = (ps ≫= fun kd => desc_values kd.2).
Proof.
  induction ps as [|[k d] ps IH]; [auto|]. intros H.
  destruct d as [v w e [|]|g s e [|]]; cbn [override_descs];
    rewrite !bind_cons.
  - rewrite filter_cons_True in H by reflexivity. simpl in H. discriminate.
  - rewrite filter_cons_False in H by (simpl; discriminate). rewrite (IH H). auto.
  - rewrite filter_cons_False in H by (simpl; discriminate). rewrite (IH H). auto.
  - rewrite filter_cons_False in H by (simpl; discriminate). rewrite (IH H). auto.
Qed.

Lemma desc_values_freeze (ps : list (key * desc)) :
  (map (fun kd => (kd.1, freeze_desc kd.2)) ps ≫= fun kd => desc_values kd.2) =
  (ps ≫= fun kd => desc_values kd.2).
Proof.
  induction ps as [|[k d] ps IH]; [reflexivity|].
  cbn [map]. rewrite !bind_cons, IH. destruct d; reflexivity.
Qed.

Lemma value_links_overridden n o :
  cfg_data o = 0 -> value_links (overridden n o) = value_links o.
Proof.
  intros Hc. unfold value_links, overridden. simpl. rewrite desc_values_freeze.
  rewrite (override_descs_no_cfg n (props o) Hc). reflexivity.
Qed.

Lemma freezeAndTraverse_bare obj st :
  bare_walk st -> obj ∈ toFreeze st ->
  ∃ st', freezeAndTraverse FunctionPrototype None obj st = (Ret tt, st') ∧ bare_walk st'.
Proof.
  intros (Hinv & Hbare & Hsub & Hpr) Hobj.
  destruct (Hbare obj (Hsub obj Hobj)) as (o & Ho & Hproto & Hcfg & Hty & Hlinks).
  pose proof Hinv as (Hb & Hnd & Hwf).
  assert (Hwo : wf_object o).
  { unfold wf_heap in Hwf. rewrite Forall_forall in Hwf. apply Hwf.
    eapply list_elem_of_lookup_2; eauto. }
  assert (Hlen : obj < length (st_heap st)) by (eapply lookup_lt_Some; eauto).
  pose proof (freezeWithOverride_run FunctionPrototype obj st o Ho Hwo Hb) as Hfwo.
  rewrite (override_allocs_no_cfg obj (props o) Hcfg) in Hfwo. simpl in Hfwo. rewrite !app_nil_r in Hfwo.
  match type of Hfwo with _ = (_, ?s) => set (sf := s) in * end.
  rewrite (freezeAndTraverse_run FunctionPrototype None obj st st sf eq_refl Hfwo).
  assert (Hobj' : st_heap sf !! obj = Some (overridden (length (st_heap st)) o)).
  { apply list_lookup_insert_eq. exact Hlen. }
  assert (Hq : bare_walk (emit (EvGetOwnPropertyDescriptors obj)
                            (emit (EvGetPrototypeOf obj) sf))).
  { split.
    { pose proof (inv_freezeWithOverride FunctionPrototype obj st Hinv) as Hi.
      rewrite Hfwo in Hi. exact Hi. }
    split; [|split; [exact Hsub | exact Hpr]].
    intros l Hl. simpl. destruct (decide (l = obj)) as [->|Hne].
    - exists (overridden (length (st_heap st)) o).
      split; [exact Hobj'|]. split; [exact Hproto|].
      split; [apply cfg_data_freeze_object|]. split; [exact Hty|].
      rewrite value_links_overridden by exact Hcfg. exact Hlinks.
    - rewrite list_lookup_insert_ne by auto. apply Hbare. exact Hl. }
  assert (Hp : proto_at (st_heap sf) obj = None)
    by (unfold proto_at; rewrite Hobj'; exact Hproto).
  rewrite Hp. cbn [record_prototype]. rewrite (bind_run _ _ _ tt _ eq_refl).
  destruct (traverse_bare (path_or_unknown (paths sf !! obj)) (props_at (st_heap sf) obj)
              _ Hq) as (st' & Hrun & Hq' & _).
  { intros k d l Hin Hd. apply Hlinks.
    rewrite <- (value_links_overridden (length (st_heap st)) o Hcfg).
    apply elem_of_value_links. exists k, d. split; [|exact Hd].
    unfold props_at in Hin. rewrite Hobj' in Hin. exact Hin. }
  exists st'. split; [exact Hrun | exact Hq'].
Qed.

Lemma dequeue_from_bare fuel :
  ∀ i st, bare_walk st -> weight (st_heap st) ≤ fuel + i ->
    ∃ st', dequeue_from FunctionPrototype None fuel i st = (Ret tt, st') ∧ bare_walk st'.
Proof.
  induction fuel as [|fuel IH]; intros i st Hq Hw; simpl;
    destruct (toFreeze st !! i) as [obj|] eqn:Hi; eauto.
  - exfalso. apply lookup_lt_Some in Hi. destruct Hq as ((Hb & Hnd & _) & _).
    pose proof (NoDup_bounded_length _ _ Hnd Hb). unfold weight in Hw. lia.
  - destruct (freezeAndTraverse_bare obj st Hq) as (s1 & H1 & Hq1).
    { eapply list_elem_of_lookup_2; eauto. }
    rewrite (bind_run _ _ _ _ _ H1). apply IH; [exact Hq1|].
    pose proof (settles_freezeAndTraverse FunctionPrototype None hook_ok_None
                  hook_bounded_None obj st (proj1 Hq)) as [_ Hw'].
    rewrite H1 in Hw'. simpl in Hw'. lia.
Qed.

End Bare.


Lemma harden_bare FunctionPrototype toStr fuel l0 st :
  wf_heap (st_heap st) ->
  (∀ l, reachable (st_heap st) ∅ l0 l -> bare_node (st_heap st) l) ->
  weight (st_heap st) ≤ fuel ->
  ∃ st', harden FunctionPrototype toStr None fuel (VRef l0) st = (Ret (VRef l0), st') ∧
         prototypes st' = [].
Proof.
  intros Hwf Hbare Hw.
  set (nodes := reachable (st_heap st) ∅ l0).
  assert (Hq : bare_walk nodes (fresh_collections st)).
  { split; [apply inv_fresh_collections; exact Hwf|].
    split; [|split; [intros l Hl; inversion Hl | reflexivity]].
    intros l Hl. destruct (Hbare l Hl) as (o & Ho & Hp & Hc & Hty).
    exists o. repeat split; auto.
    intros l' Hl'. apply (reach_link _ _ _ l l'); [exact Hl | set_solver |].
    exists o. split; [exact Ho|]. unfold out_links. set_solver. }
  destruct (enqueue_bare nodes (VRef l0) None _ Hq) as (st1 & H1 & Hq1 & Hh1).
  { intros l [= <-]. apply reach_root. }
  destruct (dequeue_from_bare FunctionPrototype nodes fuel 0 st1 Hq1) as (st2 & H2 & Hq2).
  { rewrite Hh1. simpl. lia. }
  destruct Hq2 as (_ & _ & _ & Hpr).
  exists (commit st2).2. unfold harden, modify, bind at 1.
  rewrite (bind_run _ _ _ _ _ H1). unfold dequeue. rewrite (bind_run _ _ _ _ _ H2).
  assert (Hc : checkPrototypes toStr st2 = (Ret tt, st2)).
  { unfold checkPrototypes, bind, gets. rewrite Hpr. reflexivity. }
  rewrite (bind_run _ _ _ _ _ Hc). unfold bind. rewrite commit_run. simpl.
  split; [reflexivity|]. destruct (toFreeze st2); exact Hpr.
Qed.

(** C9, as the code has it.  A visit of a node whose prototype link is
    null registers nothing.  A root from which only nodes without a
    prototype and without a configurable data property are reachable is
    hardened by a hardener without a prepare hook, whatever the fringe set,
    the empty one included, and the registry stays empty. *)
Theorem null_prototypes_register_nothing FunctionPrototype toStr :
  (∀ hook obj st r st',
     hook_ok hook -> inv st -> obj ∈ toFreeze st ->
     freezeAndTraverse FunctionPrototype hook obj st = (r, st') ->
     proto_at (st_heap st') obj = None ->
     prototypes st' = prototypes st) ∧
  (∀ fuel l0 st,
     wf_heap (st_heap st) ->
     (∀ l, reachable (st_heap st) ∅ l0 l -> bare_node (st_heap st) l) ->
     weight (st_heap st) ≤ fuel ->
     ∃ st', harden FunctionPrototype toStr None fuel (VRef l0) st = (Ret (VRef l0), st') ∧
            prototypes st' = []).
Proof.
  split.
  - intros hook obj st r st' Hhook. apply freezeAndTraverse_null_prototype. exact Hhook.
  - intros fuel l0 st. apply harden_bare.
Qed.


(** ** Calling again after a failure

    A hardener without a prepare hook, called a second time on the root of
    a call that threw. *)

Definition ok_type (h : heap) (l : loc) : Prop :=
  typeof h l = "object" ∨ typeof h l = "function".

Definition desc_links (descs : list (key * desc)) : list loc :=
  refs (descs ≫= fun kd => desc_values kd.2).

(** Every object held by a property is an object of the heap. *)
Definition closed (h : heap) : Prop :=
  ∀ l o, h !! l = Some o -> ∀ l', l' ∈ value_links o -> l' < length h.

Definition same_kind (e e' : error) : Prop :=
  match e, e' with
  | ConfigError _, ConfigError _ => True
  | TypeKindError _, TypeKindError _ => True
  | ReadOnlyViolation _, ReadOnlyViolation _ => True
  | UnreachablePrototype _, UnreachablePrototype _ => True
  | HostError _, HostError _ => True
  | _, _ => False
  end.

Lemma ok_type_heap_le h h' l : heap_le h h' -> ok_type h l -> ok_type h' l.
Proof.
  intros Hle Hok. unfold ok_type. rewrite (typeof_heap_le _ _ _ Hle Hok). exact Hok.
Qed.

Lemma not_ok_type_heap_le h h' l :
  heap_le h h' -> l < length h -> ¬ ok_type h l -> ¬ ok_type h' l.
Proof.
  intros Hle Hlen Hno Hok. apply Hno. unfold ok_type, typeof in *.
  destruct (lookup_lt_is_Some_2 h l Hlen) as [o Ho]. rewrite Ho.
  destruct (Hle l o Ho) as (o' & Ho' & Hty & _). rewrite Ho' in Hok. rewrite <- Hty.
  exact Hok.
Qed.

Lemma elem_of_desc_links descs l :
  l ∈ desc_links descs ↔ ∃ k d, (k, d) ∈ descs ∧ VRef l ∈ desc_values d.
Proof.
  unfold desc_links, refs. rewrite list_elem_of_omap. split.
  - intros (v & Hv & Hl). destruct v as [p|l']; [discriminate|]. injection Hl as ->.
    apply list_elem_of_bind in Hv as ([k d] & Hd & Hkd). eauto.
  - intros (k & d & Hkd & Hd). exists (VRef l). split; [|reflexivity].
    apply list_elem_of_bind. exists (k, d). auto.
Qed.

(** What a run of [enqueue]s does, whatever its outcome. *)
Definition enqueue_effect (links : list loc) (st : state) (r : result unit) (st' : state)
  : Prop :=
  st_heap st' = st_heap st ∧ fringeSet st' = fringeSet st ∧
  prototypes st' = prototypes st ∧
  (∃ k, toFreeze st' = toFreeze st ++ k ∧
        ∀ x, x ∈ k -> x ∈ links ∧ ok_type (st_heap st) x ∧ x ∉ fringeSet st) ∧
  ((r = Ret tt ∧ ∀ l, l ∈ links -> known st' l ∧ ok_type (st_heap st) l) ∨
   (∃ w m, r = Raise (TypeKindError m) ∧ w ∈ links ∧ ¬ ok_type (st_heap st) w)).

Lemma enqueue_effect_nil st : enqueue_effect [] st (Ret tt) st.
Proof.
  repeat split; auto.
  - exists []. rewrite app_nil_r. split; [reflexivity|]. intros x Hx. inversion Hx.
  - left. split; [reflexivity|]. intros x Hx. inversion Hx.
Qed.

Lemma enqueue_any v p st r st' :
  enqueue v p st = (r, st') -> enqueue_effect (refs [v]) st r st'.
Proof.
  destruct v as [pr|l].
  { intros [= <- <-]. apply enqueue_effect_nil. }
  assert (Hnil : ∃ k : list loc, toFreeze st = toFreeze st ++ k ∧
            ∀ x, x ∈ k -> x ∈ refs [VRef l] ∧ ok_type (st_heap st) x ∧ x ∉ fringeSet st).
  { exists []. rewrite app_nil_r. split; [reflexivity|]. intros x Hx. inversion Hx. }
  unfold enqueue, bind, gets, raise, ret. simpl.
  destruct (decide (ok_type (st_heap st) l)) as [Hok|Hno].
  - assert (Hty : negb (bool_decide (typeof (st_heap st) l = "object")) &&
                  negb (bool_decide (typeof (st_heap st) l = "function")) = false).
    { destruct Hok as [H|H]; rewrite H; reflexivity. }
    rewrite Hty.
    destruct (decide (l ∈ fringeSet st)) as [Hf|Hf].
    { rewrite (bool_decide_eq_true_2 _ Hf). simpl. intros [= <- <-].
      repeat split; auto. left. split; [reflexivity|].
      intros x Hx. apply list_elem_of_singleton in Hx as ->. split; [left|]; auto. }
    rewrite (bool_decide_eq_false_2 _ Hf). simpl.
    destruct (decide (l ∈ toFreeze st)) as [Ht|Ht].
    { rewrite (bool_decide_eq_true_2 _ Ht). intros [= <- <-].
      repeat split; auto. left. split; [reflexivity|].
      intros x Hx. apply list_elem_of_singleton in Hx as ->. split; [right|]; auto. }
    rewrite (bool_decide_eq_false_2 _ Ht).
    unfold toFreeze_add, paths_set, modify. rewrite decide_False by exact Ht.
    intros [= <- <-]. destruct st as [H F T P W L]. simpl in *. repeat split; auto.
    + exists [l]. split; [reflexivity|]. intros x Hx.
      apply list_elem_of_singleton in Hx as ->. repeat split; auto. left.
    + left. split; [reflexivity|]. intros x Hx.
      apply list_elem_of_singleton in Hx as ->. split; [|exact Hok].
      right. simpl. apply elem_of_app. right. left.
  - assert (Hty : negb (bool_decide (typeof (st_heap st) l = "object")) &&
                  negb (bool_decide (typeof (st_heap st) l = "function")) = true).
    { apply andb_true_intro. split; apply negb_true_iff, bool_decide_eq_false_2;
        intros H; apply Hno; [left | right]; exact H. }
    rewrite Hty. intros [= <- <-]. repeat split; auto.
    right. exists l. eexists. split; [reflexivity|]. split; [left | exact Hno].
Qed.

Lemma enqueue_effect_seq l1 l2 st r1 s1 r st' :
  enqueue_effect l1 st r1 s1 ->
  (r1 = Ret tt -> enqueue_effect l2 s1 r st') ->
  (r1 ≠ Ret tt -> r = r1 ∧ st' = s1) ->
  enqueue_effect (l1 ++ l2) st r st'.
Proof.
  intros (Hh1 & Hf1 & Hp1 & (k1 & Ht1 & Hk1) & Hr1) H2 Hstop.
  destruct Hr1 as [[-> Hl1] | (w & m & -> & Hw & Hno)].
  - destruct (H2 eq_refl) as (Hh2 & Hf2 & Hp2 & (k2 & Ht2 & Hk2) & Hr2).
    split; [congruence|]. split; [congruence|]. split; [congruence|]. split.
    + exists (k1 ++ k2). split; [rewrite Ht2, Ht1, app_assoc; reflexivity|].
      intros x. rewrite !elem_of_app. intros [Hx|Hx].
      * destruct (Hk1 x Hx) as (? & ? & ?). auto.
      * destruct (Hk2 x Hx) as (? & ? & ?). rewrite <- Hh1, <- Hf1. auto.
    + destruct Hr2 as [[-> Hl2] | (w & m & -> & Hw & Hno)].
      * left. split; [reflexivity|]. intros l. rewrite elem_of_app.
        intros [Hl|Hl].
        -- destruct (Hl1 l Hl) as [Hk Hok]. split; [|exact Hok].
           destruct Hk as [Hk|Hk]; [left; congruence|].
           right. rewrite Ht2. apply elem_of_app. left. exact Hk.
        -- destruct (Hl2 l Hl) as [Hk Hok]. split; [exact Hk | rewrite <- Hh1; exact Hok].
      * right. exists w, m. rewrite elem_of_app, <- Hh1. auto.
  - destruct Hstop as [-> ->]; [discriminate|].
    split; [exact Hh1|]. split; [exact Hf1|]. split; [exact Hp1|]. split.
    + exists k1. split; [exact Ht1|]. intros x Hx.
      destruct (Hk1 x Hx) as (? & ? & ?). rewrite elem_of_app. auto.
    + right. exists w, m. rewrite elem_of_app. auto.
Qed.

Lemma refs_app (vs ws : list value) : refs (vs ++ ws) = refs vs ++ refs ws.
Proof. unfold refs. apply omap_app. Qed.

Lemma desc_links_cons k d descs :
  desc_links ((k, d) :: descs) = refs (desc_values d) ++ desc_links descs.
Proof. unfold desc_links. simpl. apply refs_app. Qed.


Lemma enqueue_effect_bind (c : M unit) (f : unit -> M unit) l1 l2 st r st' :
  (∀ r1 s1, c st = (r1, s1) -> enqueue_effect l1 st r1 s1) ->
  (∀ s1 r2 s2, f tt s1 = (r2, s2) -> enqueue_effect l2 s1 r2 s2) ->
  bind c f st = (r, st') -> enqueue_effect (l1 ++ l2) st r st'.
Proof.
  intros Hc Hf H.
  apply bind_inv in H as [([] & s1 & H1 & H2) | [(e0 & H1 & ->) | (H1 & ->)]].
  - apply (enqueue_effect_seq l1 l2 st (Ret tt) s1); [apply Hc, H1 | | congruence].
    intros _. apply Hf, H2.
  - apply (enqueue_effect_seq l1 l2 st (Raise e0) st'); [apply Hc, H1 | discriminate | auto].
  - apply (enqueue_effect_seq l1 l2 st Diverge st'); [apply Hc, H1 | discriminate | auto].
Qed.

Lemma traverse_property_any path kd st r st' :
  traverse_property path kd st = (r, st') ->
  enqueue_effect (refs (desc_values kd.2)) st r st'.
Proof.
  destruct kd as [k d]. unfold traverse_property.
  destruct d as [v w e c|g s e c]; cbn [snd desc_values].
  - apply enqueue_any.
  - replace (refs [g; s]) with (refs [g] ++ refs [s])
      by (symmetry; apply (refs_app [g] [s])).
    apply enqueue_effect_bind; intros; eapply enqueue_any; eauto.
Qed.

Lemma traverse_any path descs :
  ∀ st r st', forEach (traverse_property path) descs st = (r, st') ->
    enqueue_effect (desc_links descs) st r st'.
Proof.
  induction descs as [|[k d] descs IH]; intros st r st' H.
  { injection H as <- <-. apply enqueue_effect_nil. }
  rewrite desc_links_cons. cbn [forEach] in H. revert H.
  apply enqueue_effect_bind.
  - intros r1 s1. apply (traverse_property_any path (k, d)).
  - intros s1 r2 s2. apply IH.
Qed.

Lemma record_prototype_any pr path st :
  ∃ st1, record_prototype pr path st = (Ret tt, st1) ∧
         st_heap st1 = st_heap st ∧ fringeSet st1 = fringeSet st ∧
         toFreeze st1 = toFreeze st ∧ st_log st1 = st_log st ∧
         (∀ p, p ∈ (prototypes st1).*1 -> p ∈ (prototypes st).*1 ∨ pr = Some p) ∧
         (∀ p, pr = Some p -> p ∈ (prototypes st1).*1).
Proof.
  destruct pr as [p|]; simpl.
  2:{ exists st. repeat split; auto. discriminate. }
  unfold bind, gets, ret, modify, paths_set, prototypes_has. simpl.
  destruct (decide (p ∈ (prototypes st).*1)) as [Hin|Hin].
  - rewrite (bool_decide_eq_true_2 _ Hin). exists st. repeat split; auto.
    intros q [= <-]. exact Hin.
  - rewrite (bool_decide_eq_false_2 _ Hin). eexists. split; [reflexivity|].
    destruct st as [H F T P W L]. simpl. repeat split; auto.
    + intros q. rewrite fmap_app, elem_of_app. simpl. rewrite list_elem_of_singleton.
      intros [Hq | ->]; auto.
    + intros q [= <-]. rewrite fmap_app, elem_of_app. right. left.
Qed.

Section Retry.

Variable FunctionPrototype : loc.
Variable toStr : loc -> option string.

Lemma override_allocs_function obj ps o :
  o ∈ override_allocs FunctionPrototype obj ps -> type_of o = "function".
Proof.
  induction ps as [|[k d] ps IH]; [intros H; inversion H|].
  destruct d as [v w e [|]|g s e c]; cbn [override_allocs]; auto.
  rewrite !elem_of_cons. intros [-> | [-> | H]]; auto.
Qed.

Lemma override_allocs_links obj ps o l :
  o ∈ override_allocs FunctionPrototype obj ps -> l ∈ value_links o -> l ∈ desc_links ps.
Proof.
  induction ps as [|[k d] ps IH]; [intros H; inversion H|].
  rewrite desc_links_cons, elem_of_app.
  destruct d as [v w e [|]|g s e c]; cbn [override_allocs]; auto.
  rewrite !elem_of_cons. intros [-> | [-> | H]] Hl.
  - left. unfold value_links, getter_object in Hl. simpl in Hl.
    destruct v as [pr|x]; simpl in *; [inversion Hl | exact Hl].
  - unfold value_links, setter_object in Hl. simpl in Hl. inversion Hl.
  - auto.
Qed.

Lemma override_descs_links obj ps :
  ∀ n l, l ∈ desc_links (override_descs n ps) ->
    l ∈ desc_links ps ∨ n ≤ l < n + length (override_allocs FunctionPrototype obj ps).
Proof.
  induction ps as [|[k d] ps IH]; intros n l; [intros H; inversion H|].
  destruct d as [v w e [|]|g s e [|]]; cbn [override_descs override_allocs length];
    rewrite !desc_links_cons, !elem_of_app; simpl.
  - intros [Hl | Hl].
    + right. apply elem_of_cons in Hl as [-> | Hl]; [lia|].
      apply list_elem_of_singleton in Hl as ->. lia.
    + destruct (IH _ _ Hl) as [|]; [auto | right; lia].
  - intros [Hl | Hl]; [auto|]. destruct (IH _ _ Hl) as [|]; auto.
  - intros [Hl | Hl]; [auto|]. destruct (IH _ _ Hl) as [|]; auto.
  - intros [Hl | Hl]; [auto|]. destruct (IH _ _ Hl) as [|]; auto.
Qed.

Lemma override_descs_fresh obj ps :
  ∀ n l, n ≤ l < n + length (override_allocs FunctionPrototype obj ps) ->
    l ∈ desc_links (override_descs n ps).
Proof.
  induction ps as [|[k d] ps IH]; intros n l; [simpl; lia|].
  destruct d as [v w e [|]|g s e [|]]; cbn [override_descs override_allocs length];
    rewrite !desc_links_cons, !elem_of_app; simpl; intros Hl; auto.
  destruct (decide (l = n)) as [->|]; [left; left|].
  destruct (decide (l = S n)) as [->|]; [left; right; left|].
  right. apply IH. lia.
Qed.

Lemma value_links_overridden_descs n o :
  value_links (overridden n o) = desc_links (override_descs n (props o)).
Proof.
  unfold value_links, overridden, desc_links. simpl. rewrite desc_values_freeze.
  reflexivity.
Qed.

Lemma overridden_frozen n o : isFrozen o -> overridden n o = o.
Proof.
  intros Hfr. destruct o as [ty pr ex ps bd]. destruct Hfr as [Hex Hps].
  simpl in *. subst ex. unfold overridden, freeze_object, with_props. simpl.
  f_equal. revert n. induction ps as [|[k d] ps IH]; intros n; [reflexivity|].
  apply Forall_cons in Hps as [Hd Hps]. simpl in Hd.
  destruct d as [v w e c|g s e c]; simpl in Hd; injection Hd as ?; subst;
    cbn [override_descs map]; simpl; rewrite (IH Hps); reflexivity.
Qed.

Lemma cfg_data_frozen o : isFrozen o -> cfg_data o = 0.
Proof.
  intros Hfr. rewrite <- (overridden_frozen 0 o Hfr). apply cfg_data_freeze_object.
Qed.

(** One visit, whatever its outcome. *)
Lemma visit_shape a st o r st' :
  inv st -> st_heap st !! a = Some o ->
  freezeAndTraverse FunctionPrototype None a st = (r, st') ->
  ∃ k,
    st_heap st' = <[a := overridden (length (st_heap st)) o]> (st_heap st)
                    ++ override_allocs FunctionPrototype a (props o) ∧
    fringeSet st' = fringeSet st ∧
    toFreeze st' =
      (toFreeze st ++ seq (length (st_heap st))
                          (length (override_allocs FunctionPrototype a (props o)))) ++ k ∧
    (∀ x, x ∈ k ->
       x ∈ value_links (overridden (length (st_heap st)) o) ∧ x ∉ fringeSet st) ∧
    (∀ p, p ∈ (prototypes st').*1 -> p ∈ (prototypes st).*1 ∨ proto o = Some p) ∧
    ((r = Ret tt ∧
      (∀ l, l ∈ value_links (overridden (length (st_heap st)) o) ->
         known st' l ∧ ok_type (st_heap st') l) ∧
      (∀ p, proto o = Some p -> p ∈ (prototypes st').*1)) ∨
     (∃ w m, r = Raise (TypeKindError m) ∧
             w ∈ value_links (overridden (length (st_heap st)) o) ∧
             ¬ ok_type (st_heap st') w)).
Proof.
  intros Hinv Ho Hrun. pose proof Hinv as (Hb & Hnd & Hwf).
  assert (Hwo : wf_object o).
  { unfold wf_heap in Hwf. rewrite Forall_forall in Hwf. apply Hwf.
    eapply list_elem_of_lookup_2; eauto. }
  assert (Hlen : a < length (st_heap st)) by (eapply lookup_lt_Some; eauto).
  pose proof (freezeWithOverride_run FunctionPrototype a st o Ho Hwo Hb) as Hfwo.
  match type of Hfwo with _ = (_, ?s) => set (sf := s) in * end.
  rewrite (freezeAndTraverse_run FunctionPrototype None a st st sf eq_refl Hfwo) in Hrun.
  assert (Ha' : st_heap sf !! a = Some (overridden (length (st_heap st)) o)).
  { simpl. rewrite lookup_app_l by (rewrite length_insert; exact Hlen).
    apply list_lookup_insert_eq. exact Hlen. }
  assert (Hp : proto_at (st_heap sf) a = proto o)
    by (unfold proto_at; rewrite Ha'; reflexivity).
  assert (Hd : props_at (st_heap sf) a = props (overridden (length (st_heap st)) o))
    by (unfold props_at; rewrite Ha'; reflexivity).
  rewrite Hp, Hd in Hrun.
  destruct (record_prototype_any (proto o) (path_or_unknown (paths sf !! a))
              (emit (EvGetOwnPropertyDescriptors a) (emit (EvGetPrototypeOf a) sf)))
    as (s1 & H1 & Hh1 & Hf1 & Ht1 & _ & Hp1 & Hp1').
  rewrite (bind_run _ _ _ _ _ H1) in Hrun.
  apply traverse_any in Hrun as (Hh2 & Hf2 & Hp2 & (k & Ht2 & Hk) & Hr).
  exists k. rewrite Hh2, Hh1, Hf2, Hf1, Ht2, Ht1, Hp2. simpl.
  split; [reflexivity|]. split; [reflexivity|]. split; [reflexivity|]. split.
  { intros x Hx. destruct (Hk x Hx) as (Hx1 & _ & Hx3). split; [exact Hx1|].
    rewrite Hf1 in Hx3. exact Hx3. }
  split; [exact Hp1|].
  rewrite Hh1 in Hr. simpl in Hr.
  destruct Hr as [[-> Hl] | (w & m & -> & Hw & Hno)].
  - left. split; [reflexivity|]. split; [exact Hl | exact Hp1'].
  - right. exists w, m. auto.
Qed.

(** A visited node: frozen, the objects it holds accepted by [enqueue],
    its prototype registered. *)
Definition visited (st : state) (a : loc) : Prop :=
  ∃ o, st_heap st !! a = Some o ∧ isFrozen o ∧
       (∀ l, l ∈ value_links o -> known st l ∧ ok_type (st_heap st) l) ∧
       (∀ p, proto o = Some p -> p ∈ (prototypes st).*1).

(** A node whose visit threw: frozen, and holding something [enqueue]
    rejects. *)
Definition stuck (st : state) (a : loc) : Prop :=
  ∃ o w, st_heap st !! a = Some o ∧ isFrozen o ∧ w ∈ value_links o ∧
         ¬ ok_type (st_heap st) w.

(** The state of a walk from the root [l0], at any time after the root
    was enqueued. *)
Definition walked (l0 : loc) (st : state) : Prop :=
  inv st ∧ closed (st_heap st) ∧
  (∀ l, l ∈ fringeSet st -> l < length (st_heap st)) ∧
  toFreeze st !! 0 = Some l0 ∧
  (∀ x, x ∈ toFreeze st -> x ∉ fringeSet st) ∧
  (∀ j x, toFreeze st !! j = Some x ->
     j = 0 ∨ ∃ i a o, i < j ∧ toFreeze st !! i = Some a ∧ st_heap st !! a = Some o ∧
                      isFrozen o ∧ x ∈ value_links o) ∧
  (∀ p, p ∈ (prototypes st).*1 ->
     ∃ a o, a ∈ toFreeze st ∧ st_heap st !! a = Some o ∧ isFrozen o ∧ proto o = Some p).

Lemma visited_mono st st' a :
  ctl_le st st' -> heap_step st st' -> visited st a -> visited st' a.
Proof.
  intros Hc Hh (o & Ho & Hfr & Hlinks & Hproto).
  destruct (Hh a o Ho) as (o' & Ho' & _ & _ & Hsame). rewrite (Hsame Hfr) in Ho'.
  exists o. split; [exact Ho'|]. split; [exact Hfr|]. split.
  - intros l Hl. destruct (Hlinks l Hl) as [Hk Hok]. split.
    + eapply known_mono; eauto.
    + eapply ok_type_heap_le; eauto.
  - intros p Hp. destruct Hc as (_ & _ & [k ->] & _). rewrite fmap_app.
    apply elem_of_app. left. auto.
Qed.

Lemma visit_walked l0 i a st r st' :
  walked l0 st -> toFreeze st !! i = Some a ->
  freezeAndTraverse FunctionPrototype None a st = (r, st') ->
  walked l0 st' ∧
  ((r = Ret tt ∧ visited st' a) ∨ (∃ m, r = Raise (TypeKindError m) ∧ stuck st' a)).
Proof.
  intros (Hinv & Hcl & Hfb & H0 & Hnf & Hpar & Hreg) Hi Hrun.
  pose proof Hinv as (Hb & Hnd & Hwf).
  assert (Hlen : a < length (st_heap st)).
  { apply Hb. eapply list_elem_of_lookup_2; eauto. }
  destruct (lookup_lt_is_Some_2 _ _ Hlen) as [o Ho].
  pose proof (inv_freezeAndTraverse FunctionPrototype None hook_ok_None a st Hinv) as Hinv'.
  pose proof (hp_freezeAndTraverse FunctionPrototype None hook_ok_None a st) as Hle.
  rewrite Hrun in Hinv', Hle. simpl in Hinv', Hle. unfold heap_step in Hle.
  destruct (visit_shape a st o r st' Hinv Ho Hrun) as (k & Hh & Hf & Ht & Hk & Hp & Hr).
  set (n := length (st_heap st)) in *.
  set (o' := overridden n o) in *.
  set (news := override_allocs FunctionPrototype a (props o)) in *.
  assert (Hlen' : length (st_heap st') = n + length news).
  { rewrite Hh, length_app, length_insert. reflexivity. }
  assert (Ha' : st_heap st' !! a = Some o').
  { rewrite Hh, lookup_app_l by (rewrite length_insert; exact Hlen).
    apply list_lookup_insert_eq. exact Hlen. }
  assert (Hfr' : isFrozen o') by apply isFrozen_freeze_object.
  assert (Hkeep : ∀ b ob, st_heap st !! b = Some ob -> isFrozen ob ->
                          st_heap st' !! b = Some ob).
  { intros b ob Hb' Hfrb. destruct (Hle b ob Hb') as (ob' & Hob' & _ & _ & Hsame).
    rewrite (Hsame Hfrb) in Hob'. exact Hob'. }
  assert (Hfresh : ∀ x, x ∈ seq n (length news) -> x ∈ value_links o').
  { intros x Hx. apply elem_of_seq in Hx. unfold o'.
    rewrite value_links_overridden_descs. apply (override_descs_fresh a). exact Hx. }
  assert (Hlinks' : ∀ x, x ∈ value_links o' -> x < length (st_heap st')).
  { intros x Hx. unfold o' in Hx. rewrite value_links_overridden_descs in Hx.
    apply (override_descs_links a) in Hx as [Hx | Hx]; [|fold news in Hx; lia].
    pose proof (Hcl a o Ho x Hx). lia. }
  split.
  { split; [exact Hinv'|]. split.
    { intros l ol Hl x Hx. destruct (decide (l < n)) as [Hln | Hln].
      - rewrite Hh, lookup_app_l in Hl by (rewrite length_insert; exact Hln).
        destruct (decide (l = a)) as [-> | Hne].
        + rewrite list_lookup_insert_eq in Hl by exact Hln. injection Hl as <-.
          apply Hlinks'. exact Hx.
        + rewrite list_lookup_insert_ne in Hl by auto.
          pose proof (Hcl l ol Hl x Hx). lia.
      - rewrite Hh, lookup_app_r in Hl by (rewrite length_insert; fold n; lia).
        apply list_elem_of_lookup_2 in Hl.
        pose proof (override_allocs_links a (props o) ol x Hl Hx) as Hx'.
        pose proof (Hcl a o Ho x Hx'). lia. }
    split.
    { intros l Hl. rewrite Hf in Hl. apply Hfb in Hl. lia. }
    split.
    { rewrite Ht, <- app_assoc. apply lookup_app_l_Some. exact H0. }
    split.
    { intros x. rewrite Ht, Hf, !elem_of_app. intros [[Hx | Hx] | Hx].
      - apply Hnf. exact Hx.
      - intros Hin. apply Hfb in Hin. apply elem_of_seq in Hx. lia.
      - apply Hk. exact Hx. }
    split.
    { intros j x Hj. destruct (decide (j < length (toFreeze st))) as [Hjl | Hjl].
      - rewrite Ht, <- app_assoc, lookup_app_l in Hj by exact Hjl.
        destruct (Hpar j x Hj) as [-> | (i' & b & ob & Hij & Hib & Hob & Hfrb & Hxb)];
          [left; reflexivity|].
        right. exists i', b, ob. split; [exact Hij|]. split.
        { rewrite Ht, <- app_assoc. apply lookup_app_l_Some. exact Hib. }
        split; [apply Hkeep; assumption|]. split; assumption.
      - right. exists i, a, o'. split; [apply lookup_lt_Some in Hi; lia|]. split.
        { rewrite Ht, <- app_assoc. apply lookup_app_l_Some. exact Hi. }
        split; [exact Ha'|]. split; [exact Hfr'|].
        rewrite Ht, <- app_assoc, lookup_app_r in Hj by lia.
        apply list_elem_of_lookup_2, elem_of_app in Hj as [Hx | Hx].
        + apply Hfresh. exact Hx.
        + apply Hk. exact Hx. }
    intros p Hpin. destruct (Hp p Hpin) as [Hold | Hnew].
    - destruct (Hreg p Hold) as (b & ob & Hbin & Hob & Hfrb & Hpb).
      exists b, ob. split; [rewrite Ht, !elem_of_app; auto|].
      split; [apply Hkeep; assumption|]. split; assumption.
    - exists a, o'. split.
      { rewrite Ht, !elem_of_app. left. left. eapply list_elem_of_lookup_2; eauto. }
      split; [exact Ha'|]. split; [exact Hfr' | exact Hnew]. }
  destruct Hr as [(-> & Hl & Hpr) | (w & m & -> & Hw & Hno)].
  - left. split; [reflexivity|]. exists o'. split; [exact Ha'|]. split; [exact Hfr'|].
    split; [exact Hl | exact Hpr].
  - right. exists m. split; [reflexivity|]. exists o', w. auto.
Qed.

Lemma stuck_mono st st' a :
  heap_step st st' -> closed (st_heap st) -> stuck st a -> stuck st' a.
Proof.
  intros Hh Hcl (o & w & Ho & Hfr & Hw & Hno).
  destruct (Hh a o Ho) as (o' & Ho' & _ & _ & Hsame). rewrite (Hsame Hfr) in Ho'.
  exists o, w. split; [exact Ho'|]. split; [exact Hfr|]. split; [exact Hw|].
  eapply not_ok_type_heap_le; eauto.
Qed.

(** The walk, whatever its outcome. *)
Lemma dequeue_from_any l0 fuel :
  ∀ i st r st',
    walked l0 st ->
    (∀ j a, j < i -> toFreeze st !! j = Some a -> visited st a) ->
    dequeue_from FunctionPrototype None fuel i st = (r, st') ->
    walked l0 st' ∧
    ((r = Ret tt ∧ ∀ a, a ∈ toFreeze st' -> visited st' a) ∨
     (∃ m a, r = Raise (TypeKindError m) ∧ a ∈ toFreeze st' ∧ stuck st' a) ∨
     r = Diverge).
Proof.
  induction fuel as [|fuel IH]; intros i st r st' Hw Hdone H; simpl in H;
    destruct (toFreeze st !! i) as [obj|] eqn:Hi.
  - injection H as <- <-. auto.
  - injection H as <- <-. split; [exact Hw|]. left. split; [reflexivity|].
    intros a Ha. apply list_elem_of_lookup in Ha as [j Hj].
    apply (Hdone j); [|exact Hj]. apply lookup_lt_Some in Hj.
    apply lookup_ge_None in Hi. lia.
  - apply bind_inv in H as [([] & s1 & H1 & H2) | [(e0 & H1 & ->) | (H1 & ->)]].
    + destruct (visit_walked l0 i obj st _ _ Hw Hi H1) as [Hw1 [[_ Hv] | (m & [=] & _)]].
      pose proof (ctl_freezeAndTraverse FunctionPrototype None obj st) as Hc.
      pose proof (hp_freezeAndTraverse FunctionPrototype None hook_ok_None obj st) as Hh.
      rewrite H1 in Hc, Hh. simpl in Hc, Hh.
      apply (IH (S i) s1 r st' Hw1); [|exact H2].
      intros j a Hj Ha. destruct (decide (j = i)) as [-> | Hne].
      * destruct Hc as (_ & [k Hk] & _). rewrite Hk in Ha.
        rewrite lookup_app_l in Ha by (apply lookup_lt_Some in Hi; exact Hi).
        rewrite Hi in Ha. injection Ha as <-. exact Hv.
      * assert (Hlt : j < i) by lia.
        pose proof Hc as (_ & [k Hk] & _). rewrite Hk in Ha.
        rewrite lookup_app_l in Ha by (apply lookup_lt_Some in Hi; lia).
        eapply visited_mono; eauto.
    + destruct (visit_walked l0 i obj st _ _ Hw Hi H1) as [Hw1 [[[=] _] | (m & [= ->] & Hs)]].
      split; [exact Hw1|]. right. left. exists m, obj. split; [reflexivity|].
      split; [|exact Hs].
      pose proof (ctl_freezeAndTraverse FunctionPrototype None obj st) as Hc.
      rewrite H1 in Hc. destruct Hc as (_ & [k Hk] & _). simpl in Hk. rewrite Hk.
      apply elem_of_app. left. eapply list_elem_of_lookup_2; eauto.
    + destruct (visit_walked l0 i obj st _ _ Hw Hi H1) as [Hw1 _]. auto.
  - injection H as <- <-. split; [exact Hw|]. left. split; [reflexivity|].
    intros a Ha. apply list_elem_of_lookup in Ha as [j Hj].
    apply (Hdone j); [|exact Hj]. apply lookup_lt_Some in Hj.
    apply lookup_ge_None in Hi. lia.
Qed.

(** A later walk from the same root that returns has met every node the
    earlier walk met. *)
Lemma revisit_covers l0 st1 st2 :
  walked l0 st1 ->
  heap_le (st_heap st1) (st_heap st2) -> fringeSet st2 = fringeSet st1 ->
  toFreeze st2 !! 0 = Some l0 ->
  (∀ a, a ∈ toFreeze st2 -> visited st2 a) ->
  ∀ x, x ∈ toFreeze st1 -> x ∈ toFreeze st2.
Proof.
  intros (_ & _ & _ & H0 & Hnf & Hpar & _) Hle Hf H0' Hv.
  assert (Hall : ∀ j x, toFreeze st1 !! j = Some x -> x ∈ toFreeze st2).
  { intros j. induction (lt_wf j) as [j _ IH]. intros x Hj.
    destruct (Hpar j x Hj) as [-> | (i & a & o & Hij & Hi & Ho & Hfr & Hx)].
    - rewrite H0 in Hj. injection Hj as <-. eapply list_elem_of_lookup_2; eauto.
    - pose proof (IH i Hij a Hi) as Ha.
      destruct (Hv a Ha) as (o2 & Ho2 & _ & Hlinks & _).
      destruct (Hle a o Ho) as (o' & Ho' & _ & _ & Hsame).
      rewrite (Hsame Hfr) in Ho'. rewrite Ho' in Ho2. injection Ho2 as <-.
      destruct (Hlinks x Hx) as [[Hin | Hin] _]; [|exact Hin].
      exfalso. rewrite Hf in Hin. apply (Hnf x); [|exact Hin].
      eapply list_elem_of_lookup_2; eauto. }
  intros x Hx. apply list_elem_of_lookup in Hx as [j Hj]. eauto.
Qed.

(** A walk over nodes an earlier walk visited: nothing changes but the
    work set, and nothing throws. *)
Definition replay (st1 st : state) : Prop :=
  inv st ∧ st_heap st = st_heap st1 ∧ fringeSet st = fringeSet st1 ∧
  (∀ x, x ∈ toFreeze st -> x ∈ toFreeze st1) ∧
  (∀ x, x ∈ toFreeze st1 -> visited st1 x).

Lemma replay_visit st1 st a r st' :
  replay st1 st -> a ∈ toFreeze st ->
  freezeAndTraverse FunctionPrototype None a st = (r, st') ->
  r = Ret tt ∧ replay st1 st'.
Proof.
  intros (Hinv & Hh & Hf & Hsub & Hv1) Ha Hrun.
  destruct (Hv1 a (Hsub a Ha)) as (o & Ho & Hfr & Hlinks & _).
  rewrite <- Hh in Ho.
  pose proof (inv_freezeAndTraverse FunctionPrototype None hook_ok_None a st Hinv) as Hinv'.
  rewrite Hrun in Hinv'. simpl in Hinv'.
  destruct (visit_shape a st o r st' Hinv Ho Hrun) as (k & Hh' & Hf' & Ht & Hk & _ & Hr).
  rewrite (overridden_frozen _ o Hfr) in *.
  rewrite (override_allocs_no_cfg FunctionPrototype a (props o) (cfg_data_frozen o Hfr))
    in *.
  rewrite app_nil_r, list_insert_id in Hh' by exact Ho.
  simpl in Ht. rewrite app_nil_r in Ht.
  assert (Hrep : replay st1 st').
  { split; [exact Hinv'|]. split; [congruence|]. split; [congruence|].
    split; [|exact Hv1].
    intros x. rewrite Ht, elem_of_app. intros [Hx | Hx]; [auto|].
    destruct (Hk x Hx) as [Hx1 Hx2]. destruct (Hlinks x Hx1) as [[Hin | Hin] _];
      [|exact Hin].
    exfalso. apply Hx2. rewrite Hf. exact Hin. }
  split; [|exact Hrep].
  destruct Hr as [(-> & _) | (w & m & _ & Hw & Hno)]; [reflexivity|].
  exfalso. apply Hno. rewrite Hh', Hh. apply Hlinks. exact Hw.
Qed.

Lemma replay_dequeue st1 fuel :
  ∀ i st r st',
    replay st1 st ->
    dequeue_from FunctionPrototype None fuel i st = (r, st') ->
    replay st1 st' ∧ (r = Ret tt ∨ r = Diverge).
Proof.
  induction fuel as [|fuel IH]; intros i st r st' Hrep H; simpl in H;
    destruct (toFreeze st !! i) as [obj|] eqn:Hi; try (injection H as <- <-; auto).
  assert (Hobj : obj ∈ toFreeze st) by (eapply list_elem_of_lookup_2; eauto).
  apply bind_inv in H as [([] & s1 & H1 & H2) | [(e0 & H1 & ->) | (H1 & ->)]].
  - destruct (replay_visit st1 st obj _ _ Hrep Hobj H1) as [_ Hrep1]. eauto.
  - destruct (replay_visit st1 st obj _ _ Hrep Hobj H1) as [[=] _].
  - destruct (replay_visit st1 st obj _ _ Hrep Hobj H1) as [[=] _].
Qed.

Lemma fresh_collections_twice st :
  fresh_collections (fresh_collections st) = fresh_collections st.
Proof. destruct st; reflexivity. Qed.

(** [enqueue(root)] at the start of a call. *)
Lemma enqueue_root l0 st :
  enqueue (VRef l0) None (fresh_collections st) =
    if decide (ok_type (st_heap st) l0) then
      if decide (l0 ∈ fringeSet st) then (Ret tt, fresh_collections st)
      else (Ret tt, State (st_heap st) (fringeSet st) [l0] [] (<[l0 := None]> ∅)
                          (st_log st))
    else (Raise (TypeKindError ("Unexpected typeof: " +:+ typeof (st_heap st) l0)),
          fresh_collections st).
Proof.
  destruct st as [H F T P W L]. unfold enqueue, bind, gets, raise, ret. simpl.
  destruct (decide (ok_type H l0)) as [Hok|Hno].
  - assert (Hty : negb (bool_decide (typeof H l0 = "object")) &&
                  negb (bool_decide (typeof H l0 = "function")) = false).
    { destruct Hok as [E|E]; rewrite E; reflexivity. }
    rewrite Hty.
    destruct (decide (l0 ∈ F)) as [Hf|Hf].
    { rewrite (bool_decide_eq_true_2 _ Hf). reflexivity. }
    rewrite (bool_decide_eq_false_2 _ Hf). reflexivity.
  - assert (Hty : negb (bool_decide (typeof H l0 = "object")) &&
                  negb (bool_decide (typeof H l0 = "function")) = true).
    { apply andb_true_intro. split; apply negb_true_iff, bool_decide_eq_false_2;
        intros E; apply Hno; [left | right]; exact E. }
    rewrite Hty. reflexivity.
Qed.

Lemma harden_nothing_to_do fuel root st :
  enqueue root None (fresh_collections st) = (Ret tt, fresh_collections st) ->
  harden FunctionPrototype toStr None fuel root st = (Ret root, fresh_collections st).
Proof.
  intros H. unfold harden, modify, bind at 1. rewrite (bind_run _ _ _ _ _ H).
  unfold dequeue.
  rewrite (bind_run _ _ _ tt (fresh_collections st))
    by (apply dequeue_from_done; destruct st; reflexivity).
  assert (Hc : checkPrototypes toStr (fresh_collections st) = (Ret tt, fresh_collections st))
    by (destruct st; reflexivity).
  rewrite (bind_run _ _ _ _ _ Hc). unfold bind. rewrite commit_run.
  destruct st; reflexivity.
Qed.

Lemma walked_start l0 h F W L :
  wf_heap h -> closed h -> (∀ l, l ∈ F -> l < length h) ->
  ok_type h l0 -> l0 ∉ F ->
  walked l0 (State h F [l0] [] W L).
Proof.
  intros Hwf Hcl Hfb Hok Hnf.
  assert (Hlen : l0 < length h).
  { unfold ok_type, typeof in Hok. destruct (h !! l0) eqn:E.
    - eapply lookup_lt_Some; eauto.
    - destruct Hok; discriminate. }
  split.
  { split; [|split; [apply NoDup_singleton | exact Hwf]].
    intros l Hl. simpl in Hl. apply list_elem_of_singleton in Hl as ->. exact Hlen. }
  split; [exact Hcl|]. split; [exact Hfb|]. split; [reflexivity|]. simpl. split.
  { intros x Hx. apply list_elem_of_singleton in Hx as ->. exact Hnf. }
  split.
  { intros j x Hj. destruct j as [|j]; [left; reflexivity | discriminate]. }
  intros p Hp. inversion Hp.
Qed.

(** The start of a second call, on a root a first walk began with. *)
Lemma retry_start l0 st1 fuel :
  walked l0 st1 -> ok_type (st_heap st1) l0 ->
  ∃ s1, harden FunctionPrototype toStr None fuel (VRef l0) st1 =
          (dequeue FunctionPrototype None fuel;; checkPrototypes toStr;; commit;;
           ret (VRef l0))%H s1 ∧
        walked l0 s1 ∧ st_heap s1 = st_heap st1 ∧ fringeSet s1 = fringeSet st1 ∧
        toFreeze s1 = [l0].
Proof.
  intros Hw Hok. pose proof Hw as ((_ & _ & Hwf) & Hcl & Hfb & H0 & Hnf & _).
  assert (Hl0 : l0 ∉ fringeSet st1).
  { apply Hnf. eapply list_elem_of_lookup_2; eauto. }
  eexists. split.
  { unfold harden, modify, bind at 1. unfold bind at 1. rewrite enqueue_root.
    rewrite decide_True by exact Hok. rewrite decide_False by exact Hl0. reflexivity. }
  split; [apply walked_start; assumption|]. auto.
Qed.

Lemma retry_after_stuck l0 st1 a fuel :
  walked l0 st1 -> ok_type (st_heap st1) l0 ->
  a ∈ toFreeze st1 -> stuck st1 a ->
  weight (st_heap st1) ≤ fuel ->
  ∃ m st2, harden FunctionPrototype toStr None fuel (VRef l0) st1 =
             (Raise (TypeKindError m), st2).
Proof.
  intros Hw Hok Ha Hs Hfuel.
  destruct (retry_start l0 st1 fuel Hw Hok) as (s1 & -> & Hw1 & Hh1 & Hf1 & Ht1).
  destruct (dequeue FunctionPrototype None fuel s1) as [r2 s2] eqn:H2.
  pose proof (dequeue_from_terminates FunctionPrototype None hook_ok_None hook_bounded_None
                fuel 0 s1 (proj1 Hw1)) as Hterm.
  pose proof (hp_dequeue_from FunctionPrototype None hook_ok_None fuel 0 s1) as Hle.
  unfold dequeue in H2. rewrite H2 in Hterm, Hle. simpl in Hterm, Hle.
  unfold heap_step in Hle. rewrite Hh1 in Hle.
  pose proof (ctl_dequeue_from FunctionPrototype None fuel 0 s1) as Hc.
  rewrite H2 in Hc. simpl in Hc.
  destruct (dequeue_from_any l0 fuel 0 s1 r2 s2 Hw1) as [Hw2 Hr2];
    [intros j b Hj; lia | exact H2 |].
  destruct Hr2 as [[-> Hv] | [(m & b & -> & _) | ->]].
  - exfalso.
    assert (Ha2 : a ∈ toFreeze s2).
    { apply (revisit_covers l0 st1 s2 Hw Hle); [| | exact Hv | exact Ha].
      - destruct Hc as (-> & _). exact Hf1.
      - destruct Hw2 as (_ & _ & _ & H0 & _). exact H0. }
    destruct Hs as (o & w & Ho & Hfr & Hwl & Hno).
    destruct (Hv a Ha2) as (o2 & Ho2 & _ & Hlinks & _).
    destruct (Hle a o Ho) as (o' & Ho' & _ & _ & Hsame).
    rewrite (Hsame Hfr) in Ho'. rewrite Ho' in Ho2. injection Ho2 as <-.
    destruct (Hlinks w Hwl) as [_ Hokw]. revert Hokw.
    apply (not_ok_type_heap_le _ _ w Hle); [|exact Hno].
    destruct Hw as (_ & Hcl & _). eapply Hcl; eauto.
  - exists m, s2. unfold dequeue, bind at 1. rewrite H2. reflexivity.
  - exfalso. apply Hterm; [rewrite Hh1; lia | reflexivity].
Qed.

Lemma retry_after_unreachable l0 st1 p path fuel :
  walked l0 st1 -> ok_type (st_heap st1) l0 ->
  (∀ a, a ∈ toFreeze st1 -> visited st1 a) ->
  (p, path) ∈ prototypes st1 -> p ∉ toFreeze st1 -> p ∉ fringeSet st1 ->
  weight (st_heap st1) ≤ fuel ->
  ∃ msg st2, harden FunctionPrototype toStr None fuel (VRef l0) st1 =
               (Raise (UnreachablePrototype msg), st2).
Proof.
  intros Hw Hok Hv1 Hp Hpt Hpf Hfuel.
  destruct (retry_start l0 st1 fuel Hw Hok) as (s1 & -> & Hw1 & Hh1 & Hf1 & Ht1).
  destruct (dequeue FunctionPrototype None fuel s1) as [r2 s2] eqn:H2.
  pose proof (dequeue_from_terminates FunctionPrototype None hook_ok_None hook_bounded_None
                fuel 0 s1 (proj1 Hw1)) as Hterm.
  unfold dequeue in H2. rewrite H2 in Hterm. simpl in Hterm.
  assert (Hrep1 : replay st1 s1).
  { split; [exact (proj1 Hw1)|]. split; [exact Hh1|]. split; [exact Hf1|].
    split; [|exact Hv1]. intros x. rewrite Ht1. intros Hx.
    apply list_elem_of_singleton in Hx as ->.
    destruct Hw as (_ & _ & _ & H0 & _). eapply list_elem_of_lookup_2; eauto. }
  destruct (replay_dequeue st1 fuel 0 s1 r2 s2 Hrep1 H2) as [Hrep2 Hr2].
  destruct Hr2 as [-> | ->]; [|exfalso; apply Hterm; [rewrite Hh1; lia | reflexivity]].
  destruct Hrep2 as (_ & Hh2 & Hf2 & Hsub & _).
  destruct (dequeue_from_any l0 fuel 0 s1 (Ret tt) s2 Hw1) as [Hw2 Hr2];
    [intros j b Hj; lia | exact H2 |].
  destruct Hr2 as [[_ Hv] | [(m & b & [=] & _) | [=]]].
  assert (Hcover : ∀ x, x ∈ toFreeze st1 -> x ∈ toFreeze s2).
  { apply (revisit_covers l0 st1 s2 Hw); [| exact Hf2 | | exact Hv].
    - rewrite Hh2. intros l o Ho. exists o. auto.
    - destruct Hw2 as (_ & _ & _ & H0 & _). exact H0. }
  destruct Hw as (_ & _ & _ & _ & _ & _ & Hreg).
  destruct (Hreg p) as (a & o & Ha & Ho & Hfr & Hpo).
  { apply list_elem_of_fmap. exists (p, path). auto. }
  destruct (Hv a (Hcover a Ha)) as (o2 & Ho2 & _ & _ & Hproto).
  rewrite Hh2, Ho in Ho2. injection Ho2 as <-.
  apply Hproto, list_elem_of_fmap in Hpo as ([p' path'] & Heq & Hin).
  simpl in Heq. subst p'.
  destruct (checkPrototypes_unprocessed toStr s2 p path' Hin) as [msg Hmsg].
  { intros Hin'. apply Hpt, Hsub, Hin'. }
  { rewrite Hf2. exact Hpf. }
  exists msg, s2. unfold dequeue, bind at 1. rewrite H2.
  unfold bind at 1. rewrite Hmsg. reflexivity.
Qed.

End Retry.

(** C3, as the code has it.  A call that does not return leaves the fringe
    set as it was.  When the hardener has no prepare hook and the call
    threw, a second call on the same root throws again, an error of the
    same kind, and the fringe set is still the one before the first call.
    The heap is one where every property holds an object of the heap, and
    so does the fringe set. *)
Theorem harden_failure_leaves_fringeSet FunctionPrototype toStr hook fuel root st r st' :
  harden FunctionPrototype toStr hook fuel root st = (r, st') ->
  (∀ v, r ≠ Ret v) ->
  fringeSet st' = fringeSet st ∧
  ∀ e fuel',
    hook = None -> r = Raise e ->
    wf_heap (st_heap st) -> closed (st_heap st) ->
    (∀ l, l ∈ fringeSet st -> l < length (st_heap st)) ->
    weight (st_heap st') ≤ fuel' ->
    ∃ e' st2,
      harden FunctionPrototype toStr hook fuel' root st' = (Raise e', st2) ∧
      same_kind e e' ∧ fringeSet st2 = fringeSet st.
Proof.
  intros Hrun Hr.
  pose proof (harden_keeps_fringeSet_unless_Ret FunctionPrototype toStr hook fuel root
                st r st' Hrun Hr) as Hf.
  split; [exact Hf|]. intros e fuel' -> -> Hwf Hcl Hfb Hfuel.
  assert (Hretry : ∃ e' st2,
             harden FunctionPrototype toStr None fuel' root st' = (Raise e', st2) ∧
             same_kind e e').
  2:{ destruct Hretry as (e' & st2 & H2 & Hk). exists e', st2.
      split; [exact H2|]. split; [exact Hk|]. rewrite <- Hf.
      apply (harden_keeps_fringeSet_unless_Ret FunctionPrototype toStr None fuel' root
               st' (Raise e') st2 H2). intros v. discriminate. }
  destruct root as [pr | l0].
  { rewrite harden_nothing_to_do in Hrun by reflexivity. discriminate. }
  destruct (decide (ok_type (st_heap st) l0)) as [Hok | Hno].
  2:{ unfold harden, modify in Hrun. unfold bind at 1 in Hrun. unfold bind at 1 in Hrun.
      rewrite enqueue_root in Hrun. rewrite decide_False in Hrun by exact Hno.
      injection Hrun as <- <-. eexists. eexists. split.
      - unfold harden, modify. unfold bind at 1. unfold bind at 1.
        rewrite fresh_collections_twice, enqueue_root.
        rewrite decide_False by (destruct st; exact Hno). reflexivity.
      - exact I. }
  destruct (decide (l0 ∈ fringeSet st)) as [Hin | Hnin].
  { rewrite harden_nothing_to_do in Hrun; [discriminate|].
    rewrite enqueue_root. rewrite decide_True by exact Hok.
    rewrite decide_True by exact Hin. reflexivity. }
  unfold harden, modify in Hrun. unfold bind at 1 in Hrun. unfold bind at 1 in Hrun.
  rewrite enqueue_root in Hrun. rewrite decide_True in Hrun by exact Hok.
  rewrite decide_False in Hrun by exact Hnin.
  match type of Hrun with _ ?s = _ => set (s1 := s) in * end.
  assert (Hw1 : walked l0 s1) by (apply walked_start; assumption).
  apply bind_inv in Hrun as [([] & s2 & H1 & H) | [(e0 & H1 & [= <-]) | (H1 & [=])]].
  - pose proof (hp_dequeue_from FunctionPrototype None hook_ok_None fuel 0 s1) as Hle.
    unfold dequeue in H1. rewrite H1 in Hle. unfold heap_step in Hle. simpl in Hle.
    destruct (dequeue_from_any FunctionPrototype l0 fuel 0 s1 (Ret tt) s2 Hw1)
      as [Hw2 Hr2]; [intros j b Hj; lia | exact H1 |].
    destruct Hr2 as [[_ Hv] | [(m & b & [=] & _) | [=]]].
    apply bind_inv in H as [([] & s3 & H3 & H) | [(e0 & H3 & [= <-]) | (H3 & [=])]].
    { unfold bind in H. rewrite commit_run in H. discriminate. }
    pose proof (checkPrototypes_state toStr s2) as Hs. rewrite H3 in Hs. simpl in Hs.
    subst st'. rewrite checkPrototypes_filter in H3.
    destruct (filter (unprocessed s2) (prototypes s2)) as [|[p path] rest] eqn:Hfl;
      [discriminate|].
    injection H3 as <-.
    assert (Hp : (p, path) ∈ (p, path) :: rest) by left.
    rewrite <- Hfl in Hp.
    apply list_elem_of_filter in Hp as [[Hpt Hpf] Hp]. simpl in Hpt, Hpf.
    destruct (retry_after_unreachable FunctionPrototype toStr l0 s2 p path fuel' Hw2)
      as (msg & st2 & H2); auto.
    { eapply ok_type_heap_le; eauto. }
    exists (UnreachablePrototype msg), st2. split; [exact H2 | exact I].
  - pose proof (hp_dequeue_from FunctionPrototype None hook_ok_None fuel 0 s1) as Hle.
    unfold dequeue in H1. rewrite H1 in Hle. unfold heap_step in Hle. simpl in Hle.
    destruct (dequeue_from_any FunctionPrototype l0 fuel 0 s1 (Raise e) st' Hw1)
      as [Hw2 Hr2]; [intros j b Hj; lia | exact H1 |].
    destruct Hr2 as [[[=] _] | [(m & b & [= ->] & Hb & Hs) | [=]]].
    destruct (retry_after_stuck FunctionPrototype toStr l0 st' b fuel' Hw2)
      as (m' & st2 & H2); auto.
    { eapply ok_type_heap_le; eauto. }
    exists (TypeKindError m'), st2. split; [exact H2 | exact I].
Qed.


(** ** Further properties of the hardener

    What [harden] does to the heap and to the fringe set, whatever its
    outcome. *)

(** X2. No call of [harden] takes anything out of the fringe set, and a
    call that returns has added exactly the members of its [toFreeze]. *)
Theorem harden_fringeSet_grows FunctionPrototype toStr hook fuel root st r st' :
  harden FunctionPrototype toStr hook fuel root st = (r, st') ->
  fringeSet st ⊆ fringeSet st' ∧
  (∀ v, r = Ret v -> fringeSet st' = list_to_set (toFreeze st') ∪ fringeSet st).
Proof.
  intros Hrun.
  assert (Hret : ∀ v, r = Ret v ->
            fringeSet st' = list_to_set (toFreeze st') ∪ fringeSet st).
  { intros v ->. apply harden_Ret in Hrun as (st1 & st2 & H1 & H2 & _ & -> & _).
    pose proof (ctl_enqueue root None (fresh_collections st)) as (F1 & _).
    rewrite H1 in F1. simpl in F1.
    pose proof (ctl_dequeue_from FunctionPrototype hook fuel 0 st1) as (F2 & _).
    unfold dequeue in H2. rewrite H2 in F2. simpl in F2.
    assert (Ht : toFreeze (commit st2).2 = toFreeze st2).
    { rewrite commit_run. destruct (toFreeze st2) eqn:E; simpl; exact E. }
    rewrite Ht, commit_fringeSet, F2, F1. reflexivity. }
  split; [|exact Hret].
  destruct r as [v | e |].
  - rewrite (Hret v eq_refl). set_solver.
  - rewrite (harden_keeps_fringeSet_unless_Ret _ _ _ _ _ _ _ _ Hrun); [set_solver|].
    intros v. discriminate.
  - rewrite (harden_keeps_fringeSet_unless_Ret _ _ _ _ _ _ _ _ Hrun); [set_solver|].
    intros v. discriminate.
Qed.

(** The fringe set holds frozen objects only, and whatever a member holds
    or inherits from is a member. *)
Definition fringe_closed (st : state) : Prop :=
  ∀ l, l ∈ fringeSet st ->
    ∃ o, st_heap st !! l = Some o ∧ isFrozen o ∧
         ∀ l', l' ∈ out_links o -> l' ∈ fringeSet st.

Lemma harden_new_members FunctionPrototype toStr hook fuel root st v st' l :
  hook_ok hook -> wf_heap (st_heap st) ->
  harden FunctionPrototype toStr hook fuel root st = (Ret v, st') ->
  l ∈ fringeSet st' -> l ∉ fringeSet st ->
  ∃ o, st_heap st' !! l = Some o ∧ isFrozen o ∧
       ∀ l', l' ∈ out_links o -> l' ∈ fringeSet st'.
Proof.
  intros Hhook Hwf Hrun Hin Hnew.
  destruct (harden_Ret_walk FunctionPrototype toStr hook Hhook fuel root st v st' Hwf Hrun)
    as (st2 & -> & Hf & _ & _ & Hproc & Hreg).
  assert (Hheap : st_heap (commit st2).2 = st_heap st2).
  { rewrite commit_run. destruct (toFreeze st2); reflexivity. }
  rewrite commit_fringeSet in Hin.
  assert (Hknown : ∀ x, known st2 x -> x ∈ fringeSet (commit st2).2).
  { intros x [Hx | Hx]; rewrite commit_fringeSet; set_solver. }
  assert (Hl : l ∈ toFreeze st2) by (rewrite Hf in Hin; set_solver).
  destruct (Hproc l Hl) as (o & Ho & Hfr & Hlinks & Hproto).
  exists o. rewrite Hheap. split; [exact Ho|]. split; [exact Hfr|].
  intros l'. unfold out_links. rewrite elem_of_app. intros [Hp | Hv].
  - destruct (proto o) as [p|] eqn:Hpo; simpl in Hp; [|inversion Hp].
    apply list_elem_of_singleton in Hp as ->. apply Hknown, Hreg, Hproto. reflexivity.
  - apply Hknown, Hlinks, Hv.
Qed.

(** X3. Every object that a returning call of [harden] adds to the fringe
    set is frozen, and its prototype, the values of its properties and its
    accessor functions are in the fringe set too.  So a fringe set closed in
    this way before a call is closed after it, whether the call returns or
    throws. *)
Theorem harden_keeps_fringe_closed FunctionPrototype toStr hook fuel root st r st' :
  hook_ok hook -> wf_heap (st_heap st) ->
  harden FunctionPrototype toStr hook fuel root st = (r, st') ->
  (∀ v l, r = Ret v -> l ∈ fringeSet st' -> l ∉ fringeSet st ->
     ∃ o, st_heap st' !! l = Some o ∧ isFrozen o ∧
          ∀ l', l' ∈ out_links o -> l' ∈ fringeSet st') ∧
  (fringe_closed st -> fringe_closed st').
Proof.
  intros Hhook Hwf Hrun.
  assert (Hnew : ∀ v l, r = Ret v -> l ∈ fringeSet st' -> l ∉ fringeSet st ->
            ∃ o, st_heap st' !! l = Some o ∧ isFrozen o ∧
                 ∀ l', l' ∈ out_links o -> l' ∈ fringeSet st').
  { intros v l ->. eapply harden_new_members; eauto. }
  split; [exact Hnew|]. intros Hcl l Hl.
  pose proof (hp_harden FunctionPrototype toStr hook Hhook fuel root st) as Hle.
  rewrite Hrun in Hle. unfold heap_step in Hle. simpl in Hle.
  assert (Hsub : fringeSet st ⊆ fringeSet st').
  { destruct r as [v | e |].
    - apply harden_Ret in Hrun as (st1 & st2 & H1 & H2 & _ & -> & _).
      pose proof (ctl_enqueue root None (fresh_collections st)) as (F1 & _).
      rewrite H1 in F1. simpl in F1.
      pose proof (ctl_dequeue_from FunctionPrototype hook fuel 0 st1) as (F2 & _).
      unfold dequeue in H2. rewrite H2 in F2. simpl in F2.
      rewrite commit_fringeSet, F2, F1. set_solver.
    - rewrite (harden_keeps_fringeSet_unless_Ret _ _ _ _ _ _ _ _ Hrun); [set_solver|].
      intros v. discriminate.
    - rewrite (harden_keeps_fringeSet_unless_Ret _ _ _ _ _ _ _ _ Hrun); [set_solver|].
      intros v. discriminate. }
  destruct (decide (l ∈ fringeSet st)) as [Hold | Hfresh].
  - destruct (Hcl l Hold) as (o & Ho & Hfr & Hlinks).
    destruct (Hle l o Ho) as (o' & Ho' & _ & _ & Hsame). rewrite (Hsame Hfr) in Ho'.
    exists o. split; [exact Ho'|]. split; [exact Hfr|]. intros l' Hl'.
    apply Hsub, Hlinks, Hl'.
  - destruct r as [v | e |].
    + apply (Hnew v l eq_refl Hl Hfresh).
    + exfalso. apply Hfresh.
      rewrite <- (harden_keeps_fringeSet_unless_Ret _ _ _ _ _ _ _ _ Hrun); [exact Hl|].
      intros v. discriminate.
    + exfalso. apply Hfresh.
      rewrite <- (harden_keeps_fringeSet_unless_Ret _ _ _ _ _ _ _ _ Hrun); [exact Hl|].
      intros v. discriminate.
Qed.

(** X4. A primitive root, and a root that is already in the fringe set,
    are returned at once: whatever the fuel and the hook, no node is
    visited, the hook is not called, and heap, fringe set and log stay as
    they were. *)
Theorem harden_skips_primitives_and_fringe FunctionPrototype toStr hook fuel root st :
  (∀ l, root = VRef l -> l ∈ fringeSet st ∧ ok_type (st_heap st) l) ->
  ∃ st', harden FunctionPrototype toStr hook fuel root st = (Ret root, st') ∧
         st_heap st' = st_heap st ∧ fringeSet st' = fringeSet st ∧
         st_log st' = st_log st ∧ toFreeze st' = [].
Proof.
  intros Hroot.
  assert (H : enqueue root None (fresh_collections st) = (Ret tt, fresh_collections st)).
  { destruct root as [p | l]; [reflexivity|].
    destruct (Hroot l eq_refl) as [Hin Hok]. rewrite enqueue_root.
    rewrite decide_True by exact Hok. rewrite decide_True by exact Hin. reflexivity. }
  exists (fresh_collections st). split; [|destruct st; auto].
  unfold harden, modify, bind at 1. rewrite (bind_run _ _ _ _ _ H).
  unfold dequeue.
  rewrite (bind_run _ _ _ tt (fresh_collections st))
    by (apply dequeue_from_done; destruct st; reflexivity).
  assert (Hc : checkPrototypes toStr (fresh_collections st) = (Ret tt, fresh_collections st))
    by (destruct st; reflexivity).
  rewrite (bind_run _ _ _ _ _ Hc). unfold bind. rewrite commit_run.
  destruct st; reflexivity.
Qed.

(** X5. A root whose [typeof] is neither ["object"] nor ["function"] makes
    [harden] throw the TypeKindError that names this [typeof], before the
    fringe set is looked at: being a member does not help.  Nothing is
    visited or changed. *)
Theorem harden_rejects_unexpected_typeof FunctionPrototype toStr hook fuel l0 st :
  ¬ ok_type (st_heap st) l0 ->
  ∃ st', harden FunctionPrototype toStr hook fuel (VRef l0) st =
           (Raise (TypeKindError ("Unexpected typeof: " +:+ typeof (st_heap st) l0)), st') ∧
         st_heap st' = st_heap st ∧ fringeSet st' = fringeSet st ∧
         st_log st' = st_log st ∧ toFreeze st' = [].
Proof.
  intros Hno. exists (fresh_collections st). split; [|destruct st; auto].
  unfold harden, modify. unfold bind at 1. unfold bind at 1. rewrite enqueue_root.
  rewrite decide_False by exact Hno. reflexivity.
Qed.


(** *** [freezeWithOverride] on one object *)

Lemma keys_freeze (ps : list (key * desc)) :
  (map (fun kd => (kd.1, freeze_desc kd.2)) ps).*1 = ps.*1.
Proof.
  induction ps as [|[k d] ps IH]; [reflexivity|].
  cbn [map]. rewrite !fmap_cons, IH. reflexivity.
Qed.

Lemma freezeWithOverride_at FunctionPrototype obj st o :
  inv st -> st_heap st !! obj = Some o ->
  ∃ st',
    freezeWithOverride FunctionPrototype obj st = (Ret tt, st') ∧
    st_heap st' = <[obj := overridden (length (st_heap st)) o]> (st_heap st)
                    ++ override_allocs FunctionPrototype obj (props o) ∧
    st_heap st' !! obj = Some (overridden (length (st_heap st)) o) ∧
    fringeSet st' = fringeSet st ∧ prototypes st' = prototypes st ∧
    toFreeze st' =
      toFreeze st ++ seq (length (st_heap st))
                         (length (override_allocs FunctionPrototype obj (props o))).
Proof.
  intros (Hb & Hnd & Hwf) Ho.
  assert (Hwo : wf_object o).
  { unfold wf_heap in Hwf. rewrite Forall_forall in Hwf. apply Hwf.
    eapply list_elem_of_lookup_2; eauto. }
  assert (Hlen : obj < length (st_heap st)) by (eapply lookup_lt_Some; eauto).
  eexists. split; [apply (freezeWithOverride_run FunctionPrototype obj st o Ho Hwo Hb)|].
  simpl. split; [reflexivity|]. split; [|auto].
  rewrite lookup_app_l by (rewrite length_insert; exact Hlen).
  apply list_lookup_insert_eq. exact Hlen.
Qed.

(** X6. [freezeWithOverride] on an object of the heap returns and leaves
    the object frozen, with the same keys in the same order, the same
    prototype, the same [typeof]; no other object that was in the heap is
    touched, and neither are the fringe set and the registry. *)
Theorem freezeWithOverride_freezes_in_place FunctionPrototype obj st o :
  inv st -> st_heap st !! obj = Some o ->
  ∃ st' o',
    freezeWithOverride FunctionPrototype obj st = (Ret tt, st') ∧
    st_heap st' !! obj = Some o' ∧ isFrozen o' ∧
    (props o').*1 = (props o).*1 ∧
    proto o' = proto o ∧ type_of o' = type_of o ∧ body o' = body o ∧
    (∀ l, l ≠ obj -> l < length (st_heap st) -> st_heap st' !! l = st_heap st !! l) ∧
    fringeSet st' = fringeSet st ∧ prototypes st' = prototypes st.
Proof.
  intros Hinv Ho.
  destruct (freezeWithOverride_at FunctionPrototype obj st o Hinv Ho)
    as (st' & Hrun & Hh & Hobj & Hf & Hp & _).
  exists st', (overridden (length (st_heap st)) o).
  split; [exact Hrun|]. split; [exact Hobj|].
  split; [apply isFrozen_freeze_object|]. split.
  { unfold overridden. simpl. rewrite keys_freeze. apply keys_override_descs. }
  split; [reflexivity|]. split; [reflexivity|]. split; [reflexivity|].
  split; [|auto]. intros l Hne Hl.
  rewrite Hh, lookup_app_l by (rewrite length_insert; exact Hl).
  apply list_lookup_insert_ne. auto.
Qed.

Lemma lookup_prop_overridden k d ps :
  ∀ n, lookup_prop k ps = Some d ->
    ∃ d', lookup_prop k (map (fun kd => (kd.1, freeze_desc kd.2)) (override_descs n ps))
            = Some d' ∧
          enumerable d' = enumerable d ∧ configurable d' = false ∧
          (is_cfg_data d = false -> d' = freeze_desc d).
Proof.
  induction ps as [|[k0 d0] ps IH]; intros n; [discriminate|]. simpl.
  destruct (decide (k = k0)) as [-> | Hne].
  - intros [= ->].
    destruct d as [v w e [|]|g s e [|]]; cbn [override_descs map fst snd lookup_prop];
      rewrite decide_True by reflexivity; eexists; (split; [reflexivity|]);
      simpl; auto. repeat split; auto. discriminate.
  - intros H.
    destruct d0 as [v w e [|]|g s e [|]]; cbn [override_descs map fst snd lookup_prop];
      rewrite decide_False by exact Hne; apply IH; exact H.
Qed.

(** X7. After [freezeWithOverride] every property of the object is
    non-configurable and as enumerable as it was.  A property that was
    not a configurable data property (an accessor, or a data property
    already locked) ends exactly as [Object.freeze] alone leaves it: an
    accessor keeps its getter and its setter, a data property keeps its
    value and is read-only. *)
Theorem freezeWithOverride_locks_every_property FunctionPrototype obj st o k d :
  inv st -> st_heap st !! obj = Some o ->
  lookup_prop k (props o) = Some d ->
  ∃ st' d',
    freezeWithOverride FunctionPrototype obj st = (Ret tt, st') ∧
    lookup_prop k (props_at (st_heap st') obj) = Some d' ∧
    enumerable d' = enumerable d ∧ configurable d' = false ∧
    (is_cfg_data d = false -> d' = freeze_desc d).
Proof.
  intros Hinv Ho Hk.
  destruct (freezeWithOverride_at FunctionPrototype obj st o Hinv Ho)
    as (st' & Hrun & _ & Hobj & _).
  destruct (lookup_prop_overridden k d (props o) (length (st_heap st)) Hk)
    as (d' & Hd' & He & Hc & Hfz).
  exists st', d'. split; [exact Hrun|]. split; [|auto].
  unfold props_at. rewrite Hobj. exact Hd'.
Qed.

Lemma override_allocs_shape FunctionPrototype obj ps f :
  f ∈ override_allocs FunctionPrototype obj ps ->
  type_of f = "function" ∧ proto f = Some FunctionPrototype ∧ isFrozen f.
Proof.
  induction ps as [|[k d] ps IH]; [intros H; inversion H|].
  destruct d as [v w e [|]|g s e c]; cbn [override_allocs]; auto.
  rewrite !elem_of_cons. intros [-> | [-> | H]]; auto.
  - split; [reflexivity|]. split; [reflexivity|]. apply isFrozen_freeze_object.
  - split; [reflexivity|]. split; [reflexivity|]. apply isFrozen_freeze_object.
Qed.

(** X8. [freezeWithOverride] creates two functions for each configurable
    data property of the object and nothing else: the heap grows by twice
    their number, the new objects are frozen functions inheriting from
    [Function.prototype], and they are appended to [toFreeze] in creation
    order. *)
Theorem freezeWithOverride_allocates_accessor_pairs FunctionPrototype obj st o :
  inv st -> st_heap st !! obj = Some o ->
  ∃ st',
    freezeWithOverride FunctionPrototype obj st = (Ret tt, st') ∧
    length (st_heap st') = length (st_heap st) + 2 * cfg_data o ∧
    toFreeze st' = toFreeze st ++ seq (length (st_heap st)) (2 * cfg_data o) ∧
    ∀ l, length (st_heap st) ≤ l < length (st_heap st') ->
      ∃ f, st_heap st' !! l = Some f ∧ type_of f = "function" ∧
           proto f = Some FunctionPrototype ∧ isFrozen f.
Proof.
  intros Hinv Ho.
  destruct (freezeWithOverride_at FunctionPrototype obj st o Hinv Ho)
    as (st' & Hrun & Hh & _ & _ & _ & Ht).
  rewrite length_override_allocs in Ht.
  assert (Hlen : length (st_heap st') = length (st_heap st) + 2 * cfg_data o).
  { rewrite Hh, length_app, length_insert, length_override_allocs. reflexivity. }
  exists st'. split; [exact Hrun|]. split; [exact Hlen|]. split; [exact Ht|].
  intros l Hl.
  destruct (lookup_lt_is_Some_2 (st_heap st') l) as [f Hf]; [lia|].
  exists f. split; [exact Hf|].
  rewrite Hh, lookup_app_r in Hf by (rewrite length_insert; lia).
  apply list_elem_of_lookup_2 in Hf. eapply override_allocs_shape; eauto.
Qed.

(** X9. On an object that is already frozen [freezeWithOverride] changes
    nothing: the heap and [toFreeze] are as before, no function is
    created, and the object keeps its data properties as they are. *)
Theorem freezeWithOverride_frozen_is_noop FunctionPrototype obj st o :
  inv st -> st_heap st !! obj = Some o -> isFrozen o ->
  ∃ st',
    freezeWithOverride FunctionPrototype obj st = (Ret tt, st') ∧
    st_heap st' = st_heap st ∧ toFreeze st' = toFreeze st ∧
    fringeSet st' = fringeSet st ∧ prototypes st' = prototypes st.
Proof.
  intros Hinv Ho Hfr.
  destruct (freezeWithOverride_at FunctionPrototype obj st o Hinv Ho)
    as (st' & Hrun & Hh & _ & Hf & Hp & Ht).
  rewrite (overridden_frozen _ o Hfr) in Hh.
  rewrite (override_allocs_no_cfg FunctionPrototype obj (props o) (cfg_data_frozen o Hfr))
    in Hh, Ht.
  rewrite app_nil_r, list_insert_id in Hh by exact Ho.
  simpl in Ht. rewrite app_nil_r in Ht.
  exists st'. auto.
Qed.


(** *** The accessor pair, from below and from the node *)

(** X10. Reading a rewritten property through the prototype chain, from
    any object that inherits it from the hardened node and has no own
    property of that name on the way, gives the captured value and changes
    nothing, in any later heap. *)
Theorem inherited_read_gives_captured_value
    FunctionPrototype toStr call_foreign obj st0 o k v w e st1 st c n fuel :
  inv st0 ->
  st_heap st0 !! obj = Some o ->
  (k, DataDesc v w e true) ∈ props o ->
  freezeWithOverride FunctionPrototype obj st0 = (Ret tt, st1) ->
  heap_le (st_heap st1) (st_heap st) ->
  inherits (st_heap st) k obj c n -> n < fuel ->
  read toStr call_foreign fuel c k st = (Ret v, st).
Proof.
  intros Hinv Hobj Hin Hrun Hle Hinh Hfuel.
  destruct (freezeWithOverride_rewritten _ _ _ _ _ _ _ _ _ _ Hinv Hobj Hin Hrun Hle)
    as (g & s & (e' & Hacc) & Hg & _).
  unfold read.
  rewrite (OrdinaryGet_inherits toStr call_foreign _ k obj c n Hinh fuel (VRef c) st
             _ _ _ _ eq_refl Hacc Hfuel).
  apply call_override_get. exact Hg.
Qed.

(** X11. Assigning to a rewritten property on the hardened node itself
    always throws and changes nothing, whatever the key.  When the text of
    the message cannot be built, because the key is a symbol or the node
    has no string form, what is thrown is the error of that conversion. *)
Theorem direct_assignment_always_throws
    FunctionPrototype toStr call_foreign obj st0 o k v w e st1 st fuel nv :
  inv st0 ->
  st_heap st0 !! obj = Some o ->
  (k, DataDesc v w e true) ∈ props o ->
  freezeWithOverride FunctionPrototype obj st0 = (Ret tt, st1) ->
  heap_le (st_heap st1) (st_heap st) ->
  0 < fuel ->
  ∃ err, assign toStr call_foreign fuel obj k nv st = (Raise err, st) ∧
         (read_only_message toStr obj k = None -> ∃ m, err = HostError m).
Proof.
  intros Hinv Hobj Hin Hrun Hle Hfuel.
  destruct (freezeWithOverride_rewritten _ _ _ _ _ _ _ _ _ _ Hinv Hobj Hin Hrun Hle)
    as (g & s & (e' & Hacc) & _ & Hs).
  eexists. split.
  - unfold assign. unfold bind at 1.
    rewrite (OrdinarySet_inherits toStr call_foreign _ k obj obj 0 (inherits_here _ _ _)
               fuel nv (VRef obj) st _ _ _ _ eq_refl Hacc Hfuel).
    unfold bind at 1. rewrite (call_override_set_self _ _ _ _ _ _ _ Hs). reflexivity.
  - intros ->. eexists. reflexivity.
Qed.

(** *** [checkPrototypes] and the hook *)

Lemma filter_head {A} (P : A -> Prop) `{!∀ x, Decision (P x)} (l : list A) x t :
  filter P l = x :: t ->
  ∃ before after, l = before ++ x :: after ∧ P x ∧ Forall (fun y => ¬ P y) before.
Proof.
  induction l as [|y l IH]; [discriminate|].
  destruct (decide (P y)) as [Hy | Hy].
  - rewrite filter_cons_True by exact Hy. intros [= -> _].
    exists [], l. split; [reflexivity|]. split; [exact Hy | constructor].
  - rewrite filter_cons_False by exact Hy. intros Hfl.
    destruct (IH Hfl) as (b & a & -> & Hx & Hb).
    exists (y :: b), a. split; [reflexivity|]. split; [exact Hx|].
    constructor; assumption.
Qed.

(** X12. When [checkPrototypes] throws, the error is about the first
    prototype, in the order of registration, that is in neither [toFreeze]
    nor the fringe set: every prototype registered before it is in one of
    the two. *)
Theorem checkPrototypes_reports_first_offender toStr st err st' :
  checkPrototypes toStr st = (Raise err, st') ->
  ∃ before p path after,
    prototypes st = before ++ (p, path) :: after ∧
    err = UnreachablePrototype (prototype_message toStr p path) ∧
    (p ∉ toFreeze st) ∧ (p ∉ fringeSet st) ∧
    ∀ q qpath, (q, qpath) ∈ before -> q ∈ toFreeze st ∨ q ∈ fringeSet st.
Proof.
  rewrite checkPrototypes_filter.
  destruct (filter (unprocessed st) (prototypes st)) as [|[p path] t] eqn:Hfl;
    [discriminate|].
  intros [= <- _].
  apply filter_head in Hfl as (before & after & Heq & [Hpt Hpf] & Hb).
  exists before, p, path, after. split; [exact Heq|]. split; [reflexivity|].
  split; [exact Hpt|]. split; [exact Hpf|].
  intros q qpath Hq. rewrite Forall_forall in Hb. specialize (Hb _ Hq).
  unfold unprocessed in Hb. simpl in Hb.
  destruct (decide (q ∈ toFreeze st)) as [|Hn1]; [left; assumption|].
  destruct (decide (q ∈ fringeSet st)) as [|Hn2]; [right; assumption|].
  exfalso. apply Hb. split; assumption.
Qed.

(** X13. An error thrown by the prepare hook on the root leaves [harden]
    as it is: the call throws that very error, the heap is the one the
    hook left, so the root is not frozen by the call, and the fringe set is
    unchanged. *)
Theorem hook_error_propagates FunctionPrototype toStr f fuel l0 st err h' :
  ok_type (st_heap st) l0 -> l0 ∉ fringeSet st ->
  f l0 (st_heap st) = (Some err, h') ->
  ∃ st', harden FunctionPrototype toStr (Some f) (S fuel) (VRef l0) st = (Raise err, st') ∧
         st_heap st' = h' ∧ fringeSet st' = fringeSet st ∧
         st_log st' = st_log st ++ [EvPrepare l0].
Proof.
  intros Hok Hnin Hf. eexists. split.
  - unfold harden, modify. unfold bind at 1. unfold bind at 1. rewrite enqueue_root.
    rewrite decide_True by exact Hok. rewrite decide_False by exact Hnin.
    unfold dequeue. unfold bind at 1. cbn [dequeue_from toFreeze lookup list_lookup].
    unfold bind at 1. unfold freezeAndTraverse. unfold bind at 1.
    unfold prepare. cbn [st_heap]. rewrite Hf. reflexivity.
  - simpl. auto.
Qed.


(** *** What a whole call keeps *)

Lemma dequeue_from_keeps (I : state -> Prop) FunctionPrototype hook fuel :
  (∀ obj s, I s -> obj ∈ toFreeze s -> I (freezeAndTraverse FunctionPrototype hook obj s).2) ->
  ∀ i st, I st -> I (dequeue_from FunctionPrototype hook fuel i st).2.
Proof.
  intros Hv. induction fuel as [|fuel IH]; intros i st HI; simpl;
    destruct (toFreeze st !! i) as [obj|] eqn:Hi; try exact HI.
  unfold bind.
  pose proof (Hv obj st HI (list_elem_of_lookup_2 _ _ _ Hi)) as H1.
  destruct (freezeAndTraverse FunctionPrototype hook obj st) as [[[]|e|] s1];
    simpl in *; auto.
Qed.

Lemma commit_same st :
  st_heap (commit st).2 = st_heap st ∧ toFreeze (commit st).2 = toFreeze st ∧
  fringeSet st ⊆ fringeSet (commit st).2.
Proof.
  rewrite commit_fringeSet, commit_run.
  destruct (toFreeze st) eqn:E; simpl; rewrite ?E; repeat split; auto; set_solver.
Qed.

Lemma inv_commit st : inv st -> inv (commit st).2.
Proof.
  intros (Hb & Hnd & Hwf). destruct (commit_same st) as (Hh & Ht & _).
  unfold inv. rewrite Hh, Ht. auto.
Qed.

(** An invariant of [enqueue], of a visit and of [commit] is one of
    [harden]. *)
Lemma harden_keeps (I : state -> Prop) FunctionPrototype toStr hook fuel root st :
  (∀ v p s, I s -> I (enqueue v p s).2) ->
  (∀ obj s, I s -> obj ∈ toFreeze s -> I (freezeAndTraverse FunctionPrototype hook obj s).2) ->
  (∀ s, I s -> I (commit s).2) ->
  I (fresh_collections st) ->
  I (harden FunctionPrototype toStr hook fuel root st).2.
Proof.
  intros He Hv Hc H0. unfold harden, modify. unfold bind at 1. unfold bind at 1.
  pose proof (He root None _ H0) as H1.
  destruct (enqueue root None (fresh_collections st)) as [[[]|e|] s1]; simpl in *; auto.
  unfold bind at 1. unfold dequeue.
  pose proof (dequeue_from_keeps I FunctionPrototype hook fuel Hv 0 s1 H1) as H2.
  destruct (dequeue_from FunctionPrototype hook fuel 0 s1) as [[[]|e|] s2];
    simpl in *; auto.
  unfold bind at 1. pose proof (checkPrototypes_state toStr s2) as Hs.
  destruct (checkPrototypes toStr s2) as [[[]|e|] s3]; simpl in *; subst s3; auto.
  unfold bind. pose proof (Hc s2 H2) as H3.
  destruct (commit s2) as [[[]|e|] s4]; simpl in *; auto.
Qed.


(** The objects the heap [h0] had are, in [st], as they were or rewritten
    and frozen; those not in [toFreeze] are as they were. *)
Definition rewrites_only (h0 : heap) (st : state) : Prop :=
  ∀ l o, h0 !! l = Some o ->
    (l ∉ toFreeze st -> st_heap st !! l = Some o) ∧
    (st_heap st !! l = Some o ∨ ∃ n, st_heap st !! l = Some (overridden n o)).

Lemma rewrites_only_visit FunctionPrototype h0 a st :
  inv st ∧ rewrites_only h0 st -> a ∈ toFreeze st ->
  inv (freezeAndTraverse FunctionPrototype None a st).2 ∧
  rewrites_only h0 (freezeAndTraverse FunctionPrototype None a st).2.
Proof.
  intros [Hinv Hrw] Ha.
  split; [apply (inv_freezeAndTraverse FunctionPrototype None hook_ok_None a st Hinv)|].
  destruct (freezeAndTraverse FunctionPrototype None a st) as [r st'] eqn:Hrun.
  pose proof Hinv as (Hb & _).
  destruct (lookup_lt_is_Some_2 _ _ (Hb a Ha)) as [oa Hoa].
  destruct (visit_shape FunctionPrototype a st oa r st' Hinv Hoa Hrun)
    as (k & Hh & _ & Ht & _).
  simpl. intros l o Hl. destruct (Hrw l o Hl) as [Hout Hcase].
  assert (Hlen : l < length (st_heap st)).
  { destruct Hcase as [H | [n H]]; eapply lookup_lt_Some; eauto. }
  destruct (decide (l = a)) as [-> | Hne].
  - assert (Ha' : st_heap st' !! a = Some (overridden (length (st_heap st)) oa)).
    { rewrite Hh, lookup_app_l by (rewrite length_insert; exact Hlen).
      apply list_lookup_insert_eq. exact Hlen. }
    split.
    + intros Hnot. exfalso. apply Hnot. rewrite Ht, !elem_of_app. auto.
    + right. destruct Hcase as [H | [n H]]; rewrite H in Hoa; injection Hoa as <-.
      * eexists. exact Ha'.
      * exists n. rewrite Ha'. f_equal. apply overridden_frozen.
        apply isFrozen_freeze_object.
  - assert (Hsame : st_heap st' !! l = st_heap st !! l).
    { rewrite Hh, lookup_app_l by (rewrite length_insert; exact Hlen).
      apply list_lookup_insert_ne. auto. }
    rewrite Hsame. split; [|exact Hcase].
    intros Hnot. apply Hout. intros Hin. apply Hnot.
    rewrite Ht, !elem_of_app. auto.
Qed.

(** X15. Without a prepare hook, a call of [harden] changes no object
    outside its [toFreeze], whether the call returns or throws; fringe
    members in particular are left alone, frozen or not.  An object it does
    change ends as [freezeWithOverride] leaves it: frozen, with the same
    keys, prototype and [typeof]. *)
Theorem harden_touches_only_its_work_set FunctionPrototype toStr fuel root st r st' l o :
  wf_heap (st_heap st) ->
  harden FunctionPrototype toStr None fuel root st = (r, st') ->
  st_heap st !! l = Some o ->
  (l ∉ toFreeze st' -> st_heap st' !! l = Some o) ∧
  (st_heap st' !! l = Some o ∨ ∃ n, st_heap st' !! l = Some (overridden n o)).
Proof.
  intros Hwf Hrun Hl.
  pose proof (harden_keeps (fun s => inv s ∧ rewrites_only (st_heap st) s)
                FunctionPrototype toStr None fuel root st) as H.
  rewrite Hrun in H. simpl in H. destruct H as [_ H].
  - intros v p s [Hi Hrw]. split; [apply inv_enqueue; exact Hi|].
    pose proof (ctl_enqueue v p s) as (_ & [k Hk] & _).
    intros l1 o1 Hl1. destruct (Hrw l1 o1 Hl1) as [Hout Hcase].
    rewrite enqueue_heap. split; [|exact Hcase].
    intros Hnot. apply Hout. intros Hin. apply Hnot. rewrite Hk, elem_of_app. auto.
  - intros obj s HI Hobj. apply rewrites_only_visit; assumption.
  - intros s [Hi Hrw]. destruct (commit_same s) as (Hh & Ht & _).
    split; [apply inv_commit; exact Hi|].
    intros l1 o1 Hl1. rewrite Hh, Ht. apply Hrw. exact Hl1.
  - split; [apply inv_fresh_collections; exact Hwf|].
    intros l1 o1 Hl1. destruct st; simpl in *. auto.
  - apply H. exact Hl.
Qed.


(** The members of [toFreeze] are objects or functions of the heap that
    were not in the fringe set [F0] of the start of the call. *)
Definition disciplined (F0 : gset loc) (st : state) : Prop :=
  inv st ∧ F0 ⊆ fringeSet st ∧
  (∀ l, l ∈ F0 -> l < length (st_heap st)) ∧
  (∀ l, l ∈ toFreeze st -> (l ∉ F0) ∧ ok_type (st_heap st) l).

Lemma disciplined_enqueue F0 v p st :
  disciplined F0 st -> disciplined F0 (enqueue v p st).2.
Proof.
  intros (Hinv & Hsub & Hfb & Hmem).
  split; [apply inv_enqueue; exact Hinv|].
  destruct (enqueue v p st) as [r st'] eqn:Hrun.
  apply enqueue_any in Hrun as (Hh & Hf & _ & (k & Ht & Hk) & _). simpl.
  rewrite Hh, Hf, Ht. split; [exact Hsub|]. split; [exact Hfb|].
  intros l. rewrite elem_of_app. intros [Hl | Hl]; [auto|].
  destruct (Hk l Hl) as (_ & Hok & Hnf). split; [|exact Hok].
  intros Hin. apply Hnf, Hsub, Hin.
Qed.

Lemma disciplined_heap F0 st h' ev :
  disciplined F0 st -> heap_le (st_heap st) h' -> wf_heap h' ->
  disciplined F0 (emit ev (set_heap h' st)).
Proof.
  intros ((Hb & Hnd & _) & Hsub & Hfb & Hmem) Hle Hwf.
  pose proof (heap_le_length _ _ Hle) as Hlen.
  destruct st as [H F T P W L]. simpl in *.
  split; [|split; [exact Hsub|split]].
  - split; [|split; [exact Hnd | exact Hwf]]. simpl. intros l Hl.
    apply Hb in Hl. lia.
  - simpl. intros l Hl. apply Hfb in Hl. lia.
  - simpl. intros l Hl. destruct (Hmem l Hl) as [Hn Hok]. split; [exact Hn|].
    eapply ok_type_heap_le; eauto.
Qed.

Lemma disciplined_visit FunctionPrototype F0 a st :
  disciplined F0 st -> a ∈ toFreeze st ->
  disciplined F0 (freezeAndTraverse FunctionPrototype None a st).2.
Proof.
  intros (Hinv & Hsub & Hfb & Hmem) Ha.
  split; [apply (inv_freezeAndTraverse FunctionPrototype None hook_ok_None a st Hinv)|].
  pose proof (hp_freezeAndTraverse FunctionPrototype None hook_ok_None a st) as Hle.
  unfold heap_step in Hle.
  pose proof Hinv as (Hb & _ & Hwf).
  destruct (lookup_lt_is_Some_2 _ _ (Hb a Ha)) as [o Ho].
  assert (Hwo : wf_object o).
  { unfold wf_heap in Hwf. rewrite Forall_forall in Hwf. apply Hwf.
    eapply list_elem_of_lookup_2; eauto. }
  pose proof (freezeWithOverride_run FunctionPrototype a st o Ho Hwo Hb) as Hfwo.
  match type of Hfwo with _ = (_, ?s) => set (sf := s) in * end.
  rewrite (freezeAndTraverse_run FunctionPrototype None a st st sf eq_refl Hfwo) in *.
  destruct (record_prototype_any (proto_at (st_heap sf) a) (path_or_unknown (paths sf !! a))
              (emit (EvGetOwnPropertyDescriptors a) (emit (EvGetPrototypeOf a) sf)))
    as (s1 & H1 & Hh1 & Hf1 & Ht1 & _).
  rewrite (bind_run _ _ _ _ _ H1) in *.
  destruct (forEach (traverse_property (path_or_unknown (paths sf !! a)))
              (props_at (st_heap sf) a) s1) as [r st'] eqn:Hrun.
  apply traverse_any in Hrun as (Hh2 & Hf2 & _ & (k & Ht2 & Hk) & _).
  simpl in Hle |- *.
  assert (Hlen : length (st_heap st) ≤ length (st_heap st'))
    by (apply heap_le_length; exact Hle).
  rewrite Hf2, Hf1. split; [exact Hsub|]. split.
  { intros l Hl. apply Hfb in Hl. lia. }
  intros l. rewrite Ht2, Ht1. simpl. rewrite !elem_of_app. intros [[Hl | Hl] | Hl].
  - destruct (Hmem l Hl) as [Hn Hok]. split; [exact Hn|].
    eapply ok_type_heap_le; eauto.
  - apply elem_of_seq in Hl. split.
    { intros Hin. apply Hfb in Hin. lia. }
    destruct (lookup_lt_is_Some_2 (override_allocs FunctionPrototype a (props o))
                (l - length (st_heap st))) as [f Hf]; [lia|].
    assert (Hl' : st_heap st' !! l = Some f).
    { rewrite Hh2, Hh1. simpl.
      rewrite lookup_app_r by (rewrite length_insert; lia).
      rewrite length_insert. exact Hf. }
    apply list_elem_of_lookup_2, override_allocs_shape in Hf as (Hty & _).
    right. unfold typeof. rewrite Hl'. exact Hty.
  - destruct (Hk l Hl) as (_ & Hok & Hnf). split.
    + intros Hin. apply Hnf. rewrite Hf1. simpl. apply Hsub, Hin.
    + rewrite Hh2. exact Hok.
Qed.

Lemma freezeAndTraverse_hook FunctionPrototype f obj st :
  freezeAndTraverse FunctionPrototype (Some f) obj st =
    match f obj (st_heap st) with
    | (Some e, h') => (Raise e, emit (EvPrepare obj) (set_heap h' st))
    | (None, h') =>
        freezeAndTraverse FunctionPrototype None obj (emit (EvPrepare obj) (set_heap h' st))
    end.
Proof.
  unfold freezeAndTraverse. unfold bind at 1. unfold bind at 3. unfold prepare.
  destruct (f obj (st_heap st)) as [[e|] h']; reflexivity.
Qed.

(** X16. The nodes a call of [harden] puts into [toFreeze], the only ones
    it prepares, rewrites and freezes, are objects or functions that were
    not in the fringe set, and none is there twice, whatever the hook does
    within the rules of the language and whatever the outcome. *)
Theorem harden_work_set_discipline FunctionPrototype toStr hook fuel root st r st' :
  hook_ok hook -> wf_heap (st_heap st) ->
  (∀ l, l ∈ fringeSet st -> l < length (st_heap st)) ->
  harden FunctionPrototype toStr hook fuel root st = (r, st') ->
  NoDup (toFreeze st') ∧
  ∀ l, l ∈ toFreeze st' -> (l ∉ fringeSet st) ∧ ok_type (st_heap st') l.
Proof.
  intros Hjs Hwf Hfb Hrun.
  pose proof (harden_keeps (disciplined (fringeSet st))
                FunctionPrototype toStr hook fuel root st) as H.
  rewrite Hrun in H. simpl in H. destruct H as ((_ & Hnd & _) & _ & _ & Hmem); auto.
  - intros v p s. apply disciplined_enqueue.
  - intros obj s Hd Hobj. destruct hook as [f|]; [|apply disciplined_visit; assumption].
    rewrite freezeAndTraverse_hook.
    destruct (f obj (st_heap s)) as [[e|] h'] eqn:Hf;
      destruct (Hjs f obj (st_heap s) _ h' eq_refl Hf) as [Hle Hwf'].
    + simpl. apply disciplined_heap; [exact Hd | exact Hle |].
      apply Hwf'. destruct Hd as ((_ & _ & Hw) & _). exact Hw.
    + apply disciplined_visit.
      * apply disciplined_heap; [exact Hd | exact Hle |].
        apply Hwf'. destruct Hd as ((_ & _ & Hw) & _). exact Hw.
      * destruct s; exact Hobj.
  - intros s (Hinv & Hsub & Hfb' & Hmem). destruct (commit_same s) as (Hh & Ht & Hf).
    split; [apply inv_commit; exact Hinv|]. rewrite Hh, Ht.
    split; [set_solver|]. auto.
  - split; [apply inv_fresh_collections; exact Hwf|].
    destruct st as [H F T P W L]. simpl in *. split; [set_solver|].
    split; [exact Hfb|]. intros l Hl. inversion Hl.
Qed.


(** X17. Once an assignment through the prototype chain has given the
    receiver its own property, that property is an ordinary one: a second
    assignment on the receiver updates it in place, without the setter of
    the hardened node, which stays as it was. *)
Theorem shadowing_property_is_ordinary
    FunctionPrototype toStr call_foreign obj st0 o k v w e st1 st c oc n fuel nv nv2 :
  inv st0 ->
  st_heap st0 !! obj = Some o ->
  (k, DataDesc v w e true) ∈ props o ->
  freezeWithOverride FunctionPrototype obj st0 = (Ret tt, st1) ->
  heap_le (st_heap st1) (st_heap st) ->
  inherits (st_heap st) k obj c (S n) ->
  st_heap st !! c = Some oc -> extensible oc = true ->
  S n < fuel ->
  ∃ st' st'',
    assign toStr call_foreign fuel c k nv st = (Ret tt, st') ∧
    assign toStr call_foreign fuel c k nv2 st' = (Ret tt, st'') ∧
    lookup_prop k (props_at (st_heap st'') c) = Some (DataDesc nv2 true true true) ∧
    st_heap st'' !! obj = st_heap st !! obj ∧
    st_log st' = st_log st ++ [EvDefineProperty c k] ∧
    st_log st'' = st_log st'.
Proof.
  intros Hinv Hobj Hin Hrun Hle Hinh Hc Hext Hfuel.
  destruct (freezeWithOverride_rewritten _ _ _ _ _ _ _ _ _ _ Hinv Hobj Hin Hrun Hle)
    as (g & s & (e' & Hacc) & _ & Hs).
  assert (Hne : c ≠ obj) by (eapply inherits_ne; eauto).
  assert (Hnk : lookup_prop k (props oc) = None).
  { inversion Hinh as [|c' o' p n' Hc' Hk' Hp' Hrest]; subst. congruence. }
  set (oc' := with_props oc (props oc ++ [(k, DataDesc nv true true true)])).
  set (oc'' := with_props oc' (props oc ++ [(k, DataDesc nv2 true true true)])).
  assert (Hd : define_at (st_heap st) c k (DataDesc nv true true true) =
               Some (<[c := oc']> (st_heap st))).
  { unfold define_at, define_own. rewrite Hc, Hnk, Hext. reflexivity. }
  assert (Hclen : c < length (st_heap st)) by (eapply lookup_lt_Some; eauto).
  set (st' := emit (EvDefineProperty c k) (set_heap (<[c := oc']> (st_heap st)) st)).
  assert (Hh' : st_heap st' = <[c := oc']> (st_heap st)) by (destruct st; reflexivity).
  assert (Hc' : st_heap st' !! c = Some oc').
  { rewrite Hh'. apply list_lookup_insert_eq. exact Hclen. }
  assert (Hown : lookup_prop k (props_at (st_heap st') c) =
                 Some (DataDesc nv true true true)).
  { unfold props_at. rewrite Hc'. apply lookup_prop_app_new. exact Hnk. }
  assert (Hd' : define_at (st_heap st') c k (DataDesc nv2 true true true) =
                Some (<[c := oc'']> (st_heap st'))).
  { unfold define_at, define_own. rewrite Hc'.
    unfold props_at in Hown. rewrite Hc' in Hown. rewrite Hown. simpl.
    rewrite replace_prop_app_notin by (apply lookup_prop_None; exact Hnk).
    simpl. rewrite decide_True by reflexivity. reflexivity. }
  exists st', (set_heap (<[c := oc'']> (st_heap st')) st').
  split.
  { unfold assign. unfold bind at 1.
    rewrite (OrdinarySet_inherits toStr call_foreign _ k obj c (S n) Hinh fuel nv (VRef c)
               st _ _ _ _ eq_refl Hacc Hfuel).
    unfold bind at 1. rewrite (call_override_set_other _ _ _ _ _ _ _ _ _ Hs Hne Hd).
    reflexivity. }
  split.
  { unfold assign. destruct fuel as [|fuel]; [lia|]. cbn [OrdinarySet].
    unfold bind at 1. unfold bind at 1. unfold gets at 1. cbn [fst snd].
    rewrite Hown. cbn [set_on_receiver]. rewrite Hown, Hd'. reflexivity. }
  assert (Hlen' : c < length (st_heap st')) by (rewrite Hh', length_insert; exact Hclen).
  split.
  { unfold props_at. destruct st'; simpl in *.
    rewrite list_lookup_insert_eq by exact Hlen'.
    apply lookup_prop_app_new. exact Hnk. }
  split.
  { destruct st'; simpl in *. rewrite list_lookup_insert_ne by exact Hne.
    rewrite Hh'. apply list_lookup_insert_ne. exact Hne. }
  split; [destruct st; reflexivity | destruct st'; reflexivity].
Qed.

(** *** The walk follows property values only *)

(** [l] is reached from [root] through property values and accessor
    functions alone, never through a prototype link. *)
Inductive holds (h : heap) (root : loc) : loc -> Prop :=
| holds_root : holds h root root
| holds_value a o b :
    holds h root a -> h !! a = Some o -> b ∈ value_links o -> holds h root b.

Lemma walked_holds l0 st :
  walked l0 st -> ∀ x, x ∈ toFreeze st -> holds (st_heap st) l0 x.
Proof.
  intros (_ & _ & _ & H0 & _ & Hpar & _).
  assert (Hall : ∀ j x, toFreeze st !! j = Some x -> holds (st_heap st) l0 x).
  { intros j. induction (lt_wf j) as [j _ IH]. intros x Hj.
    destruct (Hpar j x Hj) as [-> | (i & a & o & Hij & Hi & Ho & _ & Hx)].
    - rewrite H0 in Hj. injection Hj as <-. constructor.
    - eapply holds_value; eauto. }
  intros x Hx. apply list_elem_of_lookup in Hx as [j Hj]. eauto.
Qed.

(** X18. Without a prepare hook, every node a call of [harden] puts into
    [toFreeze] is reached from the root through property values and
    accessor functions of nodes it has frozen, the functions it made
    included.  A prototype link is never followed: prototypes are checked,
    not hardened. *)
Theorem harden_follows_values_only FunctionPrototype toStr fuel l0 st r st' :
  wf_heap (st_heap st) -> closed (st_heap st) ->
  (∀ l, l ∈ fringeSet st -> l < length (st_heap st)) ->
  harden FunctionPrototype toStr None fuel (VRef l0) st = (r, st') ->
  ∀ l, l ∈ toFreeze st' -> holds (st_heap st') l0 l.
Proof.
  intros Hwf Hcl Hfb Hrun.
  destruct (decide (ok_type (st_heap st) l0)) as [Hok | Hno].
  2:{ unfold harden, modify in Hrun. unfold bind at 1 in Hrun. unfold bind at 1 in Hrun.
      rewrite enqueue_root in Hrun. rewrite decide_False in Hrun by exact Hno.
      injection Hrun as _ <-. intros l Hl. destruct st; inversion Hl. }
  destruct (decide (l0 ∈ fringeSet st)) as [Hin | Hnin].
  { rewrite harden_nothing_to_do in Hrun.
    - injection Hrun as _ <-. intros l Hl. destruct st; inversion Hl.
    - rewrite enqueue_root. rewrite decide_True by exact Hok.
      rewrite decide_True by exact Hin. reflexivity. }
  unfold harden, modify in Hrun. unfold bind at 1 in Hrun. unfold bind at 1 in Hrun.
  rewrite enqueue_root in Hrun. rewrite decide_True in Hrun by exact Hok.
  rewrite decide_False in Hrun by exact Hnin.
  match type of Hrun with _ ?s = _ => set (s1 := s) in * end.
  assert (Hw1 : walked l0 s1) by (apply walked_start; assumption).
  unfold dequeue in Hrun.
  destruct (dequeue_from FunctionPrototype None fuel 0 s1) as [r2 s2] eqn:H2.
  destruct (dequeue_from_any FunctionPrototype l0 fuel 0 s1 r2 s2 Hw1) as [Hw2 _];
    [intros j b Hj; lia | exact H2 |].
  assert (Hsame : st_heap st' = st_heap s2 ∧ toFreeze st' = toFreeze s2).
  { unfold bind at 1 in Hrun. rewrite H2 in Hrun.
    destruct r2 as [[] | e2 |]; try (injection Hrun as _ <-; auto).
    unfold bind at 1 in Hrun. pose proof (checkPrototypes_state toStr s2) as Hs.
    destruct (checkPrototypes toStr s2) as [[[]|e3|] s3]; simpl in Hs; subst s3;
      try (injection Hrun as _ <-; auto).
    unfold bind in Hrun. destruct (commit_same s2) as (Hh & Ht & _).
    destruct (commit s2) as [[[]|e4|] s4]; simpl in *; injection Hrun as _ <-; auto. }
  destruct Hsame as [-> ->]. apply walked_holds. exact Hw2.
Qed.


(** ** What a hardened node has become *)

(** The hook leaves the object at [l] as it is, on whatever node it is
    called. *)
Definition hook_spares (hook : option (loc -> heap -> option error * heap)) (l : loc)
  : Prop :=
  ∀ f obj h r h', hook = Some f -> f obj h = (r, h') -> h' !! l = h !! l.

(** The object at [l] is still [o], or it is what [freezeWithOverride]
    makes of [o], the getters and setters made for it being in the heap
    where its accessors point. *)
Definition rewritten_from (FunctionPrototype : loc) (o : object) (l : loc) (h : heap)
  : Prop :=
  h !! l = Some o ∨
  ∃ n, h !! l = Some (overridden n o) ∧
       ∀ j f, override_allocs FunctionPrototype l (props o) !! j = Some f ->
              h !! (n + j) = Some f.

Lemma rewritten_from_heap_le FunctionPrototype o l h h' n :
  heap_le h h' ->
  h !! l = Some (overridden n o) ->
  (∀ j f, override_allocs FunctionPrototype l (props o) !! j = Some f ->
          h !! (n + j) = Some f) ->
  rewritten_from FunctionPrototype o l h'.
Proof.
  intros Hle Hl Hal. right. exists n. split.
  - destruct (Hle l _ Hl) as (o' & Ho' & _ & _ & Hsame).
    rewrite (Hsame (isFrozen_freeze_object _)) in Ho'. exact Ho'.
  - intros j f Hj. destruct (Hle _ _ (Hal j f Hj)) as (f' & Hf' & _ & _ & Hsame).
    apply list_elem_of_lookup_2, override_allocs_shape in Hj as (_ & _ & Hfr).
    rewrite (Hsame Hfr) in Hf'. exact Hf'.
Qed.

Lemma rewritten_from_visit FunctionPrototype o l a st :
  inv st -> rewritten_from FunctionPrototype o l (st_heap st) -> a ∈ toFreeze st ->
  rewritten_from FunctionPrototype o l
    (st_heap (freezeAndTraverse FunctionPrototype None a st).2).
Proof.
  intros Hinv Hrw Ha.
  pose proof (hp_freezeAndTraverse FunctionPrototype None hook_ok_None a st) as Hle.
  unfold heap_step in Hle.
  destruct Hrw as [Hl | (n & Hl & Hal)];
    [|eapply rewritten_from_heap_le; eauto].
  destruct (freezeAndTraverse FunctionPrototype None a st) as [r st'] eqn:Hrun.
  pose proof Hinv as (Hb & _).
  destruct (lookup_lt_is_Some_2 _ _ (Hb a Ha)) as [oa Hoa].
  destruct (visit_shape FunctionPrototype a st oa r st' Hinv Hoa Hrun)
    as (k & Hh & _).
  assert (Hlen : l < length (st_heap st)) by (eapply lookup_lt_Some; eauto).
  simpl. destruct (decide (l = a)) as [-> | Hne].
  - rewrite Hl in Hoa. injection Hoa as <-. right. exists (length (st_heap st)). split.
    + rewrite Hh, lookup_app_l by (rewrite length_insert; exact Hlen).
      apply list_lookup_insert_eq. exact Hlen.
    + intros j f Hj. rewrite Hh, lookup_app_r by (rewrite length_insert; lia).
      rewrite length_insert. replace (length (st_heap st) + j - length (st_heap st)) with j
        by lia. exact Hj.
  - left. rewrite Hh, lookup_app_l by (rewrite length_insert; exact Hlen).
    rewrite list_lookup_insert_ne by auto. exact Hl.
Qed.

Lemma rewritten_from_hook_visit FunctionPrototype hook o l a st :
  hook_ok hook -> hook_spares hook l ->
  inv st ∧ rewritten_from FunctionPrototype o l (st_heap st) -> a ∈ toFreeze st ->
  inv (freezeAndTraverse FunctionPrototype hook a st).2 ∧
  rewritten_from FunctionPrototype o l
    (st_heap (freezeAndTraverse FunctionPrototype hook a st).2).
Proof.
  intros Hjs Hsp [Hinv Hrw] Ha.
  split; [apply (inv_freezeAndTraverse FunctionPrototype hook Hjs a st Hinv)|].
  destruct hook as [f|]; [|apply rewritten_from_visit; assumption].
  rewrite freezeAndTraverse_hook.
  pose proof (inv_prepare (Some f) Hjs a st Hinv) as Hinv1. unfold prepare in Hinv1.
  destruct (f a (st_heap st)) as [[e|] h'] eqn:Hf;
    destruct (Hjs f a (st_heap st) _ h' eq_refl Hf) as [Hle _];
    pose proof (Hsp f a (st_heap st) _ h' eq_refl Hf) as Hsame;
    assert (Hrw1 : rewritten_from FunctionPrototype o l h')
      by (destruct Hrw as [Hl | (n & Hl & Hal)];
          [left; rewrite Hsame; exact Hl | eapply rewritten_from_heap_le; eauto]).
  - destruct st; exact Hrw1.
  - apply rewritten_from_visit.
    + exact Hinv1.
    + destruct st; exact Hrw1.
    + destruct st; exact Ha.
Qed.

(** C1, as the code has it.  When [harden] returns on a root, it returns
    that very root, and every node reached from the root along property
    values, accessor functions and prototype links, by a path that leaves
    no member the fringe set had at the start of the call, either was in
    the fringe set at the start or is now frozen and in the fringe set.
    Such a node, when it was in the heap at the start and the hook leaves
    it alone, has been rewritten: it is what [freezeWithOverride] makes of
    the object it was, every configurable data property an accessor pair,
    and the getters and setters made for it are where the pairs point. *)
Theorem harden_closure FunctionPrototype toStr naivePrepareObject
    (hook_js : hook_ok naivePrepareObject) fuel root l0 st r st' :
  wf_heap (st_heap st) ->
  harden FunctionPrototype toStr naivePrepareObject fuel root st = (Ret r, st') ->
  root = VRef l0 ->
  r = root ∧
  ∀ l, reachable (st_heap st') (fringeSet st) l0 l ->
    l ∈ fringeSet st ∨
    (hardened (st_heap st') l ∧ l ∈ fringeSet st' ∧
     ∀ o, st_heap st !! l = Some o -> hook_spares naivePrepareObject l ->
       ∃ n, st_heap st' !! l = Some (overridden n o) ∧
            ∀ j f, override_allocs FunctionPrototype l (props o) !! j = Some f ->
                   st_heap st' !! (n + j) = Some f).
Proof.
  intros Hwf Hrun ->.
  assert (Hr : r = VRef l0).
  { apply harden_Ret in Hrun as (_ & _ & _ & _ & _ & _ & ->). reflexivity. }
  split; [exact Hr|]. intros l Hl.
  destruct (harden_reaches FunctionPrototype toStr naivePrepareObject hook_js
              fuel l0 st r st' Hwf Hrun l Hl) as [Hin | (_ & Hhard & Hin)];
    [left; exact Hin|].
  right. split; [exact Hhard|]. split; [exact Hin|]. intros o Ho Hsp.
  pose proof (harden_keeps
                (fun s => inv s ∧ rewritten_from FunctionPrototype o l (st_heap s))
                FunctionPrototype toStr naivePrepareObject fuel (VRef l0) st) as H.
  rewrite Hrun in H. simpl in H. destruct H as [_ [Hsame | Hrw]].
  - intros v p s [Hi Hrw]. split; [apply inv_enqueue; exact Hi|].
    rewrite enqueue_heap. exact Hrw.
  - intros obj s HI Hobj. apply rewritten_from_hook_visit; assumption.
  - intros s [Hi Hrw]. split; [apply inv_commit; exact Hi|].
    destruct (commit_same s) as (Hh & _). rewrite Hh. exact Hrw.
  - split; [apply inv_fresh_collections; exact Hwf|]. left. destruct st; exact Ho.
  - destruct Hhard as (o' & Ho' & Hfr). rewrite Hsame in Ho'. injection Ho' as <-.
    exists 0. rewrite (overridden_frozen 0 o Hfr). split; [exact Hsame|].
    intros j f Hj.
    rewrite (override_allocs_no_cfg FunctionPrototype l (props o) (cfg_data_frozen o Hfr))
      in Hj. discriminate.
  - exact Hrw.
Qed.


(** ** Worked examples

    A realm with [Function.prototype] at 0 and [Object.prototype] at 1,
    both given to [makeHardener] as the initial fringe. *)

Definition Function_prototype : object := Object "function" (Some 1) true [] Foreign.
Definition Object_prototype : object := Object "object" None true [] Foreign.

Definition native_toStr (l : loc) : option string :=
  match l with
  | 0 => Some "function () { [native code] }"
  | _ => Some "[object Object]"
  end.

(** A hook that looks at the node and leaves it alone. *)
Definition observer : loc -> heap -> option error * heap := fun _ h => (None, h).

Lemma hook_ok_observer : hook_ok (Some observer).
Proof.
  intros f obj h r h' [= <-] [= _ <-]. split; [reflexivity | auto].
Qed.

Lemma hook_bounded_observer : hook_bounded (Some observer).
Proof. intros f obj h r h' [= <-] [= _ <-]. reflexivity. Qed.

Lemma wf_heap_decide (h : heap) :
  forallb (fun o => bool_decide (NoDup (props o).*1)) h = true -> wf_heap h.
Proof.
  intros H. apply Forall_forall. intros o Ho.
  rewrite forallb_forall in H. apply list_elem_of_In in Ho.
  apply (bool_decide_eq_true_1 _ (H o Ho)).
Qed.

(** [point = { x: 1 }], at 2. *)
Definition point_heap : heap :=
  [Function_prototype; Object_prototype;
   Object "object" (Some 1) true
     [(KStr "x", DataDesc (VPrim (PNum 1)) true true true)] Foreign].

Definition point_state : state := initial_state point_heap {[0; 1]}.

Definition point_hardened : state :=
  Eval vm_compute in (harden 0 native_toStr (Some observer) 10 (VRef 2) point_state).2.

Lemma point_run :
  harden 0 native_toStr (Some observer) 10 (VRef 2) point_state =
    (Ret (VRef 2), point_hardened).
Proof. vm_compute. reflexivity. Qed.

Lemma hook_spares_observer l : hook_spares (Some observer) l.
Proof. intros f obj h r h' [= <-] [= _ <-]. reflexivity. Qed.

Lemma harden_closure_witness :
  wf_heap (st_heap point_state) ∧
  harden 0 native_toStr (Some observer) 10 (VRef 2) point_state =
    (Ret (VRef 2), point_hardened) ∧
  (VRef 2 = VRef 2 ∧
   ∀ l, reachable (st_heap point_hardened) (fringeSet point_state) 2 l ->
     l ∈ fringeSet point_state ∨
     (hardened (st_heap point_hardened) l ∧ l ∈ fringeSet point_hardened ∧
      ∀ o, st_heap point_state !! l = Some o -> hook_spares (Some observer) l ->
        ∃ n, st_heap point_hardened !! l = Some (overridden n o) ∧
             ∀ j f, override_allocs 0 l (props o) !! j = Some f ->
                    st_heap point_hardened !! (n + j) = Some f)).
Proof.
  split; [apply wf_heap_decide; reflexivity|].
  split; [exact point_run|].
  apply (harden_closure 0 native_toStr (Some observer) hook_ok_observer
           10 (VRef 2) 2 point_state (VRef 2) point_hardened).
  - apply wf_heap_decide. reflexivity.
  - exact point_run.
  - reflexivity.
Defined.

Lemma harden_again_is_noop_witness :
  harden 0 native_toStr (Some observer) 10 (VRef 2) point_state =
    (Ret (VRef 2), point_hardened) ∧
  (VRef 2 = VRef 2 ∧
   ∀ fuel', ∃ st2,
     harden 0 native_toStr (Some observer) fuel' (VRef 2) point_hardened =
       (Ret (VRef 2), st2) ∧
     st_heap st2 = st_heap point_hardened ∧ fringeSet st2 = fringeSet point_hardened ∧
     st_log st2 = st_log point_hardened ∧ toFreeze st2 = []).
Proof.
  split; [exact point_run|].
  apply (harden_again_is_noop 0 native_toStr (Some observer) hook_ok_observer
           10 (VRef 2) point_state (VRef 2) point_hardened).
  exact point_run.
Defined.

(** [n.self = n], at 2. *)
Definition cyclic_heap : heap :=
  [Function_prototype; Object_prototype;
   Object "object" (Some 1) true
     [(KStr "self", DataDesc (VRef 2) true true true)] Foreign].

Definition cyclic_state : state := initial_state cyclic_heap {[0; 1]}.

Example harden_cyclic :
  (harden 0 native_toStr None 5 (VRef 2) cyclic_state).1 = Ret (VRef 2) ∧
  toFreeze (harden 0 native_toStr None 5 (VRef 2) cyclic_state).2 = [2; 3; 4].
Proof. vm_compute. split; reflexivity. Qed.

Lemma harden_terminates_witness :
  wf_heap (st_heap cyclic_state) ∧
  weight (st_heap cyclic_state) ≤ 5 ∧
  ((harden 0 native_toStr None 5 (VRef 2) cyclic_state).1 ≠ Diverge ∧
   ∀ r st', harden 0 native_toStr None 5 (VRef 2) cyclic_state = (Ret r, st') ->
     NoDup (toFreeze st') ∧
     visits (st_log st') = visits (st_log cyclic_state) ++ toFreeze st' ∧
     ∀ l0 l, VRef 2 = VRef l0 ->
       reachable (st_heap st') (fringeSet cyclic_state) l0 l ->
       l ∉ fringeSet cyclic_state -> l ∈ toFreeze st').
Proof.
  split; [apply wf_heap_decide; reflexivity|].
  split; [vm_compute; lia|].
  apply (harden_terminates 0 native_toStr None hook_ok_None hook_bounded_None
           5 (VRef 2) cyclic_state).
  - apply wf_heap_decide. reflexivity.
  - vm_compute. lia.
Defined.

Example point_is_rewritten :
  st_heap point_hardened !! 2 =
    Some (overridden 3
            (Object "object" (Some 1) true
               [(KStr "x", DataDesc (VPrim (PNum 1)) true true true)] Foreign)) ∧
  lookup_prop (KStr "x") (props_at (st_heap point_hardened) 2) =
    Some (AccessorDesc (VRef 3) (VRef 4) true false).
Proof. vm_compute. split; reflexivity. Qed.

(** A hook that gives every empty extensible object it meets a locked
    property [next] holding a new empty object:
    [obj => { if (Object.isExtensible(obj) && Reflect.ownKeys(obj).length === 0)
                Object.defineProperty(obj, 'next',
                  { value: Object.create(null), writable: true, enumerable: true }) }]. *)
Definition blank : object := Object "object" None true [] Foreign.

Definition with_next (n : loc) : object :=
  Object "object" None true [(KStr "next", DataDesc (VRef n) true true false)] Foreign.

Definition grower : loc -> heap -> option error * heap :=
  fun obj h =>
    match h !! obj with
    | Some o =>
        if extensible o && bool_decide (props o = [])
        then (None,
              <[obj := with_props o [(KStr "next", DataDesc (VRef (length h)) true true false)]]> h
                ++ [blank])
        else (None, h)
    | None => (None, h)
    end.

Lemma hook_ok_grower : hook_ok (Some grower).
Proof.
  intros f obj h r h' [= <-]. unfold grower.
  destruct (h !! obj) as [o|] eqn:Ho; [|intros [= _ <-]; split; [reflexivity | auto]].
  destruct (extensible o && bool_decide (props o = [])) eqn:Hc;
    [|intros [= _ <-]; split; [reflexivity | auto]].
  apply andb_prop in Hc as [Hext _]. intros [= _ <-].
  assert (Hlen : obj < length h) by (eapply lookup_lt_Some; eauto).
  split.
  - intros l ol Hl. assert (Hll : l < length h) by (eapply lookup_lt_Some; eauto).
    rewrite lookup_app_l by (rewrite length_insert; exact Hll).
    destruct (decide (l = obj)) as [-> | Hne].
    + rewrite list_lookup_insert_eq by exact Hlen. rewrite Ho in Hl. injection Hl as <-.
      eexists. split; [reflexivity|]. split; [reflexivity|]. split; [reflexivity|].
      intros [Hne _]. congruence.
    + rewrite list_lookup_insert_ne by auto. exists ol. auto.
  - intros Hwf. apply Forall_app. split.
    + apply Forall_insert; [exact Hwf|]. unfold wf_object. simpl.
      apply NoDup_singleton.
    + repeat constructor.
Qed.

Definition seed_state : state :=
  initial_state [Function_prototype; Object_prototype; blank] {[0; 1]}.

(** One visit of an empty object under [grower]: the new object is the
    only node added to [toFreeze]. *)
Lemma grower_visit a st :
  inv st -> (∀ l, l ∈ fringeSet st -> l < length (st_heap st)) ->
  st_heap st !! a = Some blank -> a ∈ toFreeze st ->
  ∃ st',
    freezeAndTraverse 0 (Some grower) a st = (Ret tt, st') ∧
    inv st' ∧ (∀ l, l ∈ fringeSet st' -> l < length (st_heap st')) ∧
    toFreeze st' = toFreeze st ++ [length (st_heap st)] ∧
    st_heap st' !! length (st_heap st) = Some blank.
Proof.
  intros Hinv Hfb Hblank Ha.
  pose proof (inv_prepare (Some grower) hook_ok_grower a st Hinv) as Hinv1.
  unfold prepare in Hinv1.
  rewrite freezeAndTraverse_hook. unfold grower in *. rewrite Hblank in *.
  simpl in Hinv1 |- *.
  set (n := length (st_heap st)) in *.
  set (sp := emit (EvPrepare a) (set_heap (<[a := with_next n]> (st_heap st) ++ [blank]) st))
    in *.
  pose proof Hinv as (Hb & _).
  assert (Han : a < n) by (apply Hb; exact Ha).
  assert (Hsp : st_heap sp = <[a := with_next n]> (st_heap st) ++ [blank])
    by (destruct st; reflexivity).
  assert (Hspa : st_heap sp !! a = Some (with_next n)).
  { rewrite Hsp, lookup_app_l by (rewrite length_insert; exact Han).
    apply list_lookup_insert_eq. exact Han. }
  assert (Hlsp : length (st_heap sp) = S n).
  { rewrite Hsp, length_app, length_insert. simpl. lia. }
  destruct (freezeAndTraverse 0 None a sp) as [r st'] eqn:Hrun.
  destruct (visit_shape 0 a sp (with_next n) r st' Hinv1 Hspa Hrun)
    as (k & Hh & Hf & Ht & Hk & _ & Hr).
  pose proof (inv_freezeAndTraverse 0 None hook_ok_None a sp Hinv1) as Hinv'.
  rewrite Hrun in Hinv'. simpl in Hinv'.
  assert (Hlinks : value_links (overridden (length (st_heap sp)) (with_next n)) = [n])
    by reflexivity.
  rewrite Hlinks in *. cbn [with_next props override_allocs length seq] in Hh, Ht.
  rewrite app_nil_r in Hh, Ht.
  assert (Htsp : toFreeze sp = toFreeze st) by (destruct st; reflexivity).
  assert (Hfsp : fringeSet sp = fringeSet st) by (destruct st; reflexivity).
  rewrite Htsp in Ht. rewrite Hfsp in Hf.
  assert (Hn' : st_heap st' !! n = Some blank).
  { rewrite Hh, list_lookup_insert_ne by lia.
    rewrite Hsp, lookup_app_r by (rewrite length_insert; fold n; lia).
    rewrite length_insert. fold n. rewrite Nat.sub_diag. reflexivity. }
  assert (Hok : ok_type (st_heap st') n) by (left; unfold typeof; rewrite Hn'; reflexivity).
  destruct Hr as [(-> & Hl & _) | (w & m & _ & Hw & Hno)].
  2:{ apply list_elem_of_singleton in Hw as ->. contradiction. }
  destruct (Hl n) as [Hkn _]; [left|].
  assert (Hnk : n ∈ k).
  { destruct Hkn as [Hin | Hin].
    - rewrite Hf in Hin. apply Hfb in Hin. fold n in Hin. lia.
    - rewrite Ht in Hin. apply elem_of_app in Hin as [Hin | Hin]; [|exact Hin].
      apply Hb in Hin. fold n in Hin. lia. }
  assert (Hkeq : k = [n]).
  { destruct Hinv' as (_ & Hnd & _). rewrite Ht in Hnd. apply NoDup_app in Hnd as (_ & _ & Hndk).
    destruct k as [|x k]; [inversion Hnk|].
    assert (x = n) as -> by (apply list_elem_of_singleton, Hk; left).
    destruct k as [|y k]; [reflexivity|].
    assert (y = n) as -> by (apply list_elem_of_singleton, Hk; right; left).
    exfalso. apply NoDup_cons in Hndk as [Hnin _]. apply Hnin. left. }
  exists st'. split; [exact Hrun|]. split; [exact Hinv'|]. split.
  { intros l Hl'. rewrite Hf in Hl'. apply Hfb in Hl'. fold n in Hl'.
    rewrite Hh, length_insert, Hlsp. lia. }
  split; [rewrite Ht, Hkeq; reflexivity | exact Hn'].
Qed.

Lemma grower_loop fuel :
  ∀ i st a,
    inv st -> (∀ l, l ∈ fringeSet st -> l < length (st_heap st)) ->
    toFreeze st !! i = Some a -> length (toFreeze st) = S i ->
    st_heap st !! a = Some blank ->
    (dequeue_from 0 (Some grower) fuel i st).1 = Diverge.
Proof.
  induction fuel as [|fuel IH]; intros i st a Hinv Hfb Hi Hlen Ha; simpl; rewrite Hi;
    [reflexivity|].
  destruct (grower_visit a st Hinv Hfb Ha (list_elem_of_lookup_2 _ _ _ Hi))
    as (st' & Hrun & Hinv' & Hfb' & Ht & Hn).
  unfold bind. rewrite Hrun.
  apply (IH (S i) st' (length (st_heap st))); auto.
  - rewrite Ht, lookup_app_r by lia. rewrite Hlen, Nat.sub_diag. reflexivity.
  - rewrite Ht, length_app, Hlen. simpl. lia.
Qed.

(** C7, as the claim states it, fails: the graph is one empty object,
    the hook is JavaScript code, and the call never returns, whatever the
    fuel: every visit puts one more node into [toFreeze]. *)
Lemma growing_hook_never_terminates :
  hook_ok (Some grower) ∧
  wf_heap (st_heap seed_state) ∧
  (∀ l, reachable (st_heap seed_state) (fringeSet seed_state) 2 l -> l = 2) ∧
  ∀ fuel, (harden 0 native_toStr (Some grower) fuel (VRef 2) seed_state).1 = Diverge.
Proof.
  split; [exact hook_ok_grower|].
  split; [apply wf_heap_decide; reflexivity|].
  split.
  { intros l Hl. induction Hl as [|a b Ha IH _ (o & Ho & Hb)]; [reflexivity|].
    subst a. vm_compute in Ho. injection Ho as <-. vm_compute in Hb. inversion Hb. }
  intros fuel. unfold harden, modify. unfold bind at 1. unfold bind at 1.
  rewrite enqueue_root.
  rewrite decide_True by (left; reflexivity).
  rewrite decide_False by (unfold seed_state, initial_state; simpl; set_solver).
  unfold bind at 1. unfold dequeue.
  match goal with |- context [dequeue_from _ _ _ _ ?s] => set (s1 := s) end.
  assert (Hd : (dequeue_from 0 (Some grower) fuel 0 s1).1 = Diverge).
  { apply (grower_loop fuel 0 s1 2); try reflexivity.
    - split; [|split].
      + intros l Hl. apply list_elem_of_singleton in Hl as ->. simpl. lia.
      + apply NoDup_singleton.
      + apply wf_heap_decide. reflexivity.
    - intros l Hl. assert (l = 0 ∨ l = 1) as [-> | ->];
        [unfold s1 in Hl; simpl in Hl; set_solver | |]; simpl; lia. }
  destruct (dequeue_from 0 (Some grower) fuel 0 s1) as [[[]|e|] s2]; simpl in Hd;
    try discriminate. reflexivity.
Qed.

(** A fringe member that is itself mutable: [cache], at 2, was passed to
    [makeHardener] and still holds the unfrozen [counter], at 3.  The root,
    at 4, holds [cache]. *)
Definition cache_heap : heap :=
  [Function_prototype; Object_prototype;
   Object "object" (Some 1) true
     [(KStr "hits", DataDesc (VRef 3) true true true)] Foreign;
   Object "object" (Some 1) true
     [(KStr "n", DataDesc (VPrim (PNum 0)) true true true)] Foreign;
   Object "object" (Some 1) true
     [(KStr "cache", DataDesc (VRef 2) true true true)] Foreign].

Definition cache_state : state := initial_state cache_heap {[0; 1; 2]}.

Definition cache_hardened : state :=
  Eval vm_compute in (harden 0 native_toStr None 10 (VRef 4) cache_state).2.

(** C1, as the claim states it, fails: the call returns, [counter] is
    reachable from the root, yet it was not in the fringe set, is not
    frozen and is not in the fringe set afterwards. *)
Lemma harden_closure_stops_at_fringe :
  harden 0 native_toStr None 10 (VRef 4) cache_state = (Ret (VRef 4), cache_hardened) ∧
  reachable (st_heap cache_hardened) ∅ 4 3 ∧
  (3 ∉ fringeSet cache_state) ∧
  ¬ hardened (st_heap cache_hardened) 3 ∧
  (3 ∉ fringeSet cache_hardened).
Proof.
  split; [vm_compute; reflexivity|].
  split.
  { apply (reach_link _ _ _ 2 3); [|set_solver|].
    - apply (reach_link _ _ _ 5 2); [|set_solver|].
      + apply (reach_link _ _ _ 4 5); [apply reach_root|set_solver|].
        eexists. split; [reflexivity|]. vm_compute. set_solver.
      + eexists. split; [reflexivity|]. vm_compute. set_solver.
    - eexists. split; [reflexivity|]. vm_compute. set_solver. }
  split; [vm_compute; set_solver|].
  split.
  - intros (o & Ho & Hext & _). vm_compute in Ho. injection Ho as <-. discriminate.
  - vm_compute. set_solver.
Qed.

(** One visit of [point], as the first step of the walk. *)
Definition point_enqueued : state :=
  Eval vm_compute in (enqueue (VRef 2) None (fresh_collections point_state)).2.

Lemma inv_point_enqueued : inv point_enqueued.
Proof.
  split; [|split].
  - intros l Hl. apply list_elem_of_singleton in Hl as ->. simpl. lia.
  - apply NoDup_singleton.
  - apply wf_heap_decide. reflexivity.
Qed.

Definition point_visited : state :=
  Eval vm_compute in (freezeAndTraverse 0 (Some observer) 2 point_enqueued).2.

Lemma freezeAndTraverse_freezes_before_reading_witness :
  inv point_enqueued ∧ 2 ∈ toFreeze point_enqueued ∧
  freezeAndTraverse 0 (Some observer) 2 point_enqueued = (Ret tt, point_visited) ∧
  ((∃ e, prepare (Some observer) 2 point_enqueued = (Raise e, point_visited) ∧
         Ret tt = Raise e ∧
         st_log point_visited = st_log point_enqueued ++ hook_events (Some observer) 2) ∨
   (∃ sp o,
      prepare (Some observer) 2 point_enqueued = (Ret tt, sp) ∧
      st_heap sp !! 2 = Some o ∧
      st_log point_visited =
        st_log point_enqueued ++ hook_events (Some observer) 2
          ++ [EvGetOwnPropertyDescriptors 2]
          ++ override_events 2 (length (st_heap sp)) (props o)
          ++ [EvFreeze 2]
          ++ [EvGetPrototypeOf 2; EvGetOwnPropertyDescriptors 2] ∧
      Forall (hardening_event 2 (length (st_heap sp)))
             (override_events 2 (length (st_heap sp)) (props o)) ∧
      st_heap point_visited !! 2 = Some (overridden (length (st_heap sp)) o) ∧
      isFrozen (overridden (length (st_heap sp)) o))).
Proof.
  split; [exact inv_point_enqueued|].
  split; [vm_compute; set_solver|].
  split; [vm_compute; reflexivity|].
  apply (freezeAndTraverse_freezes_before_reading 0 (Some observer) hook_ok_observer
           2 point_enqueued (Ret tt) point_visited).
  - exact inv_point_enqueued.
  - vm_compute. set_solver.
  - vm_compute. reflexivity.
Defined.

Definition point_object : object :=
  Object "object" (Some 1) true [(KStr "x", DataDesc (VPrim (PNum 1)) true true true)] Foreign.

Lemma freezeWithOverride_getter_carries_value_witness :
  inv point_enqueued ∧
  st_heap point_enqueued !! 2 = Some point_object ∧
  (KStr "x", DataDesc (VPrim (PNum 1)) true true true) ∈ props point_object ∧
  ∃ st' g s,
    freezeWithOverride 0 2 point_enqueued = (Ret tt, st') ∧
    lookup_prop (KStr "x") (props_at (st_heap st') 2) =
      Some (AccessorDesc (VRef g) (VRef s) true false) ∧
    st_heap st' !! g = Some (getter_object 0 (VPrim (PNum 1))) ∧
    lookup_prop (KStr "value") (props (getter_object 0 (VPrim (PNum 1)))) =
      Some (DataDesc (VPrim (PNum 1)) false true false) ∧
    isFrozen (getter_object 0 (VPrim (PNum 1))) ∧
    (g ∉ toFreeze point_enqueued) ∧ (s ∉ toFreeze point_enqueued) ∧
    g ∈ toFreeze st' ∧ s ∈ toFreeze st' ∧
    (∃ l1 l3, st_log st' = l1 ++ override_calls 2 g s (KStr "x") ++ l3) ∧
    (∀ s2 s3 l,
       heap_le (st_heap st') (st_heap s2) ->
       freezeAndTraverse 0 (Some observer) g s2 = (Ret tt, s3) ->
       VPrim (PNum 1) = VRef l -> known s3 l).
Proof.
  split; [exact inv_point_enqueued|].
  split; [reflexivity|].
  split; [left|].
  apply (freezeWithOverride_getter_carries_value 0 (Some observer) hook_ok_observer
           2 point_enqueued point_object (KStr "x") (VPrim (PNum 1)) true true).
  - exact inv_point_enqueued.
  - reflexivity.
  - left.
Defined.

(** Host functions are not called in the examples. *)
Definition no_foreign : loc -> value -> list value -> heap -> (error + value) * heap :=
  fun _ _ _ h => (inr (VPrim PUndefined), h).

(** [child = Object.create(point)], at 3, with [point] at 2. *)
Definition family_heap : heap := point_heap ++ [Object "object" (Some 2) true [] Foreign].

Definition family_state : state := State family_heap {[0; 1]} [2] [] ∅ [].

Lemma inv_family_state : inv family_state.
Proof.
  split; [|split].
  - intros l Hl. apply list_elem_of_singleton in Hl as ->. simpl. lia.
  - apply NoDup_singleton.
  - apply wf_heap_decide. reflexivity.
Qed.

Definition family_hardened : state :=
  Eval vm_compute in (freezeWithOverride 0 2 family_state).2.

Example child_shadows :
  (assign native_toStr no_foreign 3 3 (KStr "x") (VPrim (PNum 7)) family_hardened).1 = Ret tt ∧
  (assign native_toStr no_foreign 3 2 (KStr "x") (VPrim (PNum 7)) family_hardened).1 =
    Raise (ReadOnlyViolation
             "Cannot assign to read only property 'x' of object '[object Object]'").
Proof. vm_compute. split; reflexivity. Qed.

Lemma override_setter_shadows_on_receiver_witness :
  inv family_state ∧
  st_heap family_state !! 2 = Some point_object ∧
  (KStr "x", DataDesc (VPrim (PNum 1)) true true true) ∈ props point_object ∧
  freezeWithOverride 0 2 family_state = (Ret tt, family_hardened) ∧
  heap_le (st_heap family_hardened) (st_heap family_hardened) ∧
  ((∀ fuel nv msg,
      0 < fuel -> read_only_message native_toStr 2 (KStr "x") = Some msg ->
      assign native_toStr no_foreign fuel 2 (KStr "x") nv family_hardened =
        (Raise (ReadOnlyViolation msg), family_hardened)) ∧
   (∀ fuel, 0 < fuel ->
      read native_toStr no_foreign fuel 2 (KStr "x") family_hardened =
        (Ret (VPrim (PNum 1)), family_hardened)) ∧
   (∀ c oc n fuel nv,
      inherits (st_heap family_hardened) (KStr "x") 2 c (S n) ->
      st_heap family_hardened !! c = Some oc -> extensible oc = true ->
      S n < fuel ->
      ∃ st',
        assign native_toStr no_foreign fuel c (KStr "x") nv family_hardened = (Ret tt, st') ∧
        st_heap st' =
          <[c := with_props oc (props oc ++ [(KStr "x", DataDesc nv true true true)])]>
            (st_heap family_hardened) ∧
        lookup_prop (KStr "x") (props_at (st_heap st') c) =
          Some (DataDesc nv true true true) ∧
        st_heap st' !! 2 = st_heap family_hardened !! 2 ∧
        read native_toStr no_foreign fuel c (KStr "x") st' = (Ret nv, st') ∧
        read native_toStr no_foreign fuel 2 (KStr "x") st' = (Ret (VPrim (PNum 1)), st'))).
Proof.
  split; [exact inv_family_state|].
  split; [reflexivity|].
  split; [left|].
  split; [vm_compute; reflexivity|].
  split; [reflexivity|].
  apply (override_setter_shadows_on_receiver 0 native_toStr no_foreign
           2 family_state point_object (KStr "x") (VPrim (PNum 1)) true true
           family_hardened family_hardened).
  - exact inv_family_state.
  - reflexivity.
  - left.
  - vm_compute. reflexivity.
  - reflexivity.
Defined.

Example child_inherits : inherits (st_heap family_hardened) (KStr "x") 2 3 1.
Proof.
  eapply inherits_up; [reflexivity | reflexivity | reflexivity | apply inherits_here].
Qed.

(** [sealed = Object.preventExtensions(Object.create(point))], at 3. *)
Definition sealed_heap : heap := point_heap ++ [Object "object" (Some 2) false [] Foreign].

Definition sealed_state : state := initial_state sealed_heap {[0; 1]}.

Definition sealed_hardened : state :=
  Eval vm_compute in (harden 0 native_toStr None 10 (VRef 2) sealed_state).2.

(** C2, as the claim states it, fails: [point] has been hardened, [sealed]
    inherits [x] from it and is another object, yet the assignment
    [sealed.x = 7] throws, and [sealed] gets no property. *)
Lemma assignment_on_sealed_receiver_throws :
  harden 0 native_toStr None 10 (VRef 2) sealed_state = (Ret (VRef 2), sealed_hardened) ∧
  inherits (st_heap sealed_hardened) (KStr "x") 2 3 1 ∧
  3 ≠ 2 ∧
  (assign native_toStr no_foreign 5 3 (KStr "x") (VPrim (PNum 7)) sealed_hardened).1 =
    Raise (HostError "Cannot redefine property") ∧
  props_at (st_heap (assign native_toStr no_foreign 5 3 (KStr "x") (VPrim (PNum 7))
                       sealed_hardened).2) 3 = [].
Proof.
  split; [vm_compute; reflexivity|].
  split.
  { eapply inherits_up; [reflexivity | reflexivity | reflexivity | apply inherits_here]. }
  split; [lia|].
  split; vm_compute; reflexivity.
Qed.

(** [bare = Object.create(null); bare.x = 1], at 2, and an empty fringe. *)
Definition bare_heap : heap :=
  [Function_prototype; Object_prototype;
   Object "object" None true
     [(KStr "x", DataDesc (VPrim (PNum 1)) true true true)] Foreign].

Definition bare_state : state := initial_state bare_heap ∅.

Definition bare_failed : state :=
  Eval vm_compute in (harden 0 native_toStr None 10 (VRef 2) bare_state).2.

Definition bare_failed_again : state :=
  Eval vm_compute in (harden 0 native_toStr None 10 (VRef 2) bare_failed).2.

(** C9, as the claim states it, fails: the root has a null prototype and
    nothing else is reachable from it, the fringe is empty, yet [harden]
    throws: the getter made for [x] inherits from [Function.prototype]. *)
Lemma null_prototype_root_with_data_property_fails :
  fringeSet bare_state = ∅ ∧
  (∀ l, reachable (st_heap bare_state) ∅ 2 l -> proto_at (st_heap bare_state) l = None) ∧
  harden 0 native_toStr None 10 (VRef 2) bare_state =
    (Raise (UnreachablePrototype
              "prototype function () { [native code] } of unknown is not already in the fringeSet"),
     bare_failed).
Proof.
  split; [reflexivity|]. split; [|vm_compute; reflexivity].
  intros l Hl. assert (l = 2) as ->; [|reflexivity].
  induction Hl as [|a b Ha IH _ (o & Ho & Hb)]; [reflexivity|].
  subst a. vm_compute in Ho. injection Ho as <-. vm_compute in Hb. inversion Hb.
Qed.

(** C3, as the claim states it, fails: the second call on the same root
    fails with another message, as the getter is now found through the
    property and has a path. *)
Lemma retry_fails_with_another_message :
  harden 0 native_toStr None 10 (VRef 2) bare_state =
    (Raise (UnreachablePrototype
              "prototype function () { [native code] } of unknown is not already in the fringeSet"),
     bare_failed) ∧
  fringeSet bare_failed = fringeSet bare_state ∧
  harden 0 native_toStr None 10 (VRef 2) bare_failed =
    (Raise (UnreachablePrototype
              "prototype function () { [native code] } of unknown.x(get) is not already in the fringeSet"),
     bare_failed_again).
Proof. vm_compute. repeat split; reflexivity. Qed.

Lemma closed_decide (h : heap) :
  forallb (fun o => forallb (fun l => bool_decide (l < length h)) (value_links o)) h = true ->
  closed h.
Proof.
  intros H l o Ho l' Hl'. rewrite forallb_forall in H.
  apply list_elem_of_lookup_2, list_elem_of_In in Ho. specialize (H o Ho).
  rewrite forallb_forall in H. apply list_elem_of_In in Hl'.
  apply (bool_decide_eq_true_1 _ (H l' Hl')).
Qed.

Lemma harden_failure_leaves_fringeSet_witness :
  fringeSet bare_failed = fringeSet bare_state ∧
  ∃ e' st2,
    harden 0 native_toStr None 10 (VRef 2) bare_failed = (Raise e', st2) ∧
    same_kind (UnreachablePrototype
                 "prototype function () { [native code] } of unknown is not already in the fringeSet")
              e' ∧
    fringeSet st2 = fringeSet bare_state.
Proof.
  destruct (harden_failure_leaves_fringeSet 0 native_toStr None 10 (VRef 2) bare_state
              (Raise (UnreachablePrototype
                 "prototype function () { [native code] } of unknown is not already in the fringeSet"))
              bare_failed) as [Hf Hretry].
  - vm_compute. reflexivity.
  - intros v. discriminate.
  - split; [exact Hf|]. apply (Hretry _ 10 eq_refl eq_refl).
    + apply wf_heap_decide. reflexivity.
    + apply closed_decide. reflexivity.
    + intros l Hl. exfalso. revert Hl. apply not_elem_of_empty.
    + vm_compute. lia.
Defined.

(** [first = Object.create(null)] with a locked property [next] holding
    [second = Object.create(null)]: at 2 and 3. *)
Definition chain_heap : heap :=
  [Function_prototype; Object_prototype;
   Object "object" None true [(KStr "next", DataDesc (VRef 3) true true false)] Foreign;
   Object "object" None true [] Foreign].

Definition chain_state : state := initial_state chain_heap ∅.

Lemma chain_is_bare l :
  reachable (st_heap chain_state) ∅ 2 l -> bare_node (st_heap chain_state) l.
Proof.
  intros Hl.
  assert (Hcase : l = 2 ∨ l = 3).
  { induction Hl as [|a b Ha IH _ (o & Ho & Hb)]; [auto|].
    destruct IH as [-> | ->]; vm_compute in Ho; injection Ho as <-;
      vm_compute in Hb; set_solver. }
  destruct Hcase as [-> | ->]; eexists; (split; [reflexivity|]); auto.
Qed.

Lemma null_prototypes_register_nothing_witness :
  wf_heap (st_heap chain_state) ∧
  (∀ l, reachable (st_heap chain_state) ∅ 2 l -> bare_node (st_heap chain_state) l) ∧
  weight (st_heap chain_state) ≤ 4 ∧
  ∃ st', harden 0 native_toStr None 4 (VRef 2) chain_state = (Ret (VRef 2), st') ∧
         prototypes st' = [].
Proof.
  split; [apply wf_heap_decide; reflexivity|].
  split; [exact chain_is_bare|].
  split; [vm_compute; lia|].
  apply (proj2 (null_prototypes_register_nothing 0 native_toStr) 4 2 chain_state).
  - apply wf_heap_decide. reflexivity.
  - exact chain_is_bare.
  - vm_compute. lia.
Defined.

(** ** Worked examples for the further properties *)

Lemma cache_run :
  harden 0 native_toStr None 10 (VRef 4) cache_state = (Ret (VRef 4), cache_hardened).
Proof. vm_compute. reflexivity. Qed.

Lemma fringe_of_cache_in_heap l :
  l ∈ fringeSet cache_state -> l < length (st_heap cache_state).
Proof.
  intros Hl. assert (l = 0 ∨ l = 1 ∨ l = 2) as [-> | [-> | ->]];
    [unfold cache_state, initial_state in Hl; simpl in Hl; set_solver | | |];
    simpl; lia.
Qed.

Lemma harden_fringeSet_grows_witness :
  harden 0 native_toStr None 10 (VRef 4) cache_state = (Ret (VRef 4), cache_hardened) ∧
  fringeSet cache_state ⊆ fringeSet cache_hardened ∧
  (∀ v, Ret (VRef 4) = Ret v ->
     fringeSet cache_hardened = list_to_set (toFreeze cache_hardened) ∪ fringeSet cache_state).
Proof.
  split; [exact cache_run|].
  apply (harden_fringeSet_grows 0 native_toStr None 10 (VRef 4) cache_state
           (Ret (VRef 4)) cache_hardened).
  exact cache_run.
Defined.

Lemma harden_keeps_fringe_closed_witness :
  hook_ok (Some observer) ∧ wf_heap (st_heap point_state) ∧
  harden 0 native_toStr (Some observer) 10 (VRef 2) point_state =
    (Ret (VRef 2), point_hardened) ∧
  (∀ v l, Ret (VRef 2) = Ret v -> l ∈ fringeSet point_hardened -> l ∉ fringeSet point_state ->
     ∃ o, st_heap point_hardened !! l = Some o ∧ isFrozen o ∧
          ∀ l', l' ∈ out_links o -> l' ∈ fringeSet point_hardened) ∧
  (fringe_closed point_state -> fringe_closed point_hardened).
Proof.
  split; [exact hook_ok_observer|].
  split; [apply wf_heap_decide; reflexivity|].
  split; [exact point_run|].
  apply (harden_keeps_fringe_closed 0 native_toStr (Some observer) 10 (VRef 2) point_state
           (Ret (VRef 2)) point_hardened).
  - exact hook_ok_observer.
  - apply wf_heap_decide. reflexivity.
  - exact point_run.
Defined.

(** [harden(Object.prototype)], a member of the initial fringe. *)
Lemma harden_skips_primitives_and_fringe_witness :
  (∀ l, VRef 1 = VRef l -> l ∈ fringeSet point_state ∧ ok_type (st_heap point_state) l) ∧
  ∃ st', harden 0 native_toStr (Some observer) 0 (VRef 1) point_state = (Ret (VRef 1), st') ∧
         st_heap st' = st_heap point_state ∧ fringeSet st' = fringeSet point_state ∧
         st_log st' = st_log point_state ∧ toFreeze st' = [].
Proof.
  assert (H : ∀ l, VRef 1 = VRef l ->
                l ∈ fringeSet point_state ∧ ok_type (st_heap point_state) l).
  { intros l [= <-]. split; [|left; reflexivity].
    unfold point_state, initial_state. simpl. set_solver. }
  split; [exact H|].
  apply (harden_skips_primitives_and_fringe 0 native_toStr (Some observer) 0 (VRef 1)
           point_state H).
Defined.

(** An object whose [typeof] is ["undefined"], at 3, as [document.all]
    is in a browser; it is in the fringe set. *)
Definition exotic_heap : heap := point_heap ++ [Object "undefined" (Some 1) true [] Foreign].

Definition exotic_state : state := initial_state exotic_heap {[0; 1; 3]}.

Lemma harden_rejects_unexpected_typeof_witness :
  ¬ ok_type (st_heap exotic_state) 3 ∧
  ∃ st', harden 0 native_toStr None 10 (VRef 3) exotic_state =
           (Raise (TypeKindError ("Unexpected typeof: " +:+ typeof (st_heap exotic_state) 3)),
            st') ∧
         st_heap st' = st_heap exotic_state ∧ fringeSet st' = fringeSet exotic_state ∧
         st_log st' = st_log exotic_state ∧ toFreeze st' = [].
Proof.
  assert (H : ¬ ok_type (st_heap exotic_state) 3).
  { intros [H | H]; vm_compute in H; discriminate. }
  split; [exact H|].
  apply (harden_rejects_unexpected_typeof 0 native_toStr None 10 3 exotic_state H).
Defined.

(** [account], at 2: a locked data property [id], a configurable data
    property under a symbol, and an accessor [balance] whose getter is the
    function at 3. *)
Definition account_object : object :=
  Object "object" (Some 1) true
    [(KStr "id", DataDesc (VPrim (PNum 7)) true true false);
     (KSym 0 "tag", DataDesc (VPrim (PStr "a")) true false true);
     (KStr "balance", AccessorDesc (VRef 3) (VPrim PUndefined) true true)] Foreign.

Definition account_heap : heap :=
  [Function_prototype; Object_prototype; account_object;
   Object "function" (Some 0) true [] Foreign].

Definition account_state : state := State account_heap {[0; 1]} [2] [] ∅ [].

Lemma inv_account_state : inv account_state.
Proof.
  split; [|split].
  - intros l Hl. apply list_elem_of_singleton in Hl as ->. simpl. lia.
  - apply NoDup_singleton.
  - apply wf_heap_decide. reflexivity.
Qed.

Definition account_hardened : state :=
  Eval vm_compute in (freezeWithOverride 0 2 account_state).2.

Lemma freezeWithOverride_freezes_in_place_witness :
  inv account_state ∧ st_heap account_state !! 2 = Some account_object ∧
  ∃ st' o',
    freezeWithOverride 0 2 account_state = (Ret tt, st') ∧
    st_heap st' !! 2 = Some o' ∧ isFrozen o' ∧
    (props o').*1 = (props account_object).*1 ∧
    proto o' = proto account_object ∧ type_of o' = type_of account_object ∧
    body o' = body account_object ∧
    (∀ l, l ≠ 2 -> l < length (st_heap account_state) ->
       st_heap st' !! l = st_heap account_state !! l) ∧
    fringeSet st' = fringeSet account_state ∧ prototypes st' = prototypes account_state.
Proof.
  split; [exact inv_account_state|].
  split; [reflexivity|].
  apply (freezeWithOverride_freezes_in_place 0 2 account_state account_object).
  - exact inv_account_state.
  - reflexivity.
Defined.

(** The accessor [balance] keeps its getter and is locked. *)
Lemma freezeWithOverride_locks_every_property_witness :
  inv account_state ∧ st_heap account_state !! 2 = Some account_object ∧
  lookup_prop (KStr "balance") (props account_object) =
    Some (AccessorDesc (VRef 3) (VPrim PUndefined) true true) ∧
  ∃ st' d',
    freezeWithOverride 0 2 account_state = (Ret tt, st') ∧
    lookup_prop (KStr "balance") (props_at (st_heap st') 2) = Some d' ∧
    enumerable d' = enumerable (AccessorDesc (VRef 3) (VPrim PUndefined) true true) ∧
    configurable d' = false ∧
    (is_cfg_data (AccessorDesc (VRef 3) (VPrim PUndefined) true true) = false ->
     d' = freeze_desc (AccessorDesc (VRef 3) (VPrim PUndefined) true true)).
Proof.
  split; [exact inv_account_state|].
  split; [reflexivity|].
  split; [reflexivity|].
  apply (freezeWithOverride_locks_every_property 0 2 account_state account_object
           (KStr "balance") (AccessorDesc (VRef 3) (VPrim PUndefined) true true)).
  - exact inv_account_state.
  - reflexivity.
  - reflexivity.
Defined.

Lemma freezeWithOverride_allocates_accessor_pairs_witness :
  inv account_state ∧ st_heap account_state !! 2 = Some account_object ∧
  ∃ st',
    freezeWithOverride 0 2 account_state = (Ret tt, st') ∧
    length (st_heap st') = length (st_heap account_state) + 2 * cfg_data account_object ∧
    toFreeze st' =
      toFreeze account_state ++ seq (length (st_heap account_state))
                                    (2 * cfg_data account_object) ∧
    ∀ l, length (st_heap account_state) ≤ l < length (st_heap st') ->
      ∃ f, st_heap st' !! l = Some f ∧ type_of f = "function" ∧
           proto f = Some 0 ∧ isFrozen f.
Proof.
  split; [exact inv_account_state|].
  split; [reflexivity|].
  apply (freezeWithOverride_allocates_accessor_pairs 0 2 account_state account_object).
  - exact inv_account_state.
  - reflexivity.
Defined.

Lemma inv_family_hardened : inv family_hardened.
Proof.
  split; [|split].
  - intros l Hl. assert (l = 2 ∨ l = 4 ∨ l = 5) as [-> | [-> | ->]];
      [vm_compute in Hl; set_solver | | |]; vm_compute; lia.
  - vm_compute. repeat constructor; set_solver.
  - apply wf_heap_decide. reflexivity.
Qed.

(** [point] once more, after it was rewritten and frozen. *)
Lemma freezeWithOverride_frozen_is_noop_witness :
  inv family_hardened ∧
  st_heap family_hardened !! 2 = Some (overridden 4 point_object) ∧
  isFrozen (overridden 4 point_object) ∧
  ∃ st',
    freezeWithOverride 0 2 family_hardened = (Ret tt, st') ∧
    st_heap st' = st_heap family_hardened ∧ toFreeze st' = toFreeze family_hardened ∧
    fringeSet st' = fringeSet family_hardened ∧ prototypes st' = prototypes family_hardened.
Proof.
  split; [exact inv_family_hardened|].
  split; [vm_compute; reflexivity|].
  split; [apply isFrozen_freeze_object|].
  apply (freezeWithOverride_frozen_is_noop 0 2 family_hardened (overridden 4 point_object)).
  - exact inv_family_hardened.
  - vm_compute. reflexivity.
  - apply isFrozen_freeze_object.
Defined.

(** [child.x], with [child = Object.create(point)]. *)
Lemma inherited_read_gives_captured_value_witness :
  inv family_state ∧
  st_heap family_state !! 2 = Some point_object ∧
  (KStr "x", DataDesc (VPrim (PNum 1)) true true true) ∈ props point_object ∧
  freezeWithOverride 0 2 family_state = (Ret tt, family_hardened) ∧
  heap_le (st_heap family_hardened) (st_heap family_hardened) ∧
  inherits (st_heap family_hardened) (KStr "x") 2 3 1 ∧ 1 < 2 ∧
  read native_toStr no_foreign 2 3 (KStr "x") family_hardened =
    (Ret (VPrim (PNum 1)), family_hardened).
Proof.
  split; [exact inv_family_state|].
  split; [reflexivity|].
  split; [left|].
  split; [vm_compute; reflexivity|].
  split; [reflexivity|].
  split; [exact child_inherits|].
  split; [lia|].
  apply (inherited_read_gives_captured_value 0 native_toStr no_foreign
           2 family_state point_object (KStr "x") (VPrim (PNum 1)) true true
           family_hardened family_hardened 3 1 2).
  - exact inv_family_state.
  - reflexivity.
  - left.
  - vm_compute. reflexivity.
  - reflexivity.
  - exact child_inherits.
  - lia.
Defined.

(** [account[tag] = "b"], the key being a symbol. *)
Lemma direct_assignment_always_throws_witness :
  inv account_state ∧
  st_heap account_state !! 2 = Some account_object ∧
  (KSym 0 "tag", DataDesc (VPrim (PStr "a")) true false true) ∈ props account_object ∧
  freezeWithOverride 0 2 account_state = (Ret tt, account_hardened) ∧
  heap_le (st_heap account_hardened) (st_heap account_hardened) ∧
  0 < 1 ∧
  ∃ err,
    assign native_toStr no_foreign 1 2 (KSym 0 "tag") (VPrim (PStr "b")) account_hardened =
      (Raise err, account_hardened) ∧
    (read_only_message native_toStr 2 (KSym 0 "tag") = None -> ∃ m, err = HostError m).
Proof.
  split; [exact inv_account_state|].
  split; [reflexivity|].
  split; [right; left|].
  split; [vm_compute; reflexivity|].
  split; [reflexivity|].
  split; [lia|].
  apply (direct_assignment_always_throws 0 native_toStr no_foreign
           2 account_state account_object (KSym 0 "tag") (VPrim (PStr "a")) true false
           account_hardened account_hardened 1 (VPrim (PStr "b"))).
  - exact inv_account_state.
  - reflexivity.
  - right. left.
  - vm_compute. reflexivity.
  - reflexivity.
  - lia.
Defined.

(** The registry of the failed call on [bare] holds [Function.prototype],
    registered for the getter of [x]. *)
Lemma checkPrototypes_reports_first_offender_witness :
  checkPrototypes native_toStr bare_failed =
    (Raise (UnreachablePrototype
              "prototype function () { [native code] } of unknown is not already in the fringeSet"),
     bare_failed) ∧
  ∃ before p path after,
    prototypes bare_failed = before ++ (p, path) :: after ∧
    UnreachablePrototype
      "prototype function () { [native code] } of unknown is not already in the fringeSet" =
      UnreachablePrototype (prototype_message native_toStr p path) ∧
    (p ∉ toFreeze bare_failed) ∧ (p ∉ fringeSet bare_failed) ∧
    ∀ q qpath, (q, qpath) ∈ before -> q ∈ toFreeze bare_failed ∨ q ∈ fringeSet bare_failed.
Proof.
  split; [vm_compute; reflexivity|].
  apply (checkPrototypes_reports_first_offender native_toStr bare_failed _ bare_failed).
  vm_compute. reflexivity.
Defined.

(** A hook that refuses every node. *)
Definition refuser : loc -> heap -> option error * heap :=
  fun _ h => (Some (HostError "not today"), h).

Lemma hook_error_propagates_witness :
  ok_type (st_heap point_state) 2 ∧ (2 ∉ fringeSet point_state) ∧
  refuser 2 (st_heap point_state) = (Some (HostError "not today"), st_heap point_state) ∧
  ∃ st', harden 0 native_toStr (Some refuser) 1 (VRef 2) point_state =
           (Raise (HostError "not today"), st') ∧
         st_heap st' = st_heap point_state ∧ fringeSet st' = fringeSet point_state ∧
         st_log st' = st_log point_state ++ [EvPrepare 2].
Proof.
  assert (Hn : 2 ∉ fringeSet point_state).
  { unfold point_state, initial_state. simpl. set_solver. }
  split; [left; reflexivity|].
  split; [exact Hn|].
  split; [reflexivity|].
  apply (hook_error_propagates 0 native_toStr refuser 0 2 point_state
           (HostError "not today") (st_heap point_state)).
  - left. reflexivity.
  - exact Hn.
  - reflexivity.
Defined.




Definition cache_object : object :=
  Object "object" (Some 1) true [(KStr "hits", DataDesc (VRef 3) true true true)] Foreign.

(** [cache], a fringe member that is not frozen, stays as it is. *)
Lemma harden_touches_only_its_work_set_witness :
  wf_heap (st_heap cache_state) ∧
  harden 0 native_toStr None 10 (VRef 4) cache_state = (Ret (VRef 4), cache_hardened) ∧
  st_heap cache_state !! 2 = Some cache_object ∧
  (2 ∉ toFreeze cache_hardened -> st_heap cache_hardened !! 2 = Some cache_object) ∧
  (st_heap cache_hardened !! 2 = Some cache_object ∨
   ∃ n, st_heap cache_hardened !! 2 = Some (overridden n cache_object)).
Proof.
  split; [apply wf_heap_decide; reflexivity|].
  split; [exact cache_run|].
  split; [reflexivity|].
  apply (harden_touches_only_its_work_set 0 native_toStr 10 (VRef 4) cache_state
           (Ret (VRef 4)) cache_hardened 2 cache_object).
  - apply wf_heap_decide. reflexivity.
  - exact cache_run.
  - reflexivity.
Defined.

Lemma harden_work_set_discipline_witness :
  hook_ok None ∧ wf_heap (st_heap cache_state) ∧
  (∀ l, l ∈ fringeSet cache_state -> l < length (st_heap cache_state)) ∧
  harden 0 native_toStr None 10 (VRef 4) cache_state = (Ret (VRef 4), cache_hardened) ∧
  NoDup (toFreeze cache_hardened) ∧
  ∀ l, l ∈ toFreeze cache_hardened ->
    (l ∉ fringeSet cache_state) ∧ ok_type (st_heap cache_hardened) l.
Proof.
  split; [exact hook_ok_None|].
  split; [apply wf_heap_decide; reflexivity|].
  split; [exact fringe_of_cache_in_heap|].
  split; [exact cache_run|].
  apply (harden_work_set_discipline 0 native_toStr None 10 (VRef 4) cache_state
           (Ret (VRef 4)) cache_hardened).
  - exact hook_ok_None.
  - apply wf_heap_decide. reflexivity.
  - exact fringe_of_cache_in_heap.
  - exact cache_run.
Defined.

(** [child.x = 7; child.x = 8]. *)
Lemma shadowing_property_is_ordinary_witness :
  inv family_state ∧
  st_heap family_state !! 2 = Some point_object ∧
  (KStr "x", DataDesc (VPrim (PNum 1)) true true true) ∈ props point_object ∧
  freezeWithOverride 0 2 family_state = (Ret tt, family_hardened) ∧
  heap_le (st_heap family_hardened) (st_heap family_hardened) ∧
  inherits (st_heap family_hardened) (KStr "x") 2 3 1 ∧
  st_heap family_hardened !! 3 = Some (Object "object" (Some 2) true [] Foreign) ∧
  extensible (Object "object" (Some 2) true [] Foreign) = true ∧
  1 < 2 ∧
  ∃ st' st'',
    assign native_toStr no_foreign 2 3 (KStr "x") (VPrim (PNum 7)) family_hardened =
      (Ret tt, st') ∧
    assign native_toStr no_foreign 2 3 (KStr "x") (VPrim (PNum 8)) st' = (Ret tt, st'') ∧
    lookup_prop (KStr "x") (props_at (st_heap st'') 3) =
      Some (DataDesc (VPrim (PNum 8)) true true true) ∧
    st_heap st'' !! 2 = st_heap family_hardened !! 2 ∧
    st_log st' = st_log family_hardened ++ [EvDefineProperty 3 (KStr "x")] ∧
    st_log st'' = st_log st'.
Proof.
  split; [exact inv_family_state|].
  split; [reflexivity|].
  split; [left|].
  split; [vm_compute; reflexivity|].
  split; [reflexivity|].
  split; [exact child_inherits|].
  split; [reflexivity|].
  split; [reflexivity|].
  split; [lia|].
  apply (shadowing_property_is_ordinary 0 native_toStr no_foreign
           2 family_state point_object (KStr "x") (VPrim (PNum 1)) true true
           family_hardened family_hardened 3 (Object "object" (Some 2) true [] Foreign)
           0 2 (VPrim (PNum 7)) (VPrim (PNum 8))).
  - exact inv_family_state.
  - reflexivity.
  - left.
  - vm_compute. reflexivity.
  - reflexivity.
  - exact child_inherits.
  - reflexivity.
  - reflexivity.
  - lia.
Defined.

Lemma harden_follows_values_only_witness :
  wf_heap (st_heap cache_state) ∧ closed (st_heap cache_state) ∧
  (∀ l, l ∈ fringeSet cache_state -> l < length (st_heap cache_state)) ∧
  harden 0 native_toStr None 10 (VRef 4) cache_state = (Ret (VRef 4), cache_hardened) ∧
  ∀ l, l ∈ toFreeze cache_hardened -> holds (st_heap cache_hardened) 4 l.
Proof.
  split; [apply wf_heap_decide; reflexivity|].
  split; [apply closed_decide; reflexivity|].
  split; [exact fringe_of_cache_in_heap|].
  split; [exact cache_run|].
  apply (harden_follows_values_only 0 native_toStr 10 4 cache_state
           (Ret (VRef 4)) cache_hardened).
  - apply wf_heap_decide. reflexivity.
  - apply closed_decide. reflexivity.
  - exact fringe_of_cache_in_heap.
  - exact cache_run.
Defined.
